(** * Connectome-MS-Analysis: the preprocessing pipeline, embedded and verified

    The scripts of the repository load a connectivity matrix from a CSV file,
    clean it, optionally sparsify it, optionally keep its giant component,
    hand it to a graph-metric routine and append one row per file to a table.

    Weight matrices are square arrays of exact rationals ([Q]); rounding
    within the float formats and signed zeros are outside the model.
    Statements about the sparsifiers and the normalisation allow for it: a
    count that the code obtains by flooring a binary64 product is bounded
    with one unit of slack, an entry that a division could underflow is
    not claimed to stay positive, and nothing is said about which of
    several equal weights a partial sort prefers.  The float32 loaders,
    where a large entry overflows to an infinity and a sum of infinities is
    NaN, return arrays of floats ([farray]); other values that can be
    infinite or NaN (path lengths, metric columns) use the same floats.
    Library routines (numpy, networkx, pandas) are modelled from their
    documented behaviour; the functions of the scripts are transcribed on
    top of them, one definition per source function. *)

From Stdlib Require Import List Arith ZArith QArith Qminmax Qround Lia Bool.
From Stdlib Require Import Ascii Permutation Sorted Mergesort Orders.
From Stdlib Require String.
From Stdlib Require DecimalString DecimalNat.
From Stdlib Require Import Relations Morphisms.
Import ListNotations.

Import String.StringSyntax Ascii.AsciiSyntax.
Delimit Scope string_scope with string.
Local Open Scope Q_scope.

(* ================================================================== *)
(** ** Python exceptions as [option] *)
(* ================================================================== *)

(** A computation that may raise: [None] is "an exception was raised". *)
Definition bind {A B : Type} (m : option A) (k : A -> option B) : option B :=
  match m with
  | Some a => k a
  | None => None
  end.

Notation "x <- m ;; k" := (bind m (fun x => k))
  (at level 61, m at next level, right associativity).

(** [try: body  except Exception: handler] *)
Definition try_except {A : Type} (body : option A) (handler : A) : A :=
  match body with
  | Some a => a
  | None => handler
  end.

(* ================================================================== *)
(** ** Rational comparisons as booleans *)
(* ================================================================== *)

Definition Qltb (x y : Q) : bool := negb (Qle_bool y x).
Definition Qleb (x y : Q) : bool := Qle_bool x y.

(** Python's builtin [min(a, b)]: the first argument unless the second is
    strictly smaller. *)
Definition py_min (a b : Q) : Q := if Qltb b a then b else a.

(* ================================================================== *)
(** ** numpy arrays of rank 2 *)
(* ================================================================== *)

Section Arrays.
Context {A : Type}.
Variable dflt : A.

(** Row-major storage; [mget] reads one cell of an in-range index. *)
Definition mget (W : list (list A)) (i j : nat) : A :=
  nth j (nth i W []) dflt.

(** The array whose cell [(i, j)] is [f i j], of shape [n] by [n]. *)
Definition minit (n : nat) (f : nat -> nat -> A) : list (list A) :=
  map (fun i => map (f i) (seq 0 n)) (seq 0 n).

(** [W.shape == (n, n)] *)
Definition square (n : nat) (W : list (list A)) : Prop :=
  length W = n /\ Forall (fun r => length r = n) W.
End Arrays.

Definition ndarray := list (list Q).
Definition boolarray := list (list bool).

Definition shape0 {A : Type} (W : list (list A)) : nat := length W.

Notation "W [@ i , j ]" := (mget 0 W i j) (at level 1, format "W [@ i ,  j ]").

(** [W.T] *)
Definition transpose (W : ndarray) : ndarray :=
  minit (shape0 W) (fun i j => W[@j, i]).

(** [A + B] for two arrays of the same shape *)
Definition np_add (X Y : ndarray) : ndarray :=
  minit (shape0 X) (fun i j => X[@i, j] + Y[@i, j]).

(** [c * W] *)
Definition np_scale (c : Q) (W : ndarray) : ndarray :=
  map (map (fun x => c * x)) W.

(** [W / m] *)
Definition np_div (W : ndarray) (m : Q) : ndarray :=
  map (map (fun x => x / m)) W.

(** [np.fill_diagonal(W, v)] *)
Definition fill_diagonal {A : Type} (dflt : A) (W : list (list A)) (v : A)
  : list (list A) :=
  minit (shape0 W) (fun i j => if Nat.eqb i j then v else mget dflt W i j).

(** [W[W < 0] = 0.0] *)
Definition clamp_negatives (W : ndarray) : ndarray :=
  map (map (fun x => if Qltb x 0 then 0 else x)) W.

(** [np.nan_to_num(W, nan=0.0, posinf=0.0, neginf=0.0)]: a rational entry is
    neither NaN nor infinite, so every entry is kept. *)
Definition nan_to_num (W : ndarray) : ndarray :=
  map (map (fun x => x)) W.

(** [np.zeros_like(W)] *)
Definition zeros_like (W : ndarray) : ndarray :=
  map (map (fun _ => 0)) W.

(** [np.maximum(X, Y)] *)
Definition np_maximum (X Y : ndarray) : ndarray :=
  minit (shape0 X) (fun i j => Qmax X[@i, j] Y[@i, j]).

(** [np.where(M, W, 0.0)] *)
Definition np_where (M : boolarray) (W : ndarray) : ndarray :=
  minit (shape0 W) (fun i j => if mget false M i j then W[@i, j] else 0).

(** [np.max(W)]: raises [ValueError] on an array without elements. *)
Definition np_max (W : ndarray) : option Q :=
  match concat W with
  | [] => None
  | x :: xs => Some (fold_left Qmax xs x)
  end.

(** [np.triu_indices(n, 1)]: the index pairs above the diagonal, row by row. *)
Definition triu_indices (n : nat) : list (nat * nat) :=
  flat_map (fun i => map (fun j => (i, j)) (seq (S i) (n - S i))) (seq 0 n).

(** [np.count_nonzero(np.triu(W, 1) > 0)] *)
Definition count_triu_positive (W : ndarray) : nat :=
  length (filter (fun p => Qltb 0 W[@fst p, snd p]) (triu_indices (shape0 W))).

(** Two arrays with the same shape and equal entries. *)
Definition mat_eq (X Y : ndarray) : Prop := Forall2 (Forall2 Qeq) X Y.

(** The predicates of a clean weight matrix. *)
Definition symmetric (n : nat) (W : ndarray) : Prop :=
  forall i j, (i < n)%nat -> (j < n)%nat -> W[@i, j] == W[@j, i].

Definition zero_diagonal (n : nat) (W : ndarray) : Prop :=
  forall i, (i < n)%nat -> W[@i, i] == 0.

Definition non_negative (n : nat) (W : ndarray) : Prop :=
  forall i j, (i < n)%nat -> (j < n)%nat -> 0 <= W[@i, j].

Definition cleaned (n : nat) (W : ndarray) : Prop :=
  square n W /\ symmetric n W /\ zero_diagonal n W /\ non_negative n W.

(* ================================================================== *)
(** ** Python indexing and numpy selection *)
(* ================================================================== *)

(** [l[i]] for a Python integer [i]: a negative index counts from the end,
    an index outside [-len, len) raises [IndexError]. *)
Definition py_getitem {A : Type} (l : list A) (i : Z) : option A :=
  let n := Z.of_nat (length l) in
  if ((0 <=? i) && (i <? n))%Z then nth_error l (Z.to_nat i)
  else if ((- n <=? i) && (i <? 0))%Z then nth_error l (Z.to_nat (n + i))
  else None.

(** [l[i:]]: the start is clipped to the list. *)
Definition py_slice_from {A : Type} (l : list A) (i : Z) : list A :=
  let n := Z.of_nat (length l) in
  if (i <? 0)%Z then skipn (Z.to_nat (Z.max 0 (n + i))) l
  else skipn (Z.to_nat i) l.

(** [a[mask]]: the elements of [a] at which the boolean mask is set. *)
Fixpoint mask_select {A : Type} (mask : list bool) (a : list A) : list A :=
  match mask, a with
  | b :: mask', x :: a' =>
      if b then x :: mask_select mask' a' else mask_select mask' a'
  | _, _ => []
  end.

(** [wi[i] = v] on a vector; the index is in range wherever it is used. *)
Fixpoint list_set {A : Type} (l : list A) (i : nat) (v : A) : list A :=
  match l, i with
  | [], _ => []
  | _ :: l', O => v :: l'
  | x :: l', S i' => x :: list_set l' i' v
  end.

Definition mem (x : nat) (s : list nat) : bool := existsb (Nat.eqb x) s.

Definition pair_eqb (p q : nat * nat) : bool :=
  Nat.eqb (fst p) (fst q) && Nat.eqb (snd p) (snd q).

Lemma Qle_bool_total (a b : Q) : Qle_bool a b = true \/ Qle_bool b a = true.
Proof.
  rewrite !Qle_bool_iff.
  destruct (Qlt_le_dec a b) as [Hlt | Hle];
    [left; apply Qlt_le_weak; exact Hlt | right; exact Hle].
Qed.

(** The order of weights, for [np.partition]. *)
Module QOrder <: TotalLeBool.
Definition t := Q.
Definition leb := Qle_bool.
Definition leb_total : forall a b, leb a b = true \/ leb b a = true :=
  Qle_bool_total.
End QOrder.
Module QSort := Sort QOrder.

(** The order of (index, weight) pairs by weight, for [np.argpartition]. *)
Module IdxOrder <: TotalLeBool.
Definition t := (nat * Q)%type.
Definition leb (x y : t) := Qle_bool (snd x) (snd y).
Definition leb_total : forall a b, leb a b = true \/ leb b a = true :=
  fun a b => Qle_bool_total (snd a) (snd b).
End IdxOrder.
Module IdxSort := Sort IdxOrder.

(** [np.partition(a, kth)]: raises [ValueError] when [kth] is outside
    [-size, size); otherwise some rearrangement of [a] with the element of
    rank [kth] at its sorted position, smaller ones before it and larger ones
    after it.  The fully sorted array is such a rearrangement, and the element
    at position [kth] is the same in all of them. *)
Definition np_partition (a : list Q) (kth : Z) : option (list Q) :=
  let n := Z.of_nat (length a) in
  if ((- n <=? kth) && (kth <? n))%Z then Some (QSort.sort a) else None.

(** [np.argpartition(a, kth)]: the indices that rearrange [a] as
    [np.partition] does.  numpy leaves open which of several equal values
    lands on which side; the indices of a stable sort stand for one such
    choice, and no statement below depends on the choice among equal
    weights. *)
Definition np_argpartition (a : list Q) (kth : Z) : option (list nat) :=
  let n := Z.of_nat (length a) in
  if ((- n <=? kth) && (kth <? n))%Z
  then Some (map fst (IdxSort.sort (combine (seq 0 (length a)) a)))
  else None.

(** [M[rs, cs] = True] for the index pairs [rcs]. *)
Definition set_true_at (M : boolarray) (rcs : list (nat * nat)) : boolarray :=
  minit (shape0 M)
    (fun i j => mget false M i j || existsb (pair_eqb (i, j)) rcs).

(** [M[i, cols] = True] *)
Definition set_row_true (M : boolarray) (i : nat) (cols : list nat) : boolarray :=
  minit (shape0 M)
    (fun a b => mget false M a b || (Nat.eqb a i && mem b cols)).

(** [M[rows, i] = True] *)
Definition set_col_true (M : boolarray) (rows : list nat) (i : nat) : boolarray :=
  minit (shape0 M)
    (fun a b => mget false M a b || (mem a rows && Nat.eqb b i)).

(** [M |= M.T] *)
Definition or_transpose (M : boolarray) : boolarray :=
  minit (shape0 M) (fun i j => mget false M i j || mget false M j i).

(** [W[np.ix_(idx, idx)]] *)
Definition np_ix (W : ndarray) (idx : list nat) : ndarray :=
  map (fun a => map (fun b => W[@a, b]) idx) idx.

(* ================================================================== *)
(** ** Floats that may be infinite or NaN *)
(* ================================================================== *)

Inductive float : Type :=
| Fin (q : Q)
| PInf
| NInf
| NaN.

Definition farray := list (list float).

(** [x > 0] and [x < 0] on a float: a comparison with NaN is false. *)
Definition f_gt0 (x : float) : bool :=
  match x with
  | Fin q => Qltb 0 q
  | PInf => true
  | NInf | NaN => false
  end.

Definition f_lt0 (x : float) : bool :=
  match x with
  | Fin q => Qltb q 0
  | NInf => true
  | PInf | NaN => false
  end.

(** The least magnitude that rounds to an infinity in float32:
    [2^128 - 2^103], half a unit in the last place above the largest
    float32. *)
Definition FLT_OVERFLOW : Q := inject_Z (2 ^ 128 - 2 ^ 103).

(** [np.float32(q)]: a value of magnitude [FLT_OVERFLOW] or more becomes an
    infinity.  The rounding of a smaller value to 24 significant bits is not
    modelled: such a value is kept as it is. *)
Definition np_float32 (q : Q) : float :=
  if Qle_bool FLT_OVERFLOW q then PInf
  else if Qle_bool q (- FLT_OVERFLOW) then NInf
  else Fin q.

(** [x + y] in float32: NaN is contagious, the sum of the two infinities of
    opposite sign is NaN, and a finite sum may overflow. *)
Definition f32_add (x y : float) : float :=
  match x, y with
  | NaN, _ | _, NaN => NaN
  | PInf, NInf | NInf, PInf => NaN
  | PInf, _ | _, PInf => PInf
  | NInf, _ | _, NInf => NInf
  | Fin a, Fin b => np_float32 (a + b)
  end.

(** [0.5 * x] in float32 *)
Definition f32_half (x : float) : float :=
  match x with
  | Fin a => Fin ((1 # 2) * a)
  | PInf => PInf
  | NInf => NInf
  | NaN => NaN
  end.

(** [W.shape] of an array of rank 2; a list whose rows differ in length is
    no array. *)
Definition shape {A : Type} (W : list (list A)) : option (nat * nat) :=
  match W with
  | [] => Some (0, 0)%nat
  | r :: _ =>
      if forallb (fun r' => Nat.eqb (length r') (length r)) W
      then Some (length W, length r)
      else None
  end.

(** The array of shape [r] by [c] whose cell [(i, j)] is [f i j]. *)
Definition minit2 {A : Type} (r c : nat) (f : nat -> nat -> A) : list (list A) :=
  map (fun i => map (f i) (seq 0 c)) (seq 0 r).

(** [W.T] of an array of any shape *)
Definition np_transpose {A : Type} (dflt : A) (W : list (list A)) : list (list A) :=
  minit2 (length (nth 0 W [])) (length W) (fun i j => mget dflt W j i).

(** The length that two dimensions broadcast to: they are equal or one of
    them is 1; anything else raises [ValueError]. *)
Definition broadcast_dim (a b : nat) : option nat :=
  if Nat.eqb a b then Some a
  else if Nat.eqb a 1 then Some b
  else if Nat.eqb b 1 then Some a
  else None.

(** The cell that index [(i, j)] of the broadcast result reads in an array
    of shape [s]: a dimension of length 1 is repeated. *)
Definition broadcast_get (s : nat * nat) (M : farray) (i j : nat) : float :=
  mget NaN M (if Nat.eqb (fst s) 1 then 0 else i)
             (if Nat.eqb (snd s) 1 then 0 else j).

(** [X + Y] on float32 arrays, with numpy's broadcasting. *)
Definition np_add32 (X Y : farray) : option farray :=
  sx <- shape X ;;
  sy <- shape Y ;;
  r <- broadcast_dim (fst sx) (fst sy) ;;
  c <- broadcast_dim (snd sx) (snd sy) ;;
  Some (minit2 r c (fun i j =>
                      f32_add (broadcast_get sx X i j) (broadcast_get sy Y i j))).

(** [W[W < 0] = 0.0] on a float32 array: NaN is not below zero and stays. *)
Definition clamp_negatives32 (W : farray) : farray :=
  map (map (fun x => if f_lt0 x then Fin 0 else x)) W.

(** [np.count_nonzero(np.triu(W, 1) > 0)] on a float32 array *)
Definition count_triu_positive32 (W : farray) : nat :=
  length (filter (fun p => f_gt0 (mget NaN W (fst p) (snd p)))
                 (triu_indices (shape0 W))).

(* ================================================================== *)
(** ** The loaders (one per script) *)
(* ================================================================== *)

(** Each loader is a function of the array of numbers that
    [pd.read_csv(path, header=None).values] produced.  The loaders of
    global_efficiency.py and characteristic_path_lengh.py cast it to
    float32, where a large entry becomes an infinity, and add the array to
    its transpose, which raises unless the shapes broadcast; the loader of
    modularity.py works in float64 and removes NaN and infinities at the
    end, and is modelled over the rationals. *)

Module GlobalEfficiency.
(** global_efficiency.py, [load_and_clean_matrix] *)
Definition load_and_clean_matrix (csv : ndarray) : option farray :=
  let W := map (map np_float32) csv in
  W <- np_add32 W (np_transpose NaN W) ;;
  let W := map (map f32_half) W in
  let W := fill_diagonal NaN W (Fin 0) in
  let W := clamp_negatives32 W in
  Some W.
End GlobalEfficiency.

Module CharPath.
(** characteristic_path_lengh.py, [load_and_clean_W] *)
Definition load_and_clean_W (csv : ndarray) : option farray :=
  let W := map (map np_float32) csv in
  W <- np_add32 W (np_transpose NaN W) ;;
  let W := map (map f32_half) W in
  let W := fill_diagonal NaN W (Fin 0) in
  let W := clamp_negatives32 W in
  Some W.
End CharPath.

Module Modularity.
(** modularity.py, [load_W_csv] *)
Definition load_W_csv (csv : ndarray) : ndarray :=
  let W := csv in
  let W := np_scale (1 # 2) (np_add W (transpose W)) in
  let W := fill_diagonal 0 W 0 in
  let W := clamp_negatives W in
  let W := nan_to_num W in
  W.

(** modularity.py, [maybe_normalize]; clustering_coefficient.py and
    node_strength.py have the same body.  The quotients are exact: in
    binary64 a subnormal weight may divide to zero. *)
Definition maybe_normalize (W : ndarray) (enable : bool) : option ndarray :=
  if negb enable then Some W
  else
    m <- np_max W ;;
    Some (if Qltb 0 m then np_div W m else W).
End Modularity.

Module Sparsify.
(** modularity.py, [density] (node_strength.py and
    clustering_coefficient.py have the same body, and
    characteristic_path_lengh.py has it as [matrix_density]). *)
Definition density (W : ndarray) : Q :=
  let n := shape0 W in
  if (n <? 2)%nat then 0
  else
    let e := count_triu_positive W in
    (2 * inject_Z (Z.of_nat e)) / inject_Z (Z.of_nat n * (Z.of_nat n - 1)).

(** One round of the k-NN loop of [threshold_to_target_density]: the body
    of [for i in range(n)], on the mask [M]. *)
Definition knn_row (W : ndarray) (knn_k : Z) (M : boolarray) (i : nat)
  : option boolarray :=
  let wi := nth i W [] in
  let wi := list_set wi i 0 in
  let nz := filter (fun j => Qltb 0 (nth j wi 0)) (seq 0 (length wi)) in
  if (length nz =? 0)%nat then Some M
  else
    let k := Z.min knn_k (Z.of_nat (length nz)) in
    order <- np_argpartition (map (fun j => nth j wi 0) nz) (- k) ;;
    let topk := map (fun a => nth a nz O) (py_slice_from order (- k)) in
    let M := set_row_true M i topk in
    let M := set_col_true M topk i in
    Some M.

Definition knn_loop (W : ndarray) (knn_k : Z) (M : boolarray) (n : nat)
  : option boolarray :=
  fold_left (fun acc i => M <- acc ;; knn_row W knn_k M i) (seq 0 n) (Some M).

(** modularity.py, [threshold_to_target_density]: returns
    [(W_thr, target_used, available_density)].  [k_edges] is the floor of
    the exact product; the binary64 product of the code may floor to one
    more or one less. *)
Definition threshold_to_target_density (W : ndarray) (target : Q) (knn_k : Z)
  : option (ndarray * Q * Q) :=
  let n := shape0 W in
  if (n <? 2)%nat then Some (zeros_like W, 0, 0)
  else
    let rc := triu_indices n in
    let vals := map (fun p => W[@fst p, snd p]) rc in
    let pos := map (fun v => Qltb 0 v) vals in
    let pos_vals := mask_select pos vals in
    let pos_rc := mask_select pos rc in
    let m := length pos_vals in
    let total_possible := (Z.of_nat n * (Z.of_nat n - 1) / 2)%Z in
    let avail_density :=
      if (0 <? total_possible)%Z
      then (inject_Z (Z.of_nat m) * 2)
           / inject_Z (Z.of_nat n * (Z.of_nat n - 1))
      else 0 in
    if (m =? 0)%nat then Some (zeros_like W, 0, avail_density)
    else
      let target_used := py_min target avail_density in
      if Qleb target_used 0
      then Some (zeros_like W, target_used, avail_density)
      else
        let k_edges := Qfloor (target_used * inject_Z total_possible) in
        let k_edges := Z.max 1 (Z.min k_edges (Z.of_nat m)) in
        part <- np_partition pos_vals (- k_edges) ;;
        kth <- py_getitem part (- k_edges) ;;
        let keep_mask := map (fun v => Qleb kth v) pos_vals in
        let M := minit n (fun _ _ => false) in
        let M := set_true_at M (mask_select keep_mask pos_rc) in
        let M := or_transpose M in
        let M := fill_diagonal false M false in
        M <- (if (negb (knn_k =? 0)%Z && (0 <? knn_k)%Z)
              then knn_loop W knn_k M n
              else Some M) ;;
        let U := np_where M W in
        let U := np_maximum U (transpose U) in
        let U := fill_diagonal 0 U 0 in
        Some (U, target_used, avail_density).

(** node_strength.py, [threshold_proportional]; [p = None] is Python's
    [None].  [k] is the floor of the exact product. *)
Definition threshold_proportional (W : ndarray) (p : option Q)
  : option ndarray :=
  match p with
  | None => Some W
  | Some p =>
      let U := W in
      let tri := triu_indices (shape0 U) in
      let vals := map (fun rc => U[@fst rc, snd rc]) tri in
      let k := Qfloor (p * inject_Z (Z.of_nat (length vals))) in
      if (k <=? 0)%Z then Some (zeros_like W)
      else
        part <- np_partition vals (- k) ;;
        thr <- py_getitem part (- k) ;;
        let mask := map (map (fun u => Qleb thr u)) U in
        let U := np_where mask U in
        let U := np_maximum U (transpose U) in
        let U := fill_diagonal 0 U 0 in
        Some U
  end.
End Sparsify.

(* ================================================================== *)
(** ** networkx: undirected graphs and connected components *)
(* ================================================================== *)

(** A graph on the nodes [0 .. n-1], as the adjacency lists [G._adj]. *)
Definition graph := list (list nat).

Definition number_of_nodes (G : graph) : nat := length G.

Definition neighbors (G : graph) (v : nat) : list nat := nth v G [].

(** [nx.from_numpy_array(A)] for a boolean array: an undirected graph with
    an edge between [i] and [j] as soon as one of [A[i, j]], [A[j, i]] is
    set (a set diagonal cell is a self-loop). *)
Definition from_numpy_array (A : boolarray) : graph :=
  let n := shape0 A in
  map (fun i => filter (fun j => mget false A i j || mget false A j i) (seq 0 n))
      (seq 0 n).

(** [G.number_of_edges()]: every undirected edge once, self-loops included. *)
Definition number_of_edges (G : graph) : nat :=
  length (filter (fun p => mem (snd p) (neighbors G (fst p)))
            (flat_map (fun i => map (fun j => (i, j)) (seq 0 (S i)))
               (seq 0 (length G)))).

(** One level of the breadth-first search: the nodes seen so far and their
    neighbours, in increasing order. *)
Definition bfs_expand (G : graph) (seen : list nat) : list nat :=
  filter (fun j => mem j seen || existsb (fun i => mem j (neighbors G i)) seen)
         (seq 0 (length G)).

Fixpoint bfs_levels (G : graph) (fuel : nat) (seen : list nat) : list nat :=
  match fuel with
  | O => seen
  | S fuel' => bfs_levels G fuel' (bfs_expand G seen)
  end.

(** [_plain_bfs(G, source)]: the set of nodes reachable from [source]; a
    search over [n] nodes has at most [n] levels. *)
Definition plain_bfs (G : graph) (source : nat) : list nat :=
  bfs_levels G (length G) [source].

(** The loop of [nx.connected_components]: [for v in G: if v not in seen]. *)
Fixpoint components_from (G : graph) (vs seen : list nat) : list (list nat) :=
  match vs with
  | [] => []
  | v :: vs' =>
      if mem v seen then components_from G vs' seen
      else
        let c := plain_bfs G v in
        c :: components_from G vs' (seen ++ c)
  end.

Definition connected_components (G : graph) : list (list nat) :=
  components_from G (seq 0 (length G)) [].

(** [max(c :: cs, key=len)]: the first element of greatest length. *)
Fixpoint max_by_len (c : list nat) (cs : list (list nat)) : list nat :=
  match cs with
  | [] => c
  | c' :: cs' =>
      if (length c <? length c')%nat then max_by_len c' cs' else max_by_len c cs'
  end.

Module Components.
(** modularity.py, [largest_component_submatrix]: returns [(W_gcc, idx)]. *)
Definition largest_component_submatrix (W : ndarray) : ndarray * list nat :=
  let n := shape0 W in
  let G := from_numpy_array (map (map (fun w => Qltb 0 w)) W) in
  if (number_of_nodes G =? 0)%nat || (number_of_edges G =? 0)%nat
  then (W, seq 0 n)
  else
    match connected_components G with
    | [] => (W, seq 0 n)
    | [_] => (W, seq 0 n)
    | c :: cs =>
        let gcc := max_by_len c cs in
        let idx := NatSort.sort gcc in
        (np_ix W idx, idx)
    end.
End Components.

(** The undirected graph of a weight matrix, as a relation: an edge joins
    two nodes when a weight between them is strictly positive. *)
Definition edge (n : nat) (W : ndarray) (i j : nat) : Prop :=
  (i < n)%nat /\ (j < n)%nat /\ (0 < W[@i, j] \/ 0 < W[@j, i]).

Definition connected_to (n : nat) (W : ndarray) : nat -> nat -> Prop :=
  clos_refl_trans nat (edge n W).

(** [c] is a connected component: a class of mutually reachable nodes. *)
Definition is_component (n : nat) (W : ndarray) (c : list nat) : Prop :=
  NoDup c /\
  exists v, (v < n)%nat /\
    forall j, In j c <-> ((j < n)%nat /\ connected_to n W v j).

(** The graph on [n] nodes is connected. *)
Definition graph_connected (n : nat) (W : ndarray) : Prop :=
  forall i j, (i < n)%nat -> (j < n)%nat -> connected_to n W i j.

(* ================================================================== *)
(** ** Lengths from weights *)
(* ================================================================== *)

(** [1.0 / w] under [np.errstate(divide='ignore')]. *)
Definition true_divide_one (w : Q) : float :=
  if Qeq_bool w 0 then PInf else Fin (1 / w).

(** [np.where(cond, X, y)] with a scalar [y]. *)
Definition np_where_else {A : Type} (cond : boolarray) (X : list (list A)) (y : A)
  : list (list A) :=
  map (fun cx : list bool * list A =>
         map (fun c_x : bool * A => if fst c_x then snd c_x else y)
             (combine (fst cx) (snd cx)))
      (combine cond X).

(* ================================================================== *)
(** ** Strings: case, splitting, the file-name pattern *)
(* ================================================================== *)

(** [str.upper] and [str.lower] on one character of an ASCII name. *)
Definition upper_char (c : ascii) : ascii :=
  let n := nat_of_ascii c in
  if ((97 <=? n) && (n <=? 122))%nat then ascii_of_nat (n - 32) else c.

Definition lower_char (c : ascii) : ascii :=
  let n := nat_of_ascii c in
  if ((65 <=? n) && (n <=? 90))%nat then ascii_of_nat (n + 32) else c.

Fixpoint str_map (f : ascii -> ascii) (s : String.string) : String.string :=
  match s with
  | String.EmptyString => String.EmptyString
  | String.String c s' => String.String (f c) (str_map f s')
  end.

Definition str_upper := str_map upper_char.
Definition str_lower := str_map lower_char.

(** The text before the first [sep] and, when there is one, the text after. *)
Fixpoint cut (sep : ascii) (s : String.string)
  : String.string * option String.string :=
  match s with
  | String.EmptyString => (String.EmptyString, None)
  | String.String c s' =>
      if Ascii.eqb c sep then (String.EmptyString, Some s')
      else let r := cut sep s' in (String.String c (fst r), snd r)
  end.

(** [s.split(sep, 1)] *)
Definition split_once (sep : ascii) (s : String.string) : list String.string :=
  match cut sep s with
  | (a, None) => [a]
  | (a, Some b) => [a; b]
  end.

(** [s.endswith(suffix)] *)
Definition endswith (s suffix : String.string) : bool :=
  let n := String.length s in
  let k := String.length suffix in
  (k <=? n)%nat && String.eqb (String.substring (n - k) k s) suffix.

(** Equality of two texts under [re.IGNORECASE]. *)
Definition ci_eqb (a b : String.string) : bool :=
  String.eqb (str_lower a) (str_lower b).

(** The alternative [(ACT|TREKKER)\.csv$] at the end of the pattern: [$]
    matches at the end of the name and before a final newline. *)
Definition match_method (rest : String.string) : option String.string :=
  let try_name (name : String.string) : option String.string :=
    let k := String.length name in
    let g := String.substring 0 k rest in
    let ext := String.substring k (String.length rest - k) rest in
    if ci_eqb g name
       && (ci_eqb ext ".csv"%string
           || ci_eqb ext (String.append ".csv"%string
                            (String.String "010"%char String.EmptyString)))
    then Some g else None in
  match try_name "ACT"%string with
  | Some g => Some g
  | None => try_name "TREKKER"%string
  end.

(** [FILE_RE.match(fname)] for
    [^(INsIDER_[^_]+)_(ACT|TREKKER)\.csv$] with [re.IGNORECASE]: the two
    groups of a matching name. *)
Definition FILE_RE_match (fname : String.string)
  : option (String.string * String.string) :=
  let head := String.substring 0 8 fname in
  let tail := String.substring 8 (String.length fname - 8) fname in
  if ci_eqb head "INsIDER_"%string then
    match cut "_"%char tail with
    | (String.EmptyString, _) => None
    | (_, None) => None
    | (id, Some rest) =>
        match match_method rest with
        | Some g => Some (String.append head id, g)
        | None => None
        end
    end
  else None.

Module Metadata.
(** global_efficiency.py and characteristic_path_lengh.py, [infer_group]:
    the returns sit inside the [try], the [except] clause passes. *)
Definition infer_group (subj : String.string) : option String.string :=
  match
    (after <- nth_error (split_once "_"%char subj) 1 ;;
     c <- String.get 0 after ;;
     let tag := upper_char c in
     if Ascii.eqb tag "C"%char then Some (Some "control"%string)
     else if Ascii.eqb tag "P"%char then Some (Some "patient"%string)
     else Some None)
  with
  | Some r => r
  | None => None
  end.

(** modularity.py, node_strength.py and clustering_coefficient.py,
    [infer_group]: one conditional expression, [except] returns [None]. *)
Definition infer_group' (subj : String.string) : option String.string :=
  try_except
    (after <- nth_error (split_once "_"%char subj) 1 ;;
     c <- String.get 0 after ;;
     let ch := upper_char c in
     Some (if Ascii.eqb ch "C"%char then Some "control"%string
           else if Ascii.eqb ch "P"%char then Some "patient"%string
           else None))
    None.
End Metadata.

(** Stable insertion sort, for Python's [sorted] and pandas' [sort_values]. *)
Section SortBy.
Context {A : Type}.
Variable leb : A -> A -> bool.

Fixpoint insert_by (x : A) (l : list A) : list A :=
  match l with
  | [] => [x]
  | y :: l' => if leb x y then x :: l else y :: insert_by x l'
  end.

Definition sort_by (l : list A) : list A :=
  fold_right insert_by [] l.
End SortBy.

(** The order of [sort_values(["method", "group", "subject"])]: missing
    groups come last. *)
Definition group_leb (g1 g2 : option String.string) : bool :=
  match g1, g2 with
  | Some a, Some b => String.leb a b
  | _, None => true
  | None, Some _ => false
  end.

Definition group_eqb (g1 g2 : option String.string) : bool :=
  match g1, g2 with
  | Some a, Some b => String.eqb a b
  | None, None => true
  | _, _ => false
  end.

Definition key : Type := String.string * String.string * option String.string.

Definition key_subject (k : key) := fst (fst k).
Definition key_method (k : key) := snd (fst k).
Definition key_group (k : key) := snd k.

Definition key_eqb (k1 k2 : key) : bool :=
  String.eqb (key_subject k1) (key_subject k2)
  && String.eqb (key_method k1) (key_method k2)
  && group_eqb (key_group k1) (key_group k2).

Definition sort_key_leb (k1 k2 : key) : bool :=
  if negb (String.eqb (key_method k1) (key_method k2))
  then String.leb (key_method k1) (key_method k2)
  else if negb (group_eqb (key_group k1) (key_group k2))
  then group_leb (key_group k1) (key_group k2)
  else String.leb (key_subject k1) (key_subject k2).

(* ================================================================== *)
(** ** The batch drivers *)
(* ================================================================== *)

(** A row of the output table, as the dict appended to [rows]; [file] is
    absent from the rows of global_efficiency.py. *)
Record row : Type := {
  subject : String.string;
  method : String.string;
  group : option String.string;
  metric : float;
  n_nodes : nat;
  density : Q;
  file : option String.string
}.

Definition row_key (r : row) : key := (subject r, method r, group r).

(** [pd.DataFrame(rows).sort_values(["method", "group", "subject"])]: a
    frame built from no row has no column, and sorting it on a column raises
    [KeyError]. *)
Definition sort_values (rows : list row) : option (list row) :=
  match rows with
  | [] => None
  | _ => Some (sort_by (fun r1 r2 => sort_key_leb (row_key r1) (row_key r2)) rows)
  end.

Module GlobalEfficiencyScript.
Section Script.
(** [os.listdir(BASE)] *)
Variable listdir : list String.string.
(** [pd.read_csv(os.path.join(BASE, fname), header=None).values], which
    raises on a file that cannot be parsed. *)
Variable read_csv : String.string -> option ndarray.
(** [bct.efficiency_wei], which may raise. *)
Variable efficiency_wei : farray -> option float.

Definition files : list String.string :=
  sort_by String.leb
    (filter (fun f => endswith (str_lower f) ".csv"%string) listdir).

(** The body of [for idx, fname in enumerate(files, start=1)]. *)
Definition loop_body (rows : list row) (fname : String.string)
  : option (list row) :=
  match FILE_RE_match fname with
  | None => Some rows
  | Some (g1, g2) =>
      let subj := g1 in
      let method := str_upper g2 in
      let group := Metadata.infer_group subj in
      csv <- read_csv fname ;;
      W <- GlobalEfficiency.load_and_clean_matrix csv ;;
      let Eglob := try_except (efficiency_wei W) NaN in
      let n := shape0 W in
      let density :=
        if (1 <? n)%nat
        then (inject_Z (Z.of_nat (count_triu_positive32 W)) * 2)
             / inject_Z (Z.of_nat n * (Z.of_nat n - 1))
        else 0 in
      Some (rows ++ [ {| subject := subj; method := method; group := group;
                         metric := Eglob; n_nodes := n; density := density;
                         file := None |} ])
  end.

Definition loop : option (list row) :=
  fold_left (fun acc fname => rows <- acc ;; loop_body rows fname)
            files (Some []).

Definition main : option (list row) :=
  rows <- loop ;; sort_values rows.
End Script.
End GlobalEfficiencyScript.

Module CharPathScript.
(** [PROPORTIONAL_THRESHOLD = None] *)
Definition PROPORTIONAL_THRESHOLD : option Q := None.

(** [L = np.where(W > 0, 1.0 / W, np.inf)] *)
Definition length_matrix (W : ndarray) : list (list float) :=
  np_where_else (map (map (fun w => Qltb 0 w)) W)
                (map (map true_divide_one) W)
                PInf.

(** [1.0 / w] on a float32 cell, under [np.errstate(divide='ignore',
    invalid='ignore')]: the inverse of an infinity is zero. *)
Definition true_divide_one32 (w : float) : float :=
  match w with
  | Fin q => true_divide_one q
  | PInf | NInf => Fin 0
  | NaN => NaN
  end.

(** [L = np.where(W > 0, 1.0 / W, np.inf)] on the float32 array that the
    loader returns; on an array of finite entries it is [length_matrix]. *)
Definition length_matrix32 (W : farray) : list (list float) :=
  np_where_else (map (map f_gt0) W)
                (map (map true_divide_one32) W)
                PInf.

(** [matrix_density] *)
Definition matrix_density (W : farray) : Q :=
  let n := shape0 W in
  if (n <? 2)%nat then 0
  else
    let e := count_triu_positive32 W in
    (2 * inject_Z (Z.of_nat e)) / inject_Z (Z.of_nat n * (Z.of_nat n - 1)).

Section Script.
Variable listdir : list String.string.
Variable read_csv : String.string -> option ndarray.
(** [bct.threshold_proportional], [bct.distance_wei] (its first result)
    and [bct.charpath] (its first result); each may raise. *)
Variable bct_threshold_proportional : farray -> Q -> option farray.
Variable distance_wei : list (list float) -> option (list (list float)).
Variable charpath : list (list float) -> option float.

Definition maybe_threshold (W : farray) (p : option Q) : option farray :=
  match p with
  | None => Some W
  | Some p => bct_threshold_proportional W p
  end.


(** [characteristic_path_length_weighted] on the float32 array that the
    loader returns. *)
Definition characteristic_path_length_weighted32 (W : farray) : option float :=
  let L := length_matrix32 W in
  D <- distance_wei L ;;
  lam <- charpath D ;;
  Some lam.

Definition files : list String.string :=
  sort_by String.leb
    (filter (fun f => endswith (str_lower f) ".csv"%string) listdir).

Definition targets : list String.string :=
  filter (fun f => match FILE_RE_match f with Some _ => true | None => false end)
         files.

(** The body of [for idx, fname in enumerate(targets, start=1)];
    [m.group(1)] on a name that does not match raises. *)
Definition loop_body (rows : list row) (fname : String.string)
  : option (list row) :=
  m <- FILE_RE_match fname ;;
  let subj := fst m in
  let method := str_upper (snd m) in
  let group := Metadata.infer_group subj in
  csv <- read_csv fname ;;
  W <- CharPath.load_and_clean_W csv ;;
  W <- match PROPORTIONAL_THRESHOLD with
       | Some _ => maybe_threshold W PROPORTIONAL_THRESHOLD
       | None => Some W
       end ;;
  let n := shape0 W in
  let dens := matrix_density W in
  let cpl := try_except (characteristic_path_length_weighted32 W) NaN in
  Some (rows ++ [ {| subject := subj; method := method; group := group;
                     metric := cpl; n_nodes := n; density := dens;
                     file := Some fname |} ]).

Definition loop : option (list row) :=
  fold_left (fun acc fname => rows <- acc ;; loop_body rows fname)
            targets (Some []).

Definition main : option (list row) :=
  rows <- loop ;; sort_values rows.
End Script.
End CharPathScript.

(* ================================================================== *)
(** ** The aggregation layer *)
(* ================================================================== *)

(** A cell of a data frame: a number or a text; a missing value is NaN. *)
Inductive cell : Type :=
| Num (x : float)
| Str (s : String.string).

(** A frame keyed by (subject, method, group): the names of its other
    columns and, per row, the key and the cells of those columns. *)
Record frame : Type := {
  columns : list String.string;
  rows : list (key * list cell)
}.

Definition has_key (k : key) (rs : list (key * list cell)) : bool :=
  existsb (fun r => key_eqb k (fst r)) rs.

Definition count_key (k : key) (rs : list (key * list cell)) : nat :=
  length (filter (fun r => key_eqb k (fst r)) rs).

Definition nan_cells (width : nat) : list cell := repeat (Num NaN) width.

(** [left.merge(right, on=["subject", "method", "group"], how="outer")]:
    every pair of rows with the same key, the rows of one side without a
    partner filled with NaN on the other side, ordered by key. *)
Definition merge_outer (L R : frame) : frame :=
  let matched :=
    flat_map (fun l =>
                match filter (fun r => key_eqb (fst l) (fst r)) (rows R) with
                | [] => [(fst l, snd l ++ nan_cells (length (columns R)))]
                | rs => map (fun r => (fst l, snd l ++ snd r)) rs
                end) (rows L) in
  let right_only :=
    map (fun r => (fst r, nan_cells (length (columns L)) ++ snd r))
        (filter (fun r => negb (has_key (fst r) (rows L))) (rows R)) in
  {| columns := columns L ++ columns R;
     rows := sort_by (fun r1 r2 => sort_key_leb (fst r1) (fst r2))
                     (matched ++ right_only) |}.

(** [df.replace([np.inf, -np.inf], np.nan)] *)
Definition replace_inf_cell (c : cell) : cell :=
  match c with
  | Num PInf => Num NaN
  | Num NInf => Num NaN
  | _ => c
  end.

Definition replace_inf (df : frame) : frame :=
  {| columns := columns df;
     rows := map (fun r => (fst r, map replace_inf_cell (snd r))) (rows df) |}.

Definition is_inf (c : cell) : bool :=
  match c with
  | Num PInf => true
  | Num NInf => true
  | _ => false
  end.

Module AnalyzeMetrics.
(** analyze_metrics.py: the master table of the three metric tables. *)
Definition master (ge cpl mod_ : frame) : frame :=
  let df := merge_outer ge cpl in
  let df := merge_outer df mod_ in
  replace_inf df.
End AnalyzeMetrics.

Module AnalyzeClusteringStrength.
(** analyze_clustering_strength.py: the master table of the two tables. *)
Definition master (clu strn : frame) : frame :=
  let df := merge_outer clu strn in
  replace_inf df.
End AnalyzeClusteringStrength.

(** A frame whose rows all have one cell per column. *)
Definition well_formed (df : frame) : Prop :=
  Forall (fun r => length (snd r) = length (columns df)) (rows df).

Module NodeStrength.
(** node_strength.py, [maybe_normalize] *)
Definition maybe_normalize (W : ndarray) (enable : bool) : option ndarray :=
  if negb enable then Some W
  else
    m <- np_max W ;;
    Some (if Qltb 0 m then np_div W m else W).
End NodeStrength.

Module Clustering.
(** clustering_coefficient.py, [maybe_normalize] *)
Definition maybe_normalize (W : ndarray) (enable : bool) : option ndarray :=
  if negb enable then Some W
  else
    m <- np_max W ;;
    Some (if Qltb 0 m then np_div W m else W).
End Clustering.

(** Equality of two results that may be exceptions. *)
Definition opt_mat_eq (a b : option ndarray) : Prop :=
  match a, b with
  | Some X, Some Y => mat_eq X Y
  | None, None => True
  | _, _ => False
  end.

(** [c] occurs in [s]. *)
Fixpoint str_contains (c : ascii) (s : String.string) : bool :=
  match s with
  | String.EmptyString => false
  | String.String c' s' => Ascii.eqb c' c || str_contains c s'
  end.

(** The cell of a loaded matrix, in closed form. *)
Definition cleaned_cell (csv : ndarray) (i j : nat) : Q :=
  let s := if Nat.eqb i j then 0 else (1 # 2) * (csv[@i, j] + csv[@j, i]) in
  if Qltb s 0 then 0 else s.

(** The cell of a matrix loaded in float32, in closed form. *)
Definition cleaned_cell32 (csv : ndarray) (i j : nat) : float :=
  if Nat.eqb i j then Fin 0
  else
    let x := f32_half (f32_add (np_float32 csv[@i, j]) (np_float32 csv[@j, i])) in
    if f_lt0 x then Fin 0 else x.

(** What the last two steps of a float32 loader make of the sum [x] of an
    entry and its mirror image: [0.5 * x], clamped at zero. *)
Definition half_clamped32 (x : float) : float :=
  let y := f32_half x in
  if f_lt0 y then Fin 0 else y.

(** [x == y] on floats: NaN equals nothing, not even itself. *)
Definition f_eq (x y : float) : Prop :=
  match x, y with
  | Fin a, Fin b => a == b
  | PInf, PInf | NInf, NInf => True
  | _, _ => False
  end.

(** [x >= 0] on floats *)
Definition f_nonneg (x : float) : Prop :=
  match x with
  | Fin a => 0 <= a
  | PInf => True
  | NInf | NaN => False
  end.

(** A clean weight matrix of floats: square, symmetric, zero on the
    diagonal and without a negative entry (or a NaN). *)
Definition cleaned32 (n : nat) (W : farray) : Prop :=
  square n W /\
  (forall i j, (i < n)%nat -> (j < n)%nat ->
               f_eq (mget NaN W i j) (mget NaN W j i)) /\
  (forall i, (i < n)%nat -> f_eq (mget NaN W i i) (Fin 0)) /\
  (forall i j, (i < n)%nat -> (j < n)%nat -> f_nonneg (mget NaN W i j)).

(** Every entry of the file is of a magnitude that float32 holds. *)
Definition in_float32_range (csv : ndarray) : Prop :=
  Forall (Forall (fun x => - FLT_OVERFLOW < x /\ x < FLT_OVERFLOW)) csv.

(** [fname] matches the file-name pattern. *)
Definition matches (fname : String.string) : bool :=
  match FILE_RE_match fname with
  | Some _ => true
  | None => false
  end.

(** The row recorded for the matching file [fname]: its metadata, and as
    metric the value the routine returned, or NaN when it raised. *)
Definition recorded (read_csv : String.string -> option ndarray)
           (load : ndarray -> option farray) (metric_fn : farray -> option float)
           (fname : String.string) (r : row) : Prop :=
  exists g1 g2 csv W,
    FILE_RE_match fname = Some (g1, g2) /\
    read_csv fname = Some csv /\
    load csv = Some W /\
    subject r = g1 /\
    method r = str_upper g2 /\
    group r = Metadata.infer_group g1 /\
    n_nodes r = shape0 W /\
    (metric_fn W = None -> metric r = NaN) /\
    (forall x, metric_fn W = Some x -> metric r = x).

(** The loader accepts the file [fname]: it is read, and the shapes of the
    array and of its transpose broadcast. *)
Definition loads (read_csv : String.string -> option ndarray)
           (load : ndarray -> option farray) (fname : String.string) : Prop :=
  exists csv W, read_csv fname = Some csv /\ load csv = Some W.

(** The rational array [W] as a float array. *)
Definition finite (W : ndarray) : farray := map (map Fin) W.

(** The number of rows a key contributes to a join: a table without the key
    counts as one (NaN-filled) partner. *)
Definition mult (c : nat) : nat := Nat.max 1 c.

(** The cells a table contributes to a joined row of key [k]: those of one
    of its rows of that key, or NaN in all of its columns when it has no
    such row. *)
Definition side (t : frame) (k : key) (cells : list cell) : Prop :=
  if has_key k (rows t)
  then In (k, cells) (rows t)
  else cells = nan_cells (length (columns t)).

(** The same in a master table, where infinities have been replaced. *)
Definition contributes (t : frame) (k : key) (cells : list cell) : Prop :=
  exists c0, side t k c0 /\ cells = map replace_inf_cell c0.

(** *** Vocabulary for the sparsifier *)

(** The weight at an index pair. *)
Definition weight_at (W : ndarray) (p : nat * nat) : Q := W[@fst p, snd p].

(** The pairs above the diagonal that carry a strictly positive weight: the
    undirected edges available in [W]. *)
Definition positive_pairs (W : ndarray) : list (nat * nat) :=
  filter (fun p => Qltb 0 (weight_at W p)) (triu_indices (shape0 W)).

(** [n * (n - 1) // 2] *)
Definition total_possible (n : nat) : Z :=
  (Z.of_nat n * (Z.of_nat n - 1) / 2)%Z.

(** The density of the available edges, as the function computes it. *)
Definition available_density (W : ndarray) : Q :=
  (inject_Z (Z.of_nat (length (positive_pairs W))) * 2)
  / inject_Z (Z.of_nat (shape0 W) * (Z.of_nat (shape0 W) - 1)).

(** The number of top weights the function asks for, [k_edges], with the
    product taken exactly. *)
Definition edge_budget (W : ndarray) (target : Q) : Z :=
  Z.max 1
    (Z.min (Qfloor (py_min target (available_density W)
                    * inject_Z (total_possible (shape0 W))))
           (Z.of_nat (length (positive_pairs W)))).

(** The pairs kept by the threshold [kth]. *)
Definition kept_pairs (W : ndarray) (kth : Q) : list (nat * nat) :=
  filter (fun p => Qleb kth (weight_at W p)) (positive_pairs W).

(** The mask built from the kept pairs: set, mirrored, diagonal cleared. *)
Definition top_mask (n : nat) (kept : list (nat * nat)) : boolarray :=
  fill_diagonal false
    (or_transpose (set_true_at (minit n (fun _ _ => false)) kept)) false.

(** The last three statements of the sparsifiers: mask, mirror, clear the
    diagonal. *)
Definition symmetrize_masked (M : boolarray) (W : ndarray) : ndarray :=
  let U := np_where M W in
  let U := np_maximum U (transpose U) in
  fill_diagonal 0 U 0.

(** No two available edges have the same weight. *)
Definition distinct_positive_weights (W : ndarray) : Prop :=
  forall p q, In p (positive_pairs W) -> In q (positive_pairs W) ->
              weight_at W p == weight_at W q -> p = q.

(** The neighbours of node [i] over strictly positive weights, as the k-NN
    loop finds them ([nz]). *)
Definition positive_neighbors (W : ndarray) (i : nat) : list nat :=
  let wi := list_set (nth i W []) i 0 in
  filter (fun j => Qltb 0 (nth j wi 0)) (seq 0 (length wi)).

(** A selection of the k-NN loop for node [i] ([topk]), with equal weights
    ordered as [np_argpartition] above orders them. *)
Definition top_neighbors (W : ndarray) (knn_k : Z) (i : nat) : list nat :=
  let wi := list_set (nth i W []) i 0 in
  let nz := positive_neighbors W i in
  let k := Z.min knn_k (Z.of_nat (length nz)) in
  let vals := map (fun j => nth j wi 0) nz in
  let order := map fst (IdxSort.sort (combine (seq 0 (length vals)) vals)) in
  map (fun a => nth a nz O) (py_slice_from order (- k)).

(** The number of strictly positive entries in row [i]. *)
Definition positive_degree (n : nat) (U : ndarray) (i : nat) : nat :=
  length (filter (fun j => Qltb 0 U[@i, j]) (seq 0 n)).

(** What the round of the k-NN loop for node [i] adds to the mask at
    cell [(a, b)]. *)
Definition knn_marks (W : ndarray) (knn_k : Z) (i a b : nat) : bool :=
  (Nat.eqb a i && mem b (top_neighbors W knn_k i))
  || (mem a (top_neighbors W knn_k i) && Nat.eqb b i).

(** The invariant of the preprocessing steps: an [n] by [n] symmetric matrix
    with a zero diagonal. *)
Definition invariant (n : nat) (U : ndarray) : Prop :=
  square n U /\ symmetric n U /\ zero_diagonal n U.

(** A decision procedure for [cleaned]. *)
Definition cleanedb (n : nat) (W : ndarray) : bool :=
  Nat.eqb (length W) n
  && forallb (fun r => Nat.eqb (length r) n) W
  && forallb (fun i =>
                Qeq_bool W[@i, i] 0
                && forallb (fun j => Qeq_bool W[@i, j] W[@j, i]
                                     && Qle_bool 0 W[@i, j]) (seq 0 n))
             (seq 0 n).

(** Small matrices on which the statements below are run. *)
Definition W_four : ndarray :=
  [[0; 5; 1; 2]; [5; 0; 3; 0]; [1; 3; 0; 4]; [2; 0; 4; 0]].

Definition W_one_edge : ndarray := [[0; 1; 0]; [1; 0; 0]; [0; 0; 0]].

Definition W_pair : ndarray := [[0; 1]; [1; 0]].

Definition W_tied : ndarray := [[0; 1; 1]; [1; 0; 1]; [1; 1; 0]].

Definition W_no_edge : ndarray := [[0; 0]; [0; 0]].

Definition W_two_parts : ndarray :=
  [[0; 5; 0; 0; 0]; [5; 0; 0; 0; 0]; [0; 0; 0; 4; 1]; [0; 0; 4; 0; 0];
   [0; 0; 1; 0; 0]].

(** The graph that [largest_component_submatrix] builds from [W]. *)
Definition graph_of (W : ndarray) : graph :=
  from_numpy_array (map (map (fun w => Qltb 0 w)) W).

(** A set of nodes that no edge leaves. *)
Definition closed_under_edges (n : nat) (W : ndarray) (S : list nat) : Prop :=
  forall i j, In i S -> edge n W i j -> In j S.

(** A list of distinct nodes of the graph. *)
Definition node_set (n : nat) (S : list nat) : Prop :=
  NoDup S /\ forall x, In x S -> (x < n)%nat.

(** What the claim on [largest_component_submatrix] asks of its result
    [(Wg, idx)]: [idx] is a connected component of greatest size, [Wg] is
    [W] restricted to [idx], and the graph of [Wg] is connected. *)
Definition giant_component (n : nat) (W Wg : ndarray) (idx : list nat) : Prop :=
  is_component n W idx /\
  (forall c, is_component n W c -> (length c <= length idx)%nat) /\
  square (length idx) Wg /\
  (forall a b, (a < length idx)%nat -> (b < length idx)%nat ->
               Wg[@a, b] = W[@nth a idx O, nth b idx O]) /\
  graph_connected (length idx) Wg.

(** [U] keeps some of the weights of [W] and sets the others to zero. *)
Definition keeps_weights_of (n : nat) (W U : ndarray) : Prop :=
  forall i j, (i < n)%nat -> (j < n)%nat -> U[@i, j] == 0 \/ U[@i, j] == W[@i, j].

(** Every entry of [W] lies in the unit interval. *)
Definition unit_weights (n : nat) (W : ndarray) : Prop :=
  forall i j, (i < n)%nat -> (j < n)%nat -> 0 <= W[@i, j] /\ W[@i, j] <= 1.

(* ================================================================== *)
(** ** modularity.py: the Louvain wrapper and the per-file pipeline *)
(* ================================================================== *)

(** A weighted [nx.Graph]: its number of nodes and its edges [(u, v, w)];
    the edges added below are distinct pairs, so [G.number_of_edges()] is
    the length of the list. *)
Record wgraph : Type := {
  wg_nodes : nat;
  wg_edges : list (nat * nat * Q)
}.

(** A row of the table of modularity.py. *)
Record modularity_row : Type := {
  mr_subject : String.string;
  mr_method : String.string;
  mr_group : option String.string;
  mr_modularity_Q : float;
  mr_n_communities : nat;
  mr_n_nodes : nat;
  mr_density : Q;
  mr_file : String.string;
  mr_algorithm : String.string;
  mr_used_density : Q;
  mr_available_density : Q
}.

Module ModularityScript.
Definition TARGET_DENSITY : Q := 8 # 100.
Definition KNN_K : Z := 3%Z.
Definition CONNECTIVITY_MODE : String.string := "giant"%string.
Definition GAMMA : Q := 1.
Definition FORCE_LOUVAIN_ONLY : bool := true.

Section Script.
Variable listdir : list String.string.
Variable read_csv : String.string -> option ndarray.
(** [community_louvain.best_partition(G, weight, resolution)]: the community
    of every node; [community_louvain.modularity(part, G, weight)]; and
    [bct.modularity_und(W, gamma)]. Each may raise. *)
Variable best_partition : wgraph -> Q -> option (list (nat * nat)).
Variable louvain_modularity : list (nat * nat) -> wgraph -> option float.
Variable bct_modularity_und : ndarray -> Q -> option (list nat * float).

(** [modularity_bct] *)
Definition modularity_bct (W : ndarray) (gamma : Q)
  : option (float * nat * String.string) :=
  r <- bct_modularity_und W gamma ;;
  let Ci := fst r in
  let Q := snd r in
  Some (Q, length (nodup Nat.eq_dec Ci), "BCT"%string).

(** [modularity_louvain] *)
Definition modularity_louvain (W : ndarray) (gamma : Q)
  : option (float * nat * String.string) :=
  let n := shape0 W in
  let rc := triu_indices n in
  let weights := map (fun p => W[@fst p, snd p]) rc in
  let nz := map (fun w => Qltb 0 w) weights in
  let G := {| wg_nodes := n; wg_edges := [] |} in
  let G :=
    if existsb (fun b => b) nz
    then
      let edges :=
        map (fun pw : (nat * nat) * Q => (fst (fst pw), snd (fst pw), snd pw))
            (combine (mask_select nz rc) (mask_select nz weights)) in
      {| wg_nodes := wg_nodes G; wg_edges := wg_edges G ++ edges |}
    else G in
  if (length (wg_edges G) =? 0)%nat then Some (NaN, 0%nat, "LOUVAIN"%string)
  else
    part <- best_partition G gamma ;;
    Q <- louvain_modularity part G ;;
    let n_comms := length (nodup Nat.eq_dec (map snd part)) in
    Some (Q, n_comms, "LOUVAIN"%string).

Definition files : list String.string :=
  sort_by String.leb (filter matches listdir).

(** The body of the main loop from [W = load_W_csv(fpath)] to
    [W = W_gcc]: the matrix handed to the modularity routine, with the used
    and the available density. *)
Definition prepare (csv : ndarray) : option (ndarray * Q * Q) :=
  let W := Modularity.load_W_csv csv in
  W <- Modularity.maybe_normalize W true ;;
  r <- Sparsify.threshold_to_target_density W TARGET_DENSITY KNN_K ;;
  let W := fst (fst r) in
  let target_used := snd (fst r) in
  let avail := snd r in
  let W :=
    if String.eqb (str_lower CONNECTIVITY_MODE) "giant"%string
    then fst (Components.largest_component_submatrix W)
    else W in
  Some (W, target_used, avail).

(** The body of [for i, fname in enumerate(files, 1)]. *)
Definition loop_body (rows : list modularity_row) (fname : String.string)
  : option (list modularity_row) :=
  m <- FILE_RE_match fname ;;
  let subj := fst m in
  let method := str_upper (snd m) in
  let group := Metadata.infer_group' subj in
  csv <- read_csv fname ;;
  p <- prepare csv ;;
  let W := fst (fst p) in
  let target_used := snd (fst p) in
  let avail := snd p in
  let n := shape0 W in
  let dens := Sparsify.density W in
  r <- (if FORCE_LOUVAIN_ONLY then modularity_louvain W GAMMA
        else match modularity_bct W GAMMA with
             | Some r => Some r
             | None => modularity_louvain W GAMMA
             end) ;;
  Some (rows ++ [ {| mr_subject := subj; mr_method := method; mr_group := group;
                     mr_modularity_Q := fst (fst r);
                     mr_n_communities := snd (fst r);
                     mr_n_nodes := n; mr_density := dens; mr_file := fname;
                     mr_algorithm := snd r; mr_used_density := target_used;
                     mr_available_density := avail |} ]).

Definition loop : option (list modularity_row) :=
  fold_left (fun acc fname => rows <- acc ;; loop_body rows fname)
            files (Some []).
End Script.
End ModularityScript.

(* ================================================================== *)
(** ** node_strength.py: the strengths of one file *)
(* ================================================================== *)




Module NodeStrengthScript.
Definition PROPORTIONAL_THRESHOLD : option Q := None.
Definition NORMALIZE_WEIGHTS : bool := true.

(** node_strength.py, [load_W] *)
Definition load_W (csv : ndarray) : ndarray :=
  let W := csv in
  let W := np_scale (1 # 2) (np_add W (transpose W)) in
  let W := fill_diagonal 0 W 0 in
  let W := clamp_negatives W in
  W.

End NodeStrengthScript.


(* ================================================================== *)
(** ** load_csv.py: flattening a matrix and merging the subjects *)
(* ================================================================== *)

(** [np.triu_indices(n, k)] for [k >= 0]: the pairs [(i, j)] with
    [i + k <= j < n], row by row. *)
Definition np_triu_indices (n k : nat) : list (nat * nat) :=
  flat_map (fun i => map (fun j => (i, j)) (seq (i + k) (n - (i + k))))
           (seq 0 n).

(** [mat[r, c]] with two index arrays of one length: the cells
    [mat[r[t], c[t]]]; an index out of range raises. *)
Fixpoint fancy_index (mat : ndarray) (r c : list nat) : option (list Q) :=
  match r, c with
  | i :: r', j :: c' =>
      row <- nth_error mat i ;;
      v <- nth_error row j ;;
      vs <- fancy_index mat r' c' ;;
      Some (v :: vs)
  | _, _ => Some []
  end.

(** [W.shape[1]] of a rectangular array. *)
Definition shape1 (W : ndarray) : nat := length (nth 0 W []).

(** The values the script stores in a dictionary. *)
Inductive pyval : Type :=
| PyStr (s : String.string)
| PyNone
| PyInt (n : nat)
| PyFloat (q : Q).

(** A Python [dict] with text keys, in insertion order; [d[k] = v] replaces
    the value of a key that is present and appends a new key. *)
Definition dict : Type := list (String.string * pyval).

Fixpoint dict_set (d : dict) (k : String.string) (v : pyval) : dict :=
  match d with
  | [] => [(k, v)]
  | (k', v') :: d' =>
      if String.eqb k' k then (k', v) :: d' else (k', v') :: dict_set d' k v
  end.

Fixpoint dict_get (d : dict) (k : String.string) : option pyval :=
  match d with
  | [] => None
  | (k', v') :: d' => if String.eqb k' k then Some v' else dict_get d' k
  end.

(** [str(n)] of a non-negative [int]: its decimal digits. *)
Definition str_of_nat (n : nat) : String.string :=
  DecimalString.NilEmpty.string_of_uint (Nat.to_uint n).

(** A row of the long table. *)
Record long_row : Type := {
  lr_subject : String.string;
  lr_method : String.string;
  lr_edge_row : nat;
  lr_edge_col : nat;
  lr_weight : Q;
  lr_group : option String.string
}.

Module LoadCsv.
Definition use_upper_triangle_only : bool := true.
Definition include_diagonal : bool := false.

(** load_csv.py, [flatten_matrix], on [df.values] *)
Definition flatten_matrix (mat : ndarray) (upper_only keep_diag : bool)
  : option (list Q * list nat * list nat) :=
  let n := shape0 mat in
  if upper_only then
    let k := if keep_diag then 0%nat else 1%nat in
    let rc := np_triu_indices n k in
    let r := map fst rc in
    let c := map snd rc in
    vals <- fancy_index mat r c ;;
    Some (vals, r, c)
  else
    let m := shape1 mat in
    let r := flat_map (fun i => repeat i m) (seq 0 n) in
    let c := flat_map (fun _ => seq 0 m) (seq 0 n) in
    Some (concat mat, r, c).

(** The column name [f"e_{int(r)}_{int(c)}"]. *)
Definition edge_column (r c : nat) : String.string :=
  String.append "e_"%string
    (String.append (str_of_nat r)
       (String.append "_"%string (str_of_nat c))).

Definition py_group (group : option String.string) : pyval :=
  match group with
  | Some g => PyStr g
  | None => PyNone
  end.

(** load_csv.py, [append_subject]: the two global lists are passed in and
    returned. *)
Definition append_subject (long_rows : list long_row) (wide_rows : list dict)
           (subj method : String.string) (df : ndarray)
           (group : option String.string)
  : option (list long_row * list dict) :=
  f <- flatten_matrix df use_upper_triangle_only include_diagonal ;;
  let vals := fst (fst f) in
  let r_idx := snd (fst f) in
  let c_idx := snd f in
  let zipped := combine (combine vals r_idx) c_idx in
  let long_rows :=
    fold_left
      (fun rows vrc =>
         rows ++ [ {| lr_subject := subj; lr_method := method;
                      lr_edge_row := snd (fst vrc); lr_edge_col := snd vrc;
                      lr_weight := fst (fst vrc); lr_group := group |} ])
      zipped long_rows in
  let wide_entry : dict :=
    [("subject"%string, PyStr subj); ("method"%string, PyStr method);
     ("group"%string, py_group group)] in
  let wide_entry :=
    fold_left
      (fun d vrc => dict_set d (edge_column (snd (fst vrc)) (snd vrc))
                             (PyFloat (fst (fst vrc))))
      zipped wide_entry in
  Some (long_rows, wide_rows ++ [wide_entry]).
End LoadCsv.

(* ================================================================== *)
(** ** inspect_connectome.py: the tokens of a line, the shape of a file *)
(* ================================================================== *)

(** A line of text is a list of one-byte characters. *)
Definition text : Type := list ascii.

(** [c.isspace()], which is also the class [\s] of a text pattern: the
    code points 9 to 13, 28 to 32, 133 and 160. *)
Definition is_space (c : ascii) : bool :=
  let n := nat_of_ascii c in
  ((9 <=? n) && (n <=? 13) || (28 <=? n) && (n <=? 32)
   || (n =? 133) || (n =? 160))%nat.

Fixpoint dropwhile (p : ascii -> bool) (s : text) : text :=
  match s with
  | [] => []
  | c :: s' => if p c then dropwhile p s' else s
  end.

(** [s.strip()] and [s.strip(chars)]: [p] tells the characters to remove
    from both ends. *)
Definition py_strip (p : ascii -> bool) (s : text) : text :=
  rev (dropwhile p (rev (dropwhile p s))).

(** [s.replace(a, b)], and [s.replace(a, empty)], for one character [a]. *)
Definition py_replace (a b : ascii) (s : text) : text :=
  map (fun c => if Ascii.eqb c a then b else c) s.

Definition py_remove (a : ascii) (s : text) : text :=
  filter (fun c => negb (Ascii.eqb c a)) s.

(** [s.split(sep)] for one character [sep]: one piece more than there are
    separators. *)
Fixpoint py_split (sep : ascii) (s : text) : list text :=
  match s with
  | [] => [[]]
  | c :: s' =>
      if Ascii.eqb c sep then [] :: py_split sep s'
      else match py_split sep s' with
           | t :: ts => (c :: t) :: ts
           | [] => [[c]]
           end
  end.

(** [re.split(r"\s+", s)]: the pieces between the maximal runs of
    whitespace; [in_run] tells that the previous character was whitespace. *)
Fixpoint re_split_spaces (in_run : bool) (s : text) : list text :=
  match s with
  | [] => [[]]
  | c :: s' =>
      if is_space c then
        if in_run then re_split_spaces true s'
        else [] :: re_split_spaces true s'
      else
        match re_split_spaces false s' with
        | t :: ts => (c :: t) :: ts
        | [] => [[c]]
        end
  end.

Definition nonempty (t : text) : bool :=
  match t with
  | [] => false
  | _ :: _ => true
  end.

(** The result of [analyze_file]: [{"empty": True}] or the five entries. *)
Record file_info : Type := {
  n_lines : nat;
  unique_lengths : list nat;
  min_len : nat;
  max_len : nat;
  is_square : bool
}.

Inductive analysis : Type :=
| EmptyFile
| Info (i : file_info).

Module InspectConnectome.
(** inspect_connectome.py, [tokenize] *)
Definition tokenize (line : text) : list text :=
  let s := py_strip (fun c => Ascii.eqb c ","%char || Ascii.eqb c ";"%char)
                    (py_strip is_space line) in
  if negb (nonempty s) then []
  else
    let s := py_replace ";"%char ","%char (py_replace "009"%char ","%char s) in
    let s := py_remove "'"%char
               (py_remove "034"%char
                  (py_remove "]"%char (py_remove "["%char s))) in
    let parts := filter nonempty (py_split ","%char s) in
    let parts :=
      if (length parts =? 1)%nat
      then filter nonempty (re_split_spaces false s)
      else parts in
    parts.

(** inspect_connectome.py, [analyze_file], on the lines of the file (the
    result of [path.read_text(...).splitlines()]). *)
Definition analyze_file (lines : list text) : analysis :=
  let lengths :=
    map (fun ln => length (tokenize ln))
        (filter (fun ln => nonempty (py_strip is_space ln)) lines) in
  match lengths with
  | [] => EmptyFile
  | x :: xs =>
      let unique := NatSort.sort (nodup Nat.eq_dec lengths) in
      Info {| n_lines := length lines;
              unique_lengths := unique;
              min_len := fold_left Nat.min xs x;
              max_len := fold_left Nat.max xs x;
              is_square := (length unique =? 1)%nat
                           && (nth 0 unique 0 =? length lines)%nat |}
  end.
End InspectConnectome.

(** The row of modularity.py for the matching file [fname]: its metadata,
    the Louvain label, and the bounds on what it reports. *)
Definition modularity_recorded (read_csv : String.string -> option ndarray)
           (fname : String.string) (r : modularity_row) : Prop :=
  exists (subj m : String.string) (csv : ndarray),
    FILE_RE_match fname = Some (subj, m) /\
    read_csv fname = Some csv /\
    mr_subject r = subj /\
    mr_method r = str_upper m /\
    mr_group r = Metadata.infer_group' subj /\
    mr_file r = fname /\
    mr_algorithm r = "LOUVAIN"%string /\
    (mr_n_nodes r <= shape0 csv)%nat /\
    0 <= mr_density r /\ mr_density r <= 1 /\
    mr_used_density r <= ModularityScript.TARGET_DENSITY /\
    mr_used_density r <= mr_available_density r.

(* ================================================================== *)
(** ** clustering_coefficient.py: the main loop *)
(* ================================================================== *)

(** A row of the table of clustering_coefficient.py. *)
Record clustering_row : Type := {
  cr_subject : String.string;
  cr_method : String.string;
  cr_group : option String.string;
  cr_mean_clustering : float;
  cr_std_clustering : float;
  cr_n_nodes : nat;
  cr_density : Q;
  cr_file : String.string
}.

Module ClusteringScript.
Definition PROPORTIONAL_THRESHOLD : option Q := None.
Definition NORMALIZE_WEIGHTS : bool := true.

(** clustering_coefficient.py, [load_W] *)
Definition load_W (csv : ndarray) : ndarray :=
  let W := csv in
  let W := np_scale (1 # 2) (np_add W (transpose W)) in
  let W := fill_diagonal 0 W 0 in
  let W := clamp_negatives W in
  W.

Section Script.
Variable listdir : list String.string.
Variable read_csv : String.string -> option ndarray.
(** [bct.threshold_proportional] and [bct.clustering_coef_wu], which may
    raise; [np.nanmean] and [np.nanstd] of the node-wise coefficients. *)
Variable bct_threshold_proportional : ndarray -> Q -> option ndarray.
Variable clustering_coef_wu : ndarray -> option (list float).
Variable nanmean : list float -> float.
Variable nanstd : list float -> float.

(** [maybe_threshold] *)
Definition maybe_threshold (W : ndarray) (p : option Q) : option ndarray :=
  match p with
  | Some p => bct_threshold_proportional W p
  | None => Some W
  end.

Definition files : list String.string :=
  sort_by String.leb (filter matches listdir).

(** The body of [for i, fname in enumerate(files, 1)]. *)
Definition loop_body (rows : list clustering_row) (fname : String.string)
  : option (list clustering_row) :=
  m <- FILE_RE_match fname ;;
  let subj := fst m in
  let method := str_upper (snd m) in
  let group := Metadata.infer_group' subj in
  csv <- read_csv fname ;;
  let W := load_W csv in
  W <- match PROPORTIONAL_THRESHOLD with
       | Some _ => maybe_threshold W PROPORTIONAL_THRESHOLD
       | None => Some W
       end ;;
  W <- Clustering.maybe_normalize W NORMALIZE_WEIGHTS ;;
  let n := shape0 W in
  let dens := Sparsify.density W in
  let C_mean_std :=
    try_except (C <- clustering_coef_wu W ;; Some (nanmean C, nanstd C))
               (NaN, NaN) in
  Some (rows ++ [ {| cr_subject := subj; cr_method := method;
                     cr_group := group;
                     cr_mean_clustering := fst C_mean_std;
                     cr_std_clustering := snd C_mean_std;
                     cr_n_nodes := n; cr_density := dens;
                     cr_file := fname |} ]).

Definition loop : option (list clustering_row) :=
  fold_left (fun acc fname => rows <- acc ;; loop_body rows fname)
            files (Some []).
End Script.
End ClusteringScript.

(** The row of clustering_coefficient.py for the matching file [fname]: its
    metadata, the matrix [W] handed to the clustering routine, and as mean
    and deviation what the routine's result gives, or NaN when it raised. *)
Definition clustering_recorded (read_csv : String.string -> option ndarray)
           (clustering_coef_wu : ndarray -> option (list float))
           (nanmean nanstd : list float -> float)
           (fname : String.string) (r : clustering_row) : Prop :=
  exists (subj m : String.string) (csv W : ndarray),
    FILE_RE_match fname = Some (subj, m) /\
    read_csv fname = Some csv /\
    cr_subject r = subj /\
    cr_method r = str_upper m /\
    cr_group r = Metadata.infer_group' subj /\
    cr_file r = fname /\
    cr_n_nodes r = shape0 csv /\
    cr_density r = Sparsify.density W /\
    Clustering.maybe_normalize (ClusteringScript.load_W csv) true = Some W /\
    cleaned (shape0 csv) W /\ unit_weights (shape0 csv) W /\
    (clustering_coef_wu W = None ->
     cr_mean_clustering r = NaN /\ cr_std_clustering r = NaN) /\
    (forall C, clustering_coef_wu W = Some C ->
     cr_mean_clustering r = nanmean C /\ cr_std_clustering r = nanstd C).

(* ================================================================== *)
(** * Proofs *)
(* ================================================================== *)

(** ** Comparisons *)

Lemma Qltb_lt (x y : Q) : Qltb x y = true <-> x < y.
Proof.
  unfold Qltb. rewrite negb_true_iff. split.
  - intro H. apply Qnot_le_lt. intro Hle.
    apply Qle_bool_iff in Hle. congruence.
  - intro H. destruct (Qle_bool y x) eqn:E; [|reflexivity].
    apply Qle_bool_iff in E. exfalso. exact (Qlt_not_le _ _ H E).
Qed.

Lemma Qltb_ge (x y : Q) : Qltb x y = false <-> y <= x.
Proof.
  unfold Qltb. rewrite negb_false_iff. apply Qle_bool_iff.
Qed.

Lemma Qleb_le (x y : Q) : Qleb x y = true <-> x <= y.
Proof. apply Qle_bool_iff. Qed.

(** ** Arrays *)

Lemma nth_map_seq {A : Type} (g : nat -> A) (n i : nat) (d : A) :
  (i < n)%nat -> nth i (map g (seq 0 n)) d = g i.
Proof.
  intro H. rewrite (nth_indep _ d (g O)) by (rewrite length_map, length_seq; exact H).
  rewrite map_nth. rewrite seq_nth by exact H. reflexivity.
Qed.

Lemma mget_minit {A : Type} (d : A) (n : nat) (f : nat -> nat -> A) (i j : nat) :
  (i < n)%nat -> (j < n)%nat -> mget d (minit n f) i j = f i j.
Proof.
  intros Hi Hj. unfold mget, minit.
  rewrite nth_map_seq by exact Hi. apply nth_map_seq. exact Hj.
Qed.

Lemma square_minit {A : Type} (n : nat) (f : nat -> nat -> A) :
  square n (minit n f).
Proof.
  unfold square, minit. split.
  - rewrite length_map. apply length_seq.
  - apply Forall_forall. intros r Hr. apply in_map_iff in Hr.
    destruct Hr as [i [<- _]]. rewrite length_map. apply length_seq.
Qed.

Lemma square_map {A B : Type} (f : A -> B) (n : nat) (W : list (list A)) :
  square n W -> square n (map (map f) W).
Proof.
  intros [Hl Hr]. split.
  - rewrite length_map. exact Hl.
  - apply Forall_forall. intros r Hin. apply in_map_iff in Hin.
    destruct Hin as [r0 [<- Hin0]]. rewrite length_map.
    rewrite Forall_forall in Hr. apply Hr. exact Hin0.
Qed.

Lemma square_row {A : Type} (n : nat) (W : list (list A)) (i : nat) :
  square n W -> (i < n)%nat -> length (nth i W []) = n.
Proof.
  intros [Hl Hr] Hi. rewrite Forall_forall in Hr. apply Hr.
  apply nth_In. rewrite Hl. exact Hi.
Qed.

Lemma mget_map {A B : Type} (dA : A) (dB : B) (f : A -> B) (n : nat)
      (W : list (list A)) (i j : nat) :
  square n W -> (i < n)%nat -> (j < n)%nat ->
  mget dB (map (map f) W) i j = f (mget dA W i j).
Proof.
  intros Hsq Hi Hj. unfold mget.
  assert (Hlen : length W = n) by apply Hsq.
  rewrite (nth_indep _ [] (map f [])) by (rewrite length_map; lia).
  rewrite map_nth.
  rewrite (nth_indep _ dB (f dA))
    by (rewrite length_map, (square_row n W i Hsq Hi); exact Hj).
  apply map_nth.
Qed.

Lemma shape0_minit {A : Type} (n : nat) (f : nat -> nat -> A) :
  shape0 (minit n f) = n.
Proof. unfold shape0, minit. rewrite length_map. apply length_seq. Qed.

Lemma shape0_map {A B : Type} (f : list A -> list B) (W : list (list A)) :
  shape0 (map f W) = shape0 W.
Proof. unfold shape0. apply length_map. Qed.

Lemma square_shape0 {A : Type} (n : nat) (W : list (list A)) :
  square n W -> shape0 W = n.
Proof. intros [H _]. exact H. Qed.

Lemma map_map_id {A : Type} (W : list (list A)) : map (map (fun x => x)) W = W.
Proof.
  induction W as [|r W IH]; simpl; [reflexivity|].
  rewrite map_id, IH. reflexivity.
Qed.

(** ** The loaders *)

Lemma load_and_clean_cell (n : nat) (csv : ndarray) (i j : nat) :
  square n csv -> (i < n)%nat -> (j < n)%nat ->
  (Modularity.load_W_csv csv)[@i, j] = cleaned_cell csv i j.
Proof.
  intros Hsq Hi Hj. unfold Modularity.load_W_csv, nan_to_num, cleaned_cell.
  rewrite map_map_id.
  unfold clamp_negatives, fill_diagonal, np_scale, np_add, transpose.
  rewrite shape0_map, shape0_minit, (square_shape0 n csv Hsq).
  rewrite (mget_map 0 0 _ n) by (try apply square_minit; assumption).
  rewrite mget_minit by assumption.
  destruct (Nat.eqb i j); [reflexivity|].
  rewrite (mget_map 0 0 _ n) by (try apply square_minit; assumption).
  rewrite mget_minit by assumption.
  rewrite mget_minit by assumption.
  reflexivity.
Qed.

Lemma load_and_clean_square (n : nat) (csv : ndarray) :
  square n csv -> square n (Modularity.load_W_csv csv).
Proof.
  intro Hsq. unfold Modularity.load_W_csv, nan_to_num, clamp_negatives.
  rewrite map_map_id.
  apply square_map. unfold fill_diagonal, np_scale, np_add.
  rewrite shape0_map, shape0_minit, (square_shape0 n csv Hsq).
  apply square_minit.
Qed.

Lemma cleaned_cell_sym (csv : ndarray) (i j : nat) :
  cleaned_cell csv i j == cleaned_cell csv j i.
Proof.
  unfold cleaned_cell. rewrite (Nat.eqb_sym j i).
  destruct (Nat.eqb i j); [reflexivity|].
  assert (E : (1 # 2) * (csv[@i, j] + csv[@j, i])
              == (1 # 2) * (csv[@j, i] + csv[@i, j])) by ring.
  destruct (Qltb ((1 # 2) * (csv[@i, j] + csv[@j, i])) 0) eqn:E1;
    destruct (Qltb ((1 # 2) * (csv[@j, i] + csv[@i, j])) 0) eqn:E2;
    try reflexivity; try exact E.
  - apply Qltb_lt in E1. apply Qltb_ge in E2. rewrite E in E1.
    exfalso. exact (Qlt_not_le _ _ E1 E2).
  - apply Qltb_lt in E2. apply Qltb_ge in E1. rewrite E in E1.
    exfalso. exact (Qlt_not_le _ _ E2 E1).
Qed.

Lemma cleaned_cell_diag (csv : ndarray) (i : nat) : cleaned_cell csv i i == 0.
Proof.
  unfold cleaned_cell. rewrite Nat.eqb_refl.
  destruct (Qltb 0 0); reflexivity.
Qed.

Lemma cleaned_cell_nonneg (csv : ndarray) (i j : nat) : 0 <= cleaned_cell csv i j.
Proof.
  unfold cleaned_cell.
  match goal with |- context [Qltb ?s 0] => destruct (Qltb s 0) eqn:E end.
  - apply Qle_refl.
  - apply Qltb_ge in E. exact E.
Qed.

(** The float64 loader of modularity.py returns a clean matrix. *)
Lemma load_and_clean_cleaned (n : nat) (csv : ndarray) :
  square n csv -> cleaned n (Modularity.load_W_csv csv).
Proof.
  intro Hsq. split; [apply load_and_clean_square; exact Hsq|].
  split; [|split].
  - intros i j Hi Hj. rewrite !(load_and_clean_cell n) by assumption.
    apply cleaned_cell_sym.
  - intros i Hi. rewrite (load_and_clean_cell n) by assumption.
    apply cleaned_cell_diag.
  - intros i j Hi Hj. rewrite (load_and_clean_cell n) by assumption.
    apply cleaned_cell_nonneg.
Qed.

(** *** The float32 loaders *)

Lemma shape_square {A : Type} (n : nat) (W : list (list A)) :
  square n W -> shape W = Some (n, n).
Proof.
  intros [Hl Hr]. destruct W as [|r W]; simpl in *.
  - subst n. reflexivity.
  - assert (Hlen : length r = n) by (inversion Hr; assumption).
    rewrite Nat.eqb_refl. simpl.
    assert (Hall : forallb (fun r' => Nat.eqb (length r') (length r)) W = true).
    { apply forallb_forall. intros r' Hr'. apply Nat.eqb_eq.
      inversion Hr as [|? ? _ Hrest]; subst.
      rewrite Forall_forall in Hrest. rewrite Hlen. apply Hrest. exact Hr'. }
    rewrite Hall. rewrite Hlen, Hl. reflexivity.
Qed.

Lemma np_transpose_square {A : Type} (d : A) (n : nat) (W : list (list A)) :
  square n W -> np_transpose d W = minit n (fun i j => mget d W j i).
Proof.
  intros [Hl Hr]. unfold np_transpose, minit2, minit. rewrite Hl.
  destruct W as [|r W]; simpl in *.
  - subst n. reflexivity.
  - inversion Hr as [|? ? Hlen _]; subst. rewrite Hlen. reflexivity.
Qed.

Lemma broadcast_dim_same (n : nat) : broadcast_dim n n = Some n.
Proof. unfold broadcast_dim. rewrite Nat.eqb_refl. reflexivity. Qed.

Lemma broadcast_get_square (n : nat) (M : farray) (i j : nat) :
  (i < n)%nat -> (j < n)%nat -> broadcast_get (n, n) M i j = mget NaN M i j.
Proof.
  intros Hi Hj. unfold broadcast_get. simpl.
  destruct (Nat.eqb n 1) eqn:E; [|reflexivity].
  apply Nat.eqb_eq in E. subst n.
  replace i with 0%nat by lia. replace j with 0%nat by lia. reflexivity.
Qed.

Lemma np_add32_square (n : nat) (X Y : farray) :
  square n X -> square n Y ->
  np_add32 X Y
  = Some (minit n (fun i j => f32_add (broadcast_get (n, n) X i j)
                                      (broadcast_get (n, n) Y i j))).
Proof.
  intros HX HY. unfold np_add32.
  rewrite (shape_square n X HX), (shape_square n Y HY). simpl.
  rewrite broadcast_dim_same. reflexivity.
Qed.

Lemma load32_eq (csv : ndarray) :
  CharPath.load_and_clean_W csv = GlobalEfficiency.load_and_clean_matrix csv.
Proof. reflexivity. Qed.

(** On a square file the float32 loader returns, and its result has the
    cells of [cleaned_cell32]. *)
Lemma load32_square (n : nat) (csv : ndarray) :
  square n csv ->
  exists W,
    GlobalEfficiency.load_and_clean_matrix csv = Some W /\
    square n W /\
    forall i j, (i < n)%nat -> (j < n)%nat ->
                mget NaN W i j = cleaned_cell32 csv i j.
Proof.
  intro Hsq.
  assert (HX : square n (map (map np_float32) csv)) by (apply square_map; exact Hsq).
  assert (HY : square n (np_transpose NaN (map (map np_float32) csv))).
  { rewrite (np_transpose_square NaN n) by exact HX. apply square_minit. }
  unfold GlobalEfficiency.load_and_clean_matrix.
  rewrite (np_add32_square n _ _ HX HY). simpl.
  eexists. split; [reflexivity|].
  unfold clamp_negatives32, fill_diagonal.
  rewrite shape0_map, shape0_minit.
  split; [apply square_map, square_minit|].
  intros i j Hi Hj. unfold cleaned_cell32.
  rewrite (mget_map NaN NaN _ n) by (try apply square_minit; assumption).
  rewrite mget_minit by assumption.
  destruct (Nat.eqb i j); [reflexivity|].
  rewrite (mget_map NaN NaN _ n) by (try apply square_minit; assumption).
  rewrite mget_minit by assumption.
  rewrite !broadcast_get_square by assumption.
  rewrite (np_transpose_square NaN n) by exact HX.
  rewrite mget_minit by assumption.
  rewrite !(mget_map 0 NaN _ n) by assumption.
  reflexivity.
Qed.

(** C1. The loaders of global_efficiency.py and characteristic_path_lengh.py
    cast the file to float32 and never remove NaN: on the square file
    [0, 1e39 / -1e39, 0] the two entries off the diagonal overflow to the
    infinities, their sum is NaN and the clamp leaves it, so the result
    holds NaN at [(0, 1)] and [(1, 0)] and is neither symmetric nor
    non-negative there.  The loader of modularity.py, which works in float64
    and ends with [nan_to_num], returns a clean matrix on the same file. *)
Theorem float32_loaders_return_nan_on_overflow :
  let csv : ndarray :=
    [[0; inject_Z (10 ^ 39)]; [- inject_Z (10 ^ 39); 0]] in
  square 2 csv /\
  GlobalEfficiency.load_and_clean_matrix csv
  = Some [[Fin 0; NaN]; [NaN; Fin 0]] /\
  CharPath.load_and_clean_W csv
  = Some [[Fin 0; NaN]; [NaN; Fin 0]] /\
  ~ cleaned32 2 [[Fin 0; NaN]; [NaN; Fin 0]] /\
  cleaned 2 (Modularity.load_W_csv csv).
Proof.
  cbv zeta.
  assert (Hsq : square 2 [[0; inject_Z (10 ^ 39)]; [- inject_Z (10 ^ 39); 0]]).
  { split; [reflexivity|repeat constructor]. }
  split; [exact Hsq|].
  split; [vm_compute; reflexivity|].
  split; [vm_compute; reflexivity|].
  split.
  - intros [_ [_ [_ Hnn]]].
    exact (Hnn 0%nat 1%nat ltac:(lia) ltac:(lia)).
  - apply load_and_clean_cleaned. exact Hsq.
Qed.

(** ** Normalisation *)

Lemma Qmax_cases (x y : Q) : Qmax x y = x \/ Qmax x y = y.
Proof.
  unfold Qmax, GenericMinMax.gmax. destruct (x ?= y); auto.
Qed.

Lemma fold_Qmax_spec (xs : list Q) (x : Q) :
  In (fold_left Qmax xs x) (x :: xs) /\
  forall y, In y (x :: xs) -> y <= fold_left Qmax xs x.
Proof.
  revert x. induction xs as [|a xs IH]; intro x; simpl.
  - split; [left; reflexivity|]. intros y [<- | []]. apply Qle_refl.
  - destruct (IH (Qmax x a)) as [Hin Hub]. split.
    + destruct Hin as [Hin | Hin]; [|right; right; exact Hin].
      destruct (Qmax_cases x a) as [E | E];
        [left | right; left]; congruence.
    + intros y [<- | [<- | Hy]].
      * eapply Qle_trans; [apply Q.le_max_l|]. apply Hub. left. reflexivity.
      * eapply Qle_trans; [apply Q.le_max_r|]. apply Hub. left. reflexivity.
      * apply Hub. right. exact Hy.
Qed.

Lemma np_max_spec (W : ndarray) (m : Q) :
  np_max W = Some m ->
  In m (concat W) /\ forall y, In y (concat W) -> y <= m.
Proof.
  unfold np_max. destruct (concat W) as [|x xs]; [discriminate|].
  intro H. injection H as <-. apply fold_Qmax_spec.
Qed.

Lemma np_max_some (W : ndarray) (x : Q) :
  In x (concat W) -> exists m, np_max W = Some m.
Proof.
  unfold np_max. destruct (concat W) as [|y ys]; [intros []|].
  intros _. eexists. reflexivity.
Qed.

Lemma concat_np_div (W : ndarray) (m : Q) :
  concat (np_div W m) = map (fun x => x / m) (concat W).
Proof. unfold np_div. symmetry. apply concat_map. Qed.

Lemma np_max_div (W : ndarray) (m : Q) :
  np_max W = Some m -> 0 < m ->
  exists m', np_max (np_div W m) = Some m' /\ m' == 1.
Proof.
  intros Hmax Hpos. destruct (np_max_spec W m Hmax) as [Hin Hub].
  assert (Hne : ~ m == 0) by (intro E; rewrite E in Hpos; exact (Qlt_irrefl 0 Hpos)).
  assert (Hin1 : In (m / m) (concat (np_div W m))).
  { rewrite concat_np_div. apply in_map_iff. exists m. split; [reflexivity|exact Hin]. }
  destruct (np_max_some _ _ Hin1) as [m' Hm']. exists m'. split; [exact Hm'|].
  destruct (np_max_spec _ _ Hm') as [Hin' Hub'].
  apply Qle_antisym.
  - rewrite concat_np_div in Hin'. apply in_map_iff in Hin'.
    destruct Hin' as [w [<- Hw]]. apply Qle_shift_div_r; [exact Hpos|].
    rewrite Qmult_1_l. apply Hub. exact Hw.
  - specialize (Hub' _ Hin1). eapply Qle_trans; [|exact Hub'].
    unfold Qdiv. rewrite Qmult_inv_r by exact Hne. apply Qle_refl.
Qed.

Lemma mat_eq_refl (W : ndarray) : mat_eq W W.
Proof.
  unfold mat_eq. induction W as [|r W IH]; constructor; [|exact IH].
  induction r as [|x r IHr]; constructor; [reflexivity|exact IHr].
Qed.

Lemma np_div_one (W : ndarray) (m : Q) : m == 1 -> mat_eq (np_div W m) W.
Proof.
  intro E. unfold mat_eq, np_div.
  induction W as [|r W IH]; simpl; constructor; [|exact IH].
  induction r as [|x r IHr]; simpl; constructor; [|exact IHr].
  rewrite E. unfold Qdiv. change (/ 1) with 1. apply Qmult_1_r.
Qed.

Lemma maybe_normalize_unfold (W : ndarray) :
  Modularity.maybe_normalize W true =
  match np_max W with
  | Some m => Some (if Qltb 0 m then np_div W m else W)
  | None => None
  end.
Proof. unfold Modularity.maybe_normalize. simpl. destruct (np_max W); reflexivity. Qed.

Lemma maybe_normalize_idempotent (W : ndarray) :
  opt_mat_eq (W' <- Modularity.maybe_normalize W true ;;
              Modularity.maybe_normalize W' true)
             (Modularity.maybe_normalize W true).
Proof.
  rewrite maybe_normalize_unfold.
  destruct (np_max W) as [m|] eqn:Hmax; simpl; [|exact I].
  destruct (Qltb 0 m) eqn:Hm.
  - apply Qltb_lt in Hm. destruct (np_max_div W m Hmax Hm) as [m' [Hm' E]].
    rewrite maybe_normalize_unfold, Hm'.
    assert (Hpos : Qltb 0 m' = true) by (apply Qltb_lt; rewrite E; reflexivity).
    rewrite Hpos. simpl. apply np_div_one. exact E.
  - rewrite maybe_normalize_unfold, Hmax, Hm. simpl. apply mat_eq_refl.
Qed.

(** C10. With normalisation enabled, maybe_normalize divides the matrix by
    its largest entry when that entry is strictly positive (the largest
    entry of the result is then 1) and returns the matrix unchanged
    otherwise; applying it twice gives the same matrix as applying it once.
    The three scripts that define it agree. *)
Theorem maybe_normalize_scales_and_is_idempotent :
  forall W : ndarray,
    (forall m, np_max W = Some m -> 0 < m ->
       Modularity.maybe_normalize W true = Some (np_div W m) /\
       exists m', np_max (np_div W m) = Some m' /\ m' == 1) /\
    (forall m, np_max W = Some m -> ~ 0 < m ->
       Modularity.maybe_normalize W true = Some W) /\
    opt_mat_eq (W' <- Modularity.maybe_normalize W true ;;
                Modularity.maybe_normalize W' true)
               (Modularity.maybe_normalize W true) /\
    NodeStrength.maybe_normalize W true = Modularity.maybe_normalize W true /\
    Clustering.maybe_normalize W true = Modularity.maybe_normalize W true.
Proof.
  intro W. split; [|split; [|split; [|split; reflexivity]]].
  - intros m Hmax Hpos. split; [|exact (np_max_div W m Hmax Hpos)].
    rewrite maybe_normalize_unfold, Hmax.
    apply Qltb_lt in Hpos. rewrite Hpos. reflexivity.
  - intros m Hmax Hneg. rewrite maybe_normalize_unfold, Hmax.
    destruct (Qltb 0 m) eqn:E; [|reflexivity].
    apply Qltb_lt in E. contradiction.
  - apply maybe_normalize_idempotent.
Qed.

Lemma maybe_normalize_scales_and_is_idempotent_witness :
  let W : ndarray := [[0; 5; 1]; [5; 0; 3]; [1; 3; 0]] in
  (Modularity.maybe_normalize W true = Some (np_div W 5) /\
   exists m', np_max (np_div W 5) = Some m' /\ m' == 1) /\
  Modularity.maybe_normalize (zeros_like W) true = Some (zeros_like W).
Proof.
  intro W.
  destruct (maybe_normalize_scales_and_is_idempotent W) as [Hpos _].
  destruct (maybe_normalize_scales_and_is_idempotent (zeros_like W))
    as [_ [Hzero _]].
  split.
  - apply (Hpos 5); [vm_compute; reflexivity | reflexivity].
  - apply (Hzero 0); [vm_compute; reflexivity | intro H0; discriminate H0].
Defined.

(** ** Path lengths *)





(** ** Group inference *)

Lemma cut_at_first (sep : ascii) (a b : String.string) :
  str_contains sep a = false ->
  cut sep (String.append a (String.String sep b)) = (a, Some b).
Proof.
  induction a as [|c a IH]; simpl; intro H.
  - rewrite Ascii.eqb_refl. reflexivity.
  - apply orb_false_iff in H. destruct H as [Hc Ha].
    rewrite Hc, (IH Ha). reflexivity.
Qed.

Lemma cut_without (sep : ascii) (s : String.string) :
  str_contains sep s = false -> cut sep s = (s, None).
Proof.
  induction s as [|c s IH]; simpl; intro H; [reflexivity|].
  apply orb_false_iff in H. destruct H as [Hc Hs].
  rewrite Hc, (IH Hs). reflexivity.
Qed.

Lemma upper_char_is_C (c : ascii) :
  Ascii.eqb (upper_char c) "C"%char
  = (Ascii.eqb c "C"%char || Ascii.eqb c "c"%char).
Proof.
  destruct c as [[] [] [] [] [] [] [] []]; reflexivity.
Qed.

Lemma upper_char_is_P (c : ascii) :
  Ascii.eqb (upper_char c) "P"%char
  = (Ascii.eqb c "P"%char || Ascii.eqb c "p"%char).
Proof.
  destruct c as [[] [] [] [] [] [] [] []]; reflexivity.
Qed.

Lemma infer_group_versions_agree (subj : String.string) :
  Metadata.infer_group' subj = Metadata.infer_group subj.
Proof.
  unfold Metadata.infer_group', Metadata.infer_group, try_except.
  destruct (nth_error (split_once "_"%char subj) 1) as [after|]; simpl;
    [|reflexivity].
  destruct (String.get 0 after) as [c|]; simpl; [|reflexivity].
  destruct (Ascii.eqb (upper_char c) "C"%char); [reflexivity|].
  destruct (Ascii.eqb (upper_char c) "P"%char); reflexivity.
Qed.

Lemma infer_group_after_underscore (a b : String.string) (c : ascii) :
  str_contains "_"%char a = false ->
  Metadata.infer_group
    (String.append a (String.String "_"%char (String.String c b)))
  = if Ascii.eqb c "C"%char || Ascii.eqb c "c"%char then Some "control"%string
    else if Ascii.eqb c "P"%char || Ascii.eqb c "p"%char then Some "patient"%string
    else None.
Proof.
  intro Ha. unfold Metadata.infer_group, split_once.
  rewrite (cut_at_first _ _ _ Ha). simpl.
  rewrite upper_char_is_C, upper_char_is_P.
  destruct (Ascii.eqb c "C"%char || Ascii.eqb c "c"%char); [reflexivity|].
  destruct (Ascii.eqb c "P"%char || Ascii.eqb c "p"%char); reflexivity.
Qed.

Lemma infer_group_nothing_after (a : String.string) :
  str_contains "_"%char a = false ->
  Metadata.infer_group (String.append a "_"%string) = None.
Proof.
  intro Ha. unfold Metadata.infer_group, split_once.
  rewrite (cut_at_first _ a String.EmptyString Ha). reflexivity.
Qed.

Lemma infer_group_no_underscore (s : String.string) :
  str_contains "_"%char s = false -> Metadata.infer_group s = None.
Proof.
  intro Hs. unfold Metadata.infer_group, split_once.
  rewrite (cut_without _ _ Hs). reflexivity.
Qed.

(** C9. On an identifier a_cb (no underscore in a), infer_group returns
    "control" exactly when c is 'C' or 'c', "patient" exactly when c is 'P'
    or 'p', and None for any other c; it returns None when nothing follows
    the first underscore and when there is no underscore.  Both versions of
    the function (the one with returns inside the try, the one with a
    conditional expression) behave so. *)
Theorem infer_group_reads_first_tag_character :
  forall f : String.string -> option String.string,
    f = Metadata.infer_group \/ f = Metadata.infer_group' ->
    (forall (a b : String.string) (c : ascii),
       str_contains "_"%char a = false ->
       let subj := String.append a (String.String "_"%char (String.String c b)) in
       (f subj = Some "control"%string <-> (c = "C"%char \/ c = "c"%char)) /\
       (f subj = Some "patient"%string <-> (c = "P"%char \/ c = "p"%char)) /\
       (c <> "C"%char -> c <> "c"%char -> c <> "P"%char -> c <> "p"%char ->
        f subj = None)) /\
    (forall a : String.string,
       str_contains "_"%char a = false ->
       f (String.append a "_"%string) = None) /\
    (forall s : String.string,
       str_contains "_"%char s = false -> f s = None).
Proof.
  intros f Hf.
  assert (Ef : forall s, f s = Metadata.infer_group s).
  { intro s. destruct Hf as [-> | ->];
      [reflexivity | apply infer_group_versions_agree]. }
  split; [|split].
  - intros a b c Ha subj. unfold subj. rewrite Ef.
    rewrite (infer_group_after_underscore a b c Ha).
    destruct (Ascii.eqb c "C"%char) eqn:E1;
      [apply Ascii.eqb_eq in E1 | apply Ascii.eqb_neq in E1];
    (destruct (Ascii.eqb c "c"%char) eqn:E2;
      [apply Ascii.eqb_eq in E2 | apply Ascii.eqb_neq in E2]);
    (destruct (Ascii.eqb c "P"%char) eqn:E3;
      [apply Ascii.eqb_eq in E3 | apply Ascii.eqb_neq in E3]);
    (destruct (Ascii.eqb c "p"%char) eqn:E4;
      [apply Ascii.eqb_eq in E4 | apply Ascii.eqb_neq in E4]);
    simpl; subst; try discriminate;
    (split; [|split]);
    try (split; [intro H; try discriminate H; auto
                | intros [H | H]; try discriminate H; try contradiction; auto]);
    try (intros; contradiction); try (intros; reflexivity).
  - intros a Ha. rewrite Ef. apply infer_group_nothing_after. exact Ha.
  - intros s Hs. rewrite Ef. apply infer_group_no_underscore. exact Hs.
Qed.

Lemma infer_group_reads_first_tag_character_witness :
  Metadata.infer_group "INsIDER_c019"%string = Some "control"%string /\
  Metadata.infer_group' "INsIDER_"%string = None /\
  Metadata.infer_group' "INsIDER"%string = None.
Proof.
  destruct (infer_group_reads_first_tag_character Metadata.infer_group
              (or_introl eq_refl)) as [H1 _].
  destruct (infer_group_reads_first_tag_character Metadata.infer_group'
              (or_intror eq_refl)) as [_ [H2 H3]].
  split; [|split].
  - apply (H1 "INsIDER"%string "019"%string "c"%char eq_refl).
    right. reflexivity.
  - apply (H2 "INsIDER"%string). reflexivity.
  - apply H3. reflexivity.
Defined.

(** ** The batch drivers *)

Lemma insert_by_perm {A : Type} (leb : A -> A -> bool) (x : A) (l : list A) :
  Permutation (x :: l) (insert_by leb x l).
Proof.
  induction l as [|y l IH]; simpl; [apply Permutation_refl|].
  destruct (leb x y); [apply Permutation_refl|].
  eapply Permutation_trans; [apply perm_swap|].
  apply perm_skip. exact IH.
Qed.

Lemma sort_by_perm {A : Type} (leb : A -> A -> bool) (l : list A) :
  Permutation l (sort_by leb l).
Proof.
  induction l as [|x l IH]; simpl; [apply Permutation_refl|].
  eapply Permutation_trans; [apply perm_skip; exact IH|].
  apply insert_by_perm.
Qed.

Lemma sort_values_perm (rs : list row) :
  rs <> [] -> exists out, sort_values rs = Some out /\ Permutation rs out.
Proof.
  intro Hne. destruct rs as [|r rs]; [contradiction|].
  eexists. split; [reflexivity|]. apply sort_by_perm.
Qed.

Lemma Forall2_snoc {A B : Type} (P : A -> B -> Prop) (l : list A) (l' : list B)
      (a : A) (b : B) :
  Forall2 P l l' -> P a b -> Forall2 P (l ++ [a]) (l' ++ [b]).
Proof.
  intros H Hab. apply Forall2_app; [exact H|]. constructor; [exact Hab|constructor].
Qed.

Section GlobalEfficiencyLoop.
Variable listdir : list String.string.
Variable read_csv : String.string -> option ndarray.
Variable efficiency_wei : farray -> option float.

Let body := GlobalEfficiencyScript.loop_body read_csv efficiency_wei.
Let rec_ := recorded read_csv GlobalEfficiency.load_and_clean_matrix efficiency_wei.

Lemma ge_loop_from (fs : list String.string) (acc : list row) :
  (forall f, In f (filter matches fs) ->
             loads read_csv GlobalEfficiency.load_and_clean_matrix f) ->
  exists added,
    fold_left (fun a fname => rows <- a ;; body rows fname) fs (Some acc)
    = Some (acc ++ added) /\
    Forall2 rec_ (filter matches fs) added.
Proof.
  revert acc. induction fs as [|f fs IH]; intros acc Hload; simpl.
  - exists []. rewrite app_nil_r. split; [reflexivity|constructor].
  - unfold body at 2, GlobalEfficiencyScript.loop_body.
    simpl in Hload. unfold matches at 1. unfold matches at 1 in Hload.
    destruct (FILE_RE_match f) as [[g1 g2]|] eqn:Hm.
    + destruct (Hload f (or_introl eq_refl)) as [csv [W [Hcsv HW]]].
      rewrite Hcsv. simpl. rewrite HW. simpl.
      match goal with
      | |- context [Some (acc ++ [?r])] => set (r0 := r)
      end.
      destruct (IH (acc ++ [r0])) as [added [Hfold Hall]].
      { intros f' Hf'. apply Hload. right. exact Hf'. }
      exists (r0 :: added). split.
      * fold body. rewrite Hfold. rewrite <- app_assoc. reflexivity.
      * constructor; [|exact Hall].
        exists g1, g2, csv, W. unfold r0. simpl.
        repeat split; try assumption; try reflexivity.
        -- intro Hnone. rewrite Hnone. reflexivity.
        -- intros x Hx. rewrite Hx. reflexivity.
    + apply IH. exact Hload.
Qed.

(** A matching file that the loader rejects ends the loop with its
    exception, whatever was recorded before. *)
Lemma ge_loop_raises (f : String.string) (csv : ndarray) (acc : list row) :
  matches f = true -> read_csv f = Some csv ->
  GlobalEfficiency.load_and_clean_matrix csv = None ->
  body acc f = None.
Proof.
  intros Hm Hcsv HW. unfold body, GlobalEfficiencyScript.loop_body.
  unfold matches in Hm.
  destruct (FILE_RE_match f) as [[g1 g2]|]; [|discriminate].
  rewrite Hcsv. simpl. rewrite HW. reflexivity.
Qed.
End GlobalEfficiencyLoop.

Section CharPathLoop.
Variable listdir : list String.string.
Variable read_csv : String.string -> option ndarray.
Variable bct_threshold_proportional : farray -> Q -> option farray.
Variable distance_wei : list (list float) -> option (list (list float)).
Variable charpath : list (list float) -> option float.

Let body :=
  CharPathScript.loop_body read_csv bct_threshold_proportional
                           distance_wei charpath.
Let rec_ :=
  recorded read_csv CharPath.load_and_clean_W
    (CharPathScript.characteristic_path_length_weighted32 distance_wei charpath).

Lemma cpl_loop_from (fs : list String.string) (acc : list row) :
  Forall (fun f => matches f = true) fs ->
  (forall f, In f fs -> loads read_csv CharPath.load_and_clean_W f) ->
  exists added,
    fold_left (fun a fname => rows <- a ;; body rows fname) fs (Some acc)
    = Some (acc ++ added) /\
    Forall2 rec_ fs added.
Proof.
  revert acc. induction fs as [|f fs IH]; intros acc Hmatch Hload; simpl.
  - exists []. rewrite app_nil_r. split; [reflexivity|constructor].
  - unfold body at 2, CharPathScript.loop_body.
    inversion Hmatch as [|? ? Hf Hrest]; subst.
    unfold matches in Hf.
    destruct (FILE_RE_match f) as [[g1 g2]|] eqn:Hm; [|discriminate].
    destruct (Hload f (or_introl eq_refl)) as [csv [W [Hcsv HW]]].
    rewrite Hcsv. simpl. rewrite HW. simpl.
    match goal with
    | |- context [Some (acc ++ [?r])] => set (r0 := r)
    end.
    destruct (IH (acc ++ [r0]) Hrest) as [added [Hfold Hall]].
    { intros f' Hf'. apply Hload. right. exact Hf'. }
    exists (r0 :: added). split.
    + fold body. rewrite Hfold. rewrite <- app_assoc. reflexivity.
    + constructor; [|exact Hall].
      exists g1, g2, csv, W. unfold r0. simpl.
      repeat split; try assumption; try reflexivity.
      * intro Hnone. rewrite Hnone. reflexivity.
      * intros x Hx. rewrite Hx. reflexivity.
Qed.
End CharPathLoop.

(** The lengths computed from a float32 array without infinities or NaN
    are those of [length_matrix]. *)
Lemma length_matrix32_finite (W : ndarray) :
  CharPathScript.length_matrix32 (finite W) = CharPathScript.length_matrix W.
Proof.
  unfold CharPathScript.length_matrix32, CharPathScript.length_matrix, finite.
  rewrite !map_map. f_equal.
  - apply map_ext. intro r. rewrite map_map. reflexivity.
  - apply map_ext. intro r. rewrite map_map. reflexivity.
Qed.

(** C5. In the loops of global_efficiency.py and
    characteristic_path_lengh.py the loader is called outside the [try]:
    as long as every matching file is read and accepted by the loader, the
    loop ends with exactly one row per matching file, in order; the row of a
    file whose metric computation raised carries NaN, and the table written
    (when there is a matching file at all) is a reordering of those rows. *)
Theorem one_row_per_matching_file_with_nan_on_failure :
  forall (listdir : list String.string)
         (read_csv : String.string -> option ndarray)
         (efficiency_wei : farray -> option float)
         (bct_threshold_proportional : farray -> Q -> option farray)
         (distance_wei : list (list float) -> option (list (list float)))
         (charpath : list (list float) -> option float),
    let targets := filter matches (GlobalEfficiencyScript.files listdir) in
    ((forall f, In f targets ->
                loads read_csv GlobalEfficiency.load_and_clean_matrix f) ->
     exists rows,
       GlobalEfficiencyScript.loop listdir read_csv efficiency_wei = Some rows /\
       length rows = length targets /\
       Forall2 (recorded read_csv GlobalEfficiency.load_and_clean_matrix
                         efficiency_wei) targets rows /\
       (targets <> [] ->
        exists out,
          GlobalEfficiencyScript.main listdir read_csv efficiency_wei = Some out /\
          Permutation rows out)) /\
    ((forall f, In f targets -> loads read_csv CharPath.load_and_clean_W f) ->
     exists rows,
       CharPathScript.loop listdir read_csv bct_threshold_proportional
                           distance_wei charpath = Some rows /\
       length rows = length targets /\
       Forall2 (recorded read_csv CharPath.load_and_clean_W
                  (CharPathScript.characteristic_path_length_weighted32
                     distance_wei charpath)) targets rows /\
       (targets <> [] ->
        exists out,
          CharPathScript.main listdir read_csv bct_threshold_proportional
                              distance_wei charpath = Some out /\
          Permutation rows out)).
Proof.
  intros listdir read_csv efficiency_wei thr distance_wei charpath targets.
  split; intro Hload.
  - destruct (ge_loop_from read_csv efficiency_wei
                (GlobalEfficiencyScript.files listdir) [] Hload)
      as [rows [Hfold Hall]].
    simpl in Hfold. exists rows. split; [exact Hfold|].
    split; [symmetry; exact (Forall2_length Hall)|].
    split; [exact Hall|].
    intro Hne. unfold GlobalEfficiencyScript.main, GlobalEfficiencyScript.loop.
    rewrite Hfold. simpl.
    apply sort_values_perm. intro E. subst rows.
    apply Forall2_length in Hall. apply Hne, length_zero_iff_nil. exact Hall.
  - assert (Hm : Forall (fun f => matches f = true) targets).
    { apply Forall_forall. intros f Hf. apply filter_In in Hf. apply Hf. }
    destruct (cpl_loop_from read_csv thr distance_wei charpath
                targets [] Hm Hload) as [rows [Hfold Hall]].
    simpl in Hfold. exists rows. split; [exact Hfold|].
    split; [symmetry; exact (Forall2_length Hall)|].
    split; [exact Hall|].
    intro Hne. unfold CharPathScript.main.
    change (CharPathScript.loop listdir read_csv thr distance_wei charpath)
      with (fold_left
              (fun a fname =>
                 rows <- a ;;
                 CharPathScript.loop_body read_csv thr distance_wei charpath
                                          rows fname) targets (Some [])).
    rewrite Hfold. simpl.
    apply sort_values_perm. intro E. subst rows.
    apply Forall2_length in Hall. apply Hne, length_zero_iff_nil. exact Hall.
Qed.

Lemma one_row_per_matching_file_with_nan_on_failure_witness :
  let listdir := ["INsIDER_P02_TREKKER.csv"; "notes.txt"; "INsIDER_C01_ACT.csv"]%string in
  let read_csv := fun _ : String.string => Some ([[0; 1]; [1; 0]] : ndarray) in
  let failing := fun _ : farray => @None float in
  let raising := fun _ : list (list float) => @None (list (list float)) in
  (exists rows,
     GlobalEfficiencyScript.loop listdir read_csv failing = Some rows /\
     length rows = 2%nat /\
     Forall (fun r => metric r = NaN) rows) /\
  (exists rows,
     CharPathScript.loop listdir read_csv (fun W _ => Some W) raising
                         (fun _ => Some NaN) = Some rows /\
     length rows = 2%nat /\
     Forall (fun r => metric r = NaN) rows).
Proof.
  intros listdir read_csv failing raising.
  destruct (one_row_per_matching_file_with_nan_on_failure
              listdir read_csv failing
              (fun W _ => Some W) raising (fun _ => Some NaN))
    as [Hge Hcpl].
  assert (Hloads : forall load : ndarray -> option farray,
             load = GlobalEfficiency.load_and_clean_matrix ->
             forall f : String.string, loads read_csv load f).
  { intros load -> f. unfold loads, read_csv.
    eexists. eexists. split; [reflexivity|]. vm_compute. reflexivity. }
  split.
  - clear Hcpl. destruct Hge as [rows [Hloop [Hlen [Hrec _]]]].
    + intros f _. apply Hloads. reflexivity.
    + exists rows. split; [exact Hloop|]. split; [exact Hlen|].
      clear Hloop Hlen. induction Hrec as [|f r fs rs Hfr _ IH]; constructor.
      * destruct Hfr as [g1 [g2 [csv [W [_ [_ [_ [_ [_ [_ [_ [Hnan _]]]]]]]]]]]].
        apply Hnan. reflexivity.
      * exact IH.
  - clear Hge. destruct Hcpl as [rows [Hloop [Hlen [Hrec _]]]].
    + intros f _. apply Hloads. reflexivity.
    + exists rows. split; [exact Hloop|]. split; [exact Hlen|].
      clear Hloop Hlen. induction Hrec as [|f r fs rs Hfr _ IH]; constructor.
      * destruct Hfr as [g1 [g2 [csv [W [_ [_ [_ [_ [_ [_ [_ [Hnan _]]]]]]]]]]]].
        apply Hnan. reflexivity.
      * exact IH.
Defined.

(** C5, as stated, fails: a directory whose one matching file holds a 2 by 3
    table.  The file is read, but [W + W.T] raises in the loader, outside
    the [try]; the loop is left by the exception and no table is written,
    in either script, although the file matches. *)
Lemma no_row_for_a_matching_file_that_is_not_square :
  let listdir := ["INsIDER_P02_TREKKER.csv"]%string in
  let read_csv :=
    fun _ : String.string => Some ([[0; 1; 2]; [1; 0; 3]] : ndarray) in
  let failing := fun _ : farray => @None float in
  filter matches (GlobalEfficiencyScript.files listdir) = listdir /\
  GlobalEfficiencyScript.loop listdir read_csv failing = None /\
  GlobalEfficiencyScript.main listdir read_csv failing = None /\
  CharPathScript.loop listdir read_csv (fun W _ => Some W)
                      (fun L => Some L) (fun _ => None) = None /\
  CharPathScript.main listdir read_csv (fun W _ => Some W)
                      (fun L => Some L) (fun _ => None) = None.
Proof.
  cbv zeta. repeat split; vm_compute; reflexivity.
Qed.

(** ** The aggregation layer *)

Lemma group_eqb_eq (g1 g2 : option String.string) :
  group_eqb g1 g2 = true <-> g1 = g2.
Proof.
  destruct g1 as [a|], g2 as [b|]; simpl; split; intro H;
    try discriminate; try reflexivity.
  - apply String.eqb_eq in H. subst. reflexivity.
  - injection H as ->. apply String.eqb_refl.
Qed.

Lemma key_eqb_eq (k1 k2 : key) : key_eqb k1 k2 = true <-> k1 = k2.
Proof.
  destruct k1 as [[s1 m1] g1], k2 as [[s2 m2] g2].
  unfold key_eqb, key_subject, key_method, key_group. simpl.
  rewrite !andb_true_iff, !String.eqb_eq, group_eqb_eq. split.
  - intros [[-> ->] ->]. reflexivity.
  - intro H. injection H as -> -> ->. auto.
Qed.

Lemma key_eqb_refl (k : key) : key_eqb k k = true.
Proof. apply key_eqb_eq. reflexivity. Qed.

Lemma count_key_app (k : key) (l1 l2 : list (key * list cell)) :
  count_key k (l1 ++ l2) = (count_key k l1 + count_key k l2)%nat.
Proof. unfold count_key. rewrite filter_app. apply length_app. Qed.

Lemma count_key_perm (k : key) (l1 l2 : list (key * list cell)) :
  Permutation l1 l2 -> count_key k l1 = count_key k l2.
Proof.
  intro H. induction H as [| x l l' _ IH | x y l | l l' l'' _ IH1 _ IH2].
  - reflexivity.
  - unfold count_key in *. simpl. destruct (key_eqb k (fst x)); simpl; lia.
  - unfold count_key. simpl.
    destruct (key_eqb k (fst x)), (key_eqb k (fst y)); reflexivity.
  - lia.
Qed.

Lemma has_key_count (k : key) (rs : list (key * list cell)) :
  has_key k rs = negb (count_key k rs =? 0)%nat.
Proof.
  unfold has_key, count_key. induction rs as [|r rs IH]; simpl; [reflexivity|].
  destruct (key_eqb k (fst r)); simpl; [reflexivity|exact IH].
Qed.

Lemma count_key_same_key (k k' : key) (f : list cell -> list cell)
      (rs : list (key * list cell)) :
  count_key k (map (fun r => (k', f (snd r))) rs)
  = if key_eqb k k' then length rs else 0%nat.
Proof.
  unfold count_key. induction rs as [|r rs IH]; simpl.
  - destruct (key_eqb k k'); reflexivity.
  - destruct (key_eqb k k') eqn:E; simpl; [f_equal|]; exact IH.
Qed.

Lemma count_key_cons (k : key) (r : key * list cell) (rs : list (key * list cell)) :
  count_key k (r :: rs)
  = ((if key_eqb k (fst r) then 1 else 0) + count_key k rs)%nat.
Proof.
  unfold count_key. simpl. destruct (key_eqb k (fst r)); reflexivity.
Qed.

Lemma count_key_partners (k : key) (wR : nat) (l : key * list cell)
      (R : list (key * list cell)) :
  count_key k
    match filter (fun r => key_eqb (fst l) (fst r)) R with
    | [] => [(fst l, snd l ++ nan_cells wR)]
    | rs => map (fun r => (fst l, snd l ++ snd r)) rs
    end
  = if key_eqb k (fst l) then mult (count_key (fst l) R) else 0%nat.
Proof.
  unfold count_key at 2.
  destruct (filter (fun r => key_eqb (fst l) (fst r)) R) as [|r0 rs0].
  - rewrite count_key_cons. simpl.
    destruct (key_eqb k (fst l)); reflexivity.
  - rewrite (count_key_same_key _ _ (fun c => snd l ++ c)).
    destruct (key_eqb k (fst l)); [|reflexivity].
    unfold mult. simpl. lia.
Qed.

Lemma count_key_matched (k : key) (wR : nat) (L R : list (key * list cell)) :
  count_key k
    (flat_map (fun l =>
                 match filter (fun r => key_eqb (fst l) (fst r)) R with
                 | [] => [(fst l, snd l ++ nan_cells wR)]
                 | rs => map (fun r => (fst l, snd l ++ snd r)) rs
                 end) L)
  = (count_key k L * mult (count_key k R))%nat.
Proof.
  induction L as [|l L IH]; [reflexivity|].
  cbn [flat_map]. rewrite count_key_app, IH. clear IH.
  rewrite count_key_partners, count_key_cons.
  destruct (key_eqb k (fst l)) eqn:E; [|lia].
  apply key_eqb_eq in E. subst k. lia.
Qed.

Lemma count_key_right_only (k : key) (wL : nat) (L R : list (key * list cell)) :
  count_key k
    (map (fun r => (fst r, nan_cells wL ++ snd r))
         (filter (fun r => negb (has_key (fst r) L)) R))
  = if has_key k L then 0%nat else count_key k R.
Proof.
  unfold count_key. induction R as [|r R IH]; simpl.
  - destruct (has_key k L); reflexivity.
  - destruct (key_eqb k (fst r)) eqn:E.
    + apply key_eqb_eq in E. subst k.
      destruct (has_key (fst r) L) eqn:H; simpl.
      * exact IH.
      * rewrite key_eqb_refl. simpl. f_equal. exact IH.
    + destruct (has_key (fst r) L); simpl; [exact IH|].
      rewrite E. exact IH.
Qed.

Lemma count_key_merge (k : key) (L R : frame) :
  count_key k (rows (merge_outer L R))
  = if ((count_key k (rows L) + count_key k (rows R))%nat =? 0)%nat then 0%nat
    else (mult (count_key k (rows L)) * mult (count_key k (rows R)))%nat.
Proof.
  unfold merge_outer. cbn [rows].
  rewrite <- (count_key_perm k _ _ (sort_by_perm _ _)).
  rewrite count_key_app, count_key_matched, count_key_right_only.
  rewrite has_key_count. unfold mult.
  destruct (count_key k (rows L)) as [|a]; destruct (count_key k (rows R)) as [|b];
    simpl; lia.
Qed.

Lemma count_key_replace_inf (k : key) (df : frame) :
  count_key k (rows (replace_inf df)) = count_key k (rows df).
Proof.
  unfold replace_inf. cbn [rows]. unfold count_key.
  induction (rows df) as [|r rs IH]; simpl; [reflexivity|].
  destruct (key_eqb k (fst r)); simpl; [f_equal|]; exact IH.
Qed.

Lemma count_key_master (k : key) (ge cpl mod_ : frame) :
  count_key k (rows (AnalyzeMetrics.master ge cpl mod_))
  = if ((count_key k (rows ge) + count_key k (rows cpl)
         + count_key k (rows mod_))%nat =? 0)%nat then 0%nat
    else (mult (count_key k (rows ge)) * mult (count_key k (rows cpl))
          * mult (count_key k (rows mod_)))%nat.
Proof.
  unfold AnalyzeMetrics.master. rewrite count_key_replace_inf.
  rewrite count_key_merge, count_key_merge. unfold mult.
  destruct (count_key k (rows ge)) as [|a];
    destruct (count_key k (rows cpl)) as [|b];
    destruct (count_key k (rows mod_)) as [|c]; simpl; lia.
Qed.

Lemma has_key_intro (k : key) (cells : list cell) (rs : list (key * list cell)) :
  In (k, cells) rs -> has_key k rs = true.
Proof.
  intro H. unfold has_key. apply existsb_exists.
  exists (k, cells). split; [exact H|apply key_eqb_refl].
Qed.

Lemma has_key_no_partner (k : key) (rs : list (key * list cell)) :
  filter (fun r => key_eqb k (fst r)) rs = [] -> has_key k rs = false.
Proof.
  intro H. rewrite has_key_count. unfold count_key. rewrite H. reflexivity.
Qed.

Lemma has_key_merge (k : key) (L R : frame) :
  has_key k (rows (merge_outer L R)) = has_key k (rows L) || has_key k (rows R).
Proof.
  rewrite !has_key_count, count_key_merge. unfold mult.
  destruct (count_key k (rows L)) as [|a]; destruct (count_key k (rows R)) as [|b];
    reflexivity.
Qed.

Lemma merge_rows_sides (k : key) (cells : list cell) (L R : frame) :
  In (k, cells) (rows (merge_outer L R)) ->
  exists a b, cells = a ++ b /\ side L k a /\ side R k b.
Proof.
  unfold merge_outer. cbn [rows]. intro H.
  apply (Permutation_in _ (Permutation_sym (sort_by_perm _ _))) in H.
  apply in_app_or in H. destruct H as [H | H].
  - apply in_flat_map in H. destruct H as [[kl a] [Hl H]]. cbn [fst snd] in H.
    destruct (filter (fun r => key_eqb kl (fst r)) (rows R)) as [|r0 rs0] eqn:F.
    + destruct H as [H | []]. injection H as -> <-.
      exists a, (nan_cells (length (columns R))). split; [reflexivity|].
      unfold side. rewrite (has_key_intro _ _ _ Hl), (has_key_no_partner _ _ F).
      split; [exact Hl|reflexivity].
    + rewrite <- F in H. apply in_map_iff in H.
      destruct H as [[kr b] [H Hr]]. cbn [fst snd] in H. injection H as -> <-.
      apply filter_In in Hr. destruct Hr as [Hr E]. cbn [fst] in E.
      apply key_eqb_eq in E. subst kr.
      exists a, b. split; [reflexivity|].
      unfold side. rewrite (has_key_intro _ _ _ Hl), (has_key_intro _ _ _ Hr).
      split; assumption.
  - apply in_map_iff in H. destruct H as [[kr b] [H Hr]].
    cbn [fst snd] in H. injection H as -> <-.
    apply filter_In in Hr. destruct Hr as [Hr E]. cbn [fst] in E.
    apply negb_true_iff in E.
    exists (nan_cells (length (columns L))), b. split; [reflexivity|].
    unfold side. rewrite E, (has_key_intro _ _ _ Hr).
    split; [reflexivity|exact Hr].
Qed.

Lemma nan_cells_app (a b : nat) : nan_cells (a + b) = nan_cells a ++ nan_cells b.
Proof. unfold nan_cells. apply repeat_app. Qed.

Lemma merge_side_sides (k : key) (cells : list cell) (L R : frame) :
  side (merge_outer L R) k cells ->
  exists a b, cells = a ++ b /\ side L k a /\ side R k b.
Proof.
  unfold side at 1. rewrite has_key_merge.
  destruct (has_key k (rows L)) eqn:HL; destruct (has_key k (rows R)) eqn:HR;
    cbn [orb]; try apply merge_rows_sides.
  intros ->. cbn [merge_outer columns]. rewrite length_app, nan_cells_app.
  exists (nan_cells (length (columns L))), (nan_cells (length (columns R))).
  unfold side. rewrite HL, HR. auto.
Qed.

Lemma replace_inf_rows (k : key) (cells : list cell) (df : frame) :
  In (k, cells) (rows (replace_inf df)) ->
  exists c0, In (k, c0) (rows df) /\ cells = map replace_inf_cell c0.
Proof.
  unfold replace_inf. cbn [rows]. intro H. apply in_map_iff in H.
  destruct H as [[k0 c0] [H Hin]]. cbn [fst snd] in H. injection H as -> <-.
  exists c0. split; [exact Hin|reflexivity].
Qed.

Lemma replace_inf_cell_finite (c : cell) : is_inf (replace_inf_cell c) = false.
Proof. destruct c as [[q| | |]|s]; reflexivity. Qed.

Lemma replace_inf_no_inf (k : key) (cells : list cell) (df : frame) :
  In (k, cells) (rows (replace_inf df)) ->
  Forall (fun c => is_inf c = false) cells.
Proof.
  intro H. apply replace_inf_rows in H. destruct H as [c0 [_ ->]].
  apply Forall_forall. intros c Hc. apply in_map_iff in Hc.
  destruct Hc as [c1 [<- _]]. apply replace_inf_cell_finite.
Qed.

Lemma master_rows_sides (k : key) (cells : list cell) (ge cpl mod_ : frame) :
  In (k, cells) (rows (AnalyzeMetrics.master ge cpl mod_)) ->
  exists g c m,
    cells = g ++ c ++ m /\
    contributes ge k g /\ contributes cpl k c /\ contributes mod_ k m.
Proof.
  unfold AnalyzeMetrics.master. intro H.
  apply replace_inf_rows in H. destruct H as [c0 [H ->]].
  apply merge_rows_sides in H. destruct H as [ab [m [-> [Hab Hm]]]].
  apply merge_side_sides in Hab. destruct Hab as [a [b [-> [Ha Hb]]]].
  exists (map replace_inf_cell a), (map replace_inf_cell b),
         (map replace_inf_cell m).
  split; [rewrite <- app_assoc, !map_app; reflexivity|].
  split; [|split]; eexists; (split; [eassumption|reflexivity]).
Qed.

Lemma clustering_strength_rows_sides (k : key) (cells : list cell)
      (clu strn : frame) :
  In (k, cells) (rows (AnalyzeClusteringStrength.master clu strn)) ->
  exists c s,
    cells = c ++ s /\ contributes clu k c /\ contributes strn k s.
Proof.
  unfold AnalyzeClusteringStrength.master. intro H.
  apply replace_inf_rows in H. destruct H as [c0 [H ->]].
  apply merge_rows_sides in H. destruct H as [a [b [-> [Ha Hb]]]].
  exists (map replace_inf_cell a), (map replace_inf_cell b).
  split; [apply map_app|].
  split; eexists; (split; [eassumption|reflexivity]).
Qed.

(** C8, as the code has it. The master table is the outer join of the
    metric tables on (subject, method, group): a key present in at least one
    table appears in it, with as many rows as the product of its numbers of
    rows in the tables that contain it, hence exactly once when no table
    repeats it; the cells of a master row are those of rows of that key in
    the tables that have it and NaN for the tables that do not; and no cell
    of the master table is infinite.  The same holds for the two-table
    master of analyze_clustering_strength.py. *)
Theorem master_table_is_outer_join :
  forall (ge cpl mod_ : frame) (k : key),
    let a := count_key k (rows ge) in
    let b := count_key k (rows cpl) in
    let c := count_key k (rows mod_) in
    let master := AnalyzeMetrics.master ge cpl mod_ in
    count_key k (rows master)
    = (if ((a + b + c)%nat =? 0)%nat then 0 else mult a * mult b * mult c)%nat /\
    ((a <= 1)%nat -> (b <= 1)%nat -> (c <= 1)%nat -> (1 <= a + b + c)%nat ->
     count_key k (rows master) = 1%nat) /\
    (forall cells, In (k, cells) (rows master) ->
       (exists g c m,
          cells = g ++ c ++ m /\
          contributes ge k g /\ contributes cpl k c /\ contributes mod_ k m) /\
       Forall (fun x => is_inf x = false) cells) /\
    (let master2 := AnalyzeClusteringStrength.master ge cpl in
     count_key k (rows master2)
     = (if ((a + b)%nat =? 0)%nat then 0 else mult a * mult b)%nat /\
     forall cells, In (k, cells) (rows master2) ->
       (exists g c, cells = g ++ c /\ contributes ge k g /\ contributes cpl k c) /\
       Forall (fun x => is_inf x = false) cells).
Proof.
  intros ge cpl mod_ k a b c master.
  assert (Hcount : count_key k (rows master)
    = (if ((a + b + c)%nat =? 0)%nat then 0 else mult a * mult b * mult c)%nat)
    by apply count_key_master.
  split; [exact Hcount|]. split; [|split].
  - intros Ha Hb Hc Hsome. rewrite Hcount. unfold mult.
    destruct a as [|[|a]], b as [|[|b]], c as [|[|c]]; simpl in *; lia.
  - intros cells Hin. split.
    + apply master_rows_sides. exact Hin.
    + exact (replace_inf_no_inf _ _ _ Hin).
  - intro master2. split.
    + unfold master2, AnalyzeClusteringStrength.master.
      rewrite count_key_replace_inf. apply count_key_merge.
    + intros cells Hin. split.
      * apply clustering_strength_rows_sides. exact Hin.
      * exact (replace_inf_no_inf _ _ _ Hin).
Qed.

(** C8, as stated, fails: a key that a metric table holds twice is twice in
    the master table. *)
Lemma master_table_repeats_a_repeated_key :
  ~ (forall (ge cpl mod_ : frame) (k : key),
       has_key k (rows ge) || has_key k (rows cpl) || has_key k (rows mod_) = true ->
       count_key k (rows (AnalyzeMetrics.master ge cpl mod_)) = 1%nat).
Proof.
  intro H.
  set (k := ("INsIDER_C01"%string, "ACT"%string, Some "control"%string) : key).
  set (ge := {| columns := ["global_efficiency"%string];
                rows := [(k, [Num (Fin (1 # 2))]); (k, [Num (Fin (1 # 3))])] |}).
  set (cpl := {| columns := ["char_path_length"%string]; rows := [] |}).
  set (mod_ := {| columns := ["modularity_Q"%string]; rows := [] |}).
  specialize (H ge cpl mod_ k eq_refl). vm_compute in H. discriminate H.
Qed.

Lemma master_table_is_outer_join_witness :
  let k : key := ("INsIDER_C01"%string, "ACT"%string, Some "control"%string) in
  let ge := {| columns := ["global_efficiency"%string];
               rows := [(k, [Num PInf])] |} in
  let cpl := {| columns := ["char_path_length"%string]; rows := [] |} in
  let mod_ := {| columns := ["modularity_Q"%string];
                 rows := [(k, [Num (Fin (1 # 4))])] |} in
  count_key k (rows (AnalyzeMetrics.master ge cpl mod_)) = 1%nat.
Proof.
  intros k ge cpl mod_.
  apply (master_table_is_outer_join ge cpl mod_ k); vm_compute; lia.
Defined.

(** ** The sparsifiers *)

Lemma mask_select_map {A : Type} (f : A -> bool) (l : list A) :
  mask_select (map f l) l = filter f l.
Proof.
  induction l as [|x l IH]; simpl; [reflexivity|].
  destruct (f x); rewrite IH; reflexivity.
Qed.

Lemma filter_map_comm {A B : Type} (f : B -> bool) (g : A -> B) (l : list A) :
  filter f (map g l) = map g (filter (fun x => f (g x)) l).
Proof.
  induction l as [|x l IH]; simpl; [reflexivity|].
  destruct (f (g x)); simpl; rewrite IH; reflexivity.
Qed.

Lemma in_triu_indices (n i j : nat) :
  In (i, j) (triu_indices n) <-> (i < j)%nat /\ (j < n)%nat.
Proof.
  unfold triu_indices. rewrite in_flat_map. split.
  - intros [a [Ha Hin]]. apply in_seq in Ha. apply in_map_iff in Hin.
    destruct Hin as [b [E Hb]]. injection E as -> ->. apply in_seq in Hb. lia.
  - intros [Hij Hj]. exists i. split; [apply in_seq; lia|].
    apply in_map_iff. exists j. split; [reflexivity|]. apply in_seq. lia.
Qed.

Lemma NoDup_triu_indices (n : nat) : NoDup (triu_indices n).
Proof.
  unfold triu_indices.
  assert (H : forall l : list nat, NoDup l ->
            NoDup (flat_map (fun i => map (fun j => (i, j)) (seq (S i) (n - S i))) l)).
  { induction l as [|a l IH]; intro Hnd; simpl; [constructor|].
    inversion Hnd as [|? ? Hna Hnd']; subst.
    apply NoDup_app; [| apply IH; exact Hnd' |].
    - apply Finite.Injective_map_NoDup; [|apply seq_NoDup].
      intros x y E. injection E as ->. reflexivity.
    - intros [i j] Hin1 Hin2. apply in_map_iff in Hin1.
      destruct Hin1 as [b [E _]]. injection E as -> ->.
      apply in_flat_map in Hin2. destruct Hin2 as [a' [Ha' Hin2]].
      apply in_map_iff in Hin2. destruct Hin2 as [b' [E _]].
      injection E as ->. contradiction. }
  apply H. apply seq_NoDup.
Qed.

Lemma square_zeros_like (n : nat) (W : ndarray) :
  square n W -> square n (zeros_like W).
Proof. apply square_map. Qed.

Lemma zeros_like_cell (n : nat) (W : ndarray) (i j : nat) :
  square n W -> (i < n)%nat -> (j < n)%nat -> (zeros_like W)[@i, j] = 0.
Proof.
  intros Hsq Hi Hj. unfold zeros_like.
  rewrite (mget_map 0 0 _ n) by assumption. reflexivity.
Qed.

Lemma symmetrize_masked_cell (n : nat) (M : boolarray) (W : ndarray) (i j : nat) :
  square n W -> (i < n)%nat -> (j < n)%nat ->
  (symmetrize_masked M W)[@i, j] =
  if Nat.eqb i j then 0
  else Qmax (if mget false M i j then W[@i, j] else 0)
            (if mget false M j i then W[@j, i] else 0).
Proof.
  intros Hsq Hi Hj. unfold symmetrize_masked, fill_diagonal, np_maximum,
    transpose, np_where.
  rewrite !shape0_minit, (square_shape0 n W Hsq).
  rewrite mget_minit by assumption.
  destruct (Nat.eqb i j); [reflexivity|].
  rewrite !mget_minit by assumption. reflexivity.
Qed.

Lemma square_symmetrize_masked (n : nat) (M : boolarray) (W : ndarray) :
  square n W -> square n (symmetrize_masked M W).
Proof.
  intro Hsq. unfold symmetrize_masked, fill_diagonal, np_maximum, np_where.
  rewrite !shape0_minit, (square_shape0 n W Hsq). apply square_minit.
Qed.

Lemma Qmax_comm_eq (x y : Q) : Qmax x y == Qmax y x.
Proof. apply Q.max_comm. Qed.

Lemma symmetrize_masked_invariant (n : nat) (M : boolarray) (W : ndarray) :
  square n W ->
  square n (symmetrize_masked M W) /\
  symmetric n (symmetrize_masked M W) /\
  zero_diagonal n (symmetrize_masked M W).
Proof.
  intro Hsq. split; [apply square_symmetrize_masked; exact Hsq|]. split.
  - intros i j Hi Hj. rewrite !(symmetrize_masked_cell n) by assumption.
    rewrite (Nat.eqb_sym j i). destruct (Nat.eqb i j); [reflexivity|].
    apply Qmax_comm_eq.
  - intros i Hi. rewrite (symmetrize_masked_cell n) by assumption.
    rewrite Nat.eqb_refl. reflexivity.
Qed.

Lemma zeros_like_invariant (n : nat) (W : ndarray) :
  square n W ->
  square n (zeros_like W) /\ symmetric n (zeros_like W) /\
  zero_diagonal n (zeros_like W).
Proof.
  intro Hsq. split; [apply square_zeros_like; exact Hsq|]. split.
  - intros i j Hi Hj. rewrite !(zeros_like_cell n) by assumption. reflexivity.
  - intros i Hi. rewrite (zeros_like_cell n) by assumption. reflexivity.
Qed.

(** [np.partition(a, -k)[-k]] for [1 <= k <= len(a)] is the element of rank
    [len(a) - k] of the sorted array. *)
Lemma kth_largest_total (a : list Q) (k : Z) :
  (1 <= k <= Z.of_nat (length a))%Z ->
  exists kth,
    np_partition a (- k) = Some (QSort.sort a) /\
    py_getitem (QSort.sort a) (- k) = Some kth /\
    nth_error (QSort.sort a) (length a - Z.to_nat k) = Some kth.
Proof.
  intro Hk. unfold np_partition. cbv zeta.
  assert (E1 : ((- Z.of_nat (length a) <=? - k) && (- k <? Z.of_nat (length a)))%Z = true).
  { apply andb_true_iff. split; [apply Z.leb_le | apply Z.ltb_lt]; lia. }
  rewrite E1. unfold py_getitem. cbv zeta.
  assert (Hlen : length (QSort.sort a) = length a).
  { symmetry. apply Permutation_length. apply QSort.Permuted_sort. }
  rewrite Hlen.
  assert (E2 : ((0 <=? - k) && (- k <? Z.of_nat (length a)))%Z = false).
  { apply andb_false_iff. left. apply Z.leb_gt. lia. }
  assert (E4 : ((- Z.of_nat (length a) <=? - k) && (- k <? 0))%Z = true).
  { apply andb_true_iff. split; [apply Z.leb_le | apply Z.ltb_lt]; lia. }
  rewrite E2, E4.
  assert (E3 : Z.to_nat (Z.of_nat (length a) + - k) = (length a - Z.to_nat k)%nat) by lia.
  rewrite E3.
  destruct (nth_error (QSort.sort a) (length a - Z.to_nat k)) as [kth|] eqn:E.
  - exists kth. repeat split; reflexivity.
  - apply nth_error_None in E. lia.
Qed.

Lemma edge_budget_bounds (W : ndarray) (target : Q) :
  positive_pairs W <> [] ->
  (1 <= edge_budget W target <= Z.of_nat (length (positive_pairs W)))%Z.
Proof.
  intro Hne. unfold edge_budget.
  assert (0 < length (positive_pairs W))%nat
    by (destruct (positive_pairs W); [contradiction|simpl; lia]).
  lia.
Qed.

(** The function on a matrix with at least two nodes, after its early
    returns: either the zero matrix, or the masked and mirrored matrix of a
    mask that contains the top-weight mask. *)
Lemma threshold_to_target_density_cases (n : nat) (W : ndarray) (target : Q)
      (knn_k : Z) :
  square n W -> (2 <= n)%nat ->
  let avail := available_density W in
  let used := py_min target avail in
  (positive_pairs W = [] /\
   Sparsify.threshold_to_target_density W target knn_k
   = Some (zeros_like W, 0, avail)) \/
  (positive_pairs W <> [] /\ used <= 0 /\
   Sparsify.threshold_to_target_density W target knn_k
   = Some (zeros_like W, used, avail)) \/
  (positive_pairs W <> [] /\ 0 < used /\
   exists kth,
     nth_error (QSort.sort (map (weight_at W) (positive_pairs W)))
               (length (positive_pairs W) - Z.to_nat (edge_budget W target))
     = Some kth /\
     Sparsify.threshold_to_target_density W target knn_k
     = (M <- (if negb (knn_k =? 0)%Z && (0 <? knn_k)%Z
              then Sparsify.knn_loop W knn_k (top_mask n (kept_pairs W kth)) n
              else Some (top_mask n (kept_pairs W kth))) ;;
        Some (symmetrize_masked M W, used, avail))).
Proof.
  intros Hsq Hn avail used.
  unfold Sparsify.threshold_to_target_density. cbv zeta.
  rewrite (square_shape0 n W Hsq).
  assert (En : (n <? 2)%nat = false) by (apply Nat.ltb_ge; exact Hn).
  rewrite En.
  assert (Epos : mask_select
            (map (fun v : Q => Qltb 0 v)
                 (map (fun p : nat * nat => W[@fst p, snd p]) (triu_indices n)))
            (map (fun p : nat * nat => W[@fst p, snd p]) (triu_indices n))
          = map (weight_at W) (positive_pairs W)).
  { rewrite mask_select_map, filter_map_comm. unfold positive_pairs.
    rewrite (square_shape0 n W Hsq). reflexivity. }
  assert (Erc : mask_select
            (map (fun v : Q => Qltb 0 v)
                 (map (fun p : nat * nat => W[@fst p, snd p]) (triu_indices n)))
            (triu_indices n)
          = positive_pairs W).
  { rewrite map_map, mask_select_map. unfold positive_pairs.
    rewrite (square_shape0 n W Hsq). reflexivity. }
  rewrite Epos, Erc. rewrite length_map.
  assert (Etot : (0 <? Z.of_nat n * (Z.of_nat n - 1) / 2)%Z = true).
  { apply Z.ltb_lt. apply Z.div_str_pos. nia. }
  rewrite Etot.
  assert (Eav : inject_Z (Z.of_nat (length (positive_pairs W))) * 2
                / inject_Z (Z.of_nat n * (Z.of_nat n - 1)) = avail).
  { unfold avail, available_density. rewrite (square_shape0 n W Hsq). reflexivity. }
  rewrite Eav. fold used.
  destruct (positive_pairs W) as [|p0 ps] eqn:HP.
  - left. split; reflexivity.
  - right. rewrite <- HP in *.
    assert (Hne : positive_pairs W <> []) by (rewrite HP; discriminate).
    assert (Em : (length (positive_pairs W) =? 0)%nat = false).
    { apply Nat.eqb_neq. rewrite HP. discriminate. }
    rewrite Em.
    destruct (Qleb used 0) eqn:Eu.
    + left. apply Qleb_le in Eu. auto.
    + right. split; [exact Hne|]. split.
      { apply Qnot_le_lt. intro Hle. apply Qleb_le in Hle. congruence. }
      assert (Ek : Z.max 1
                (Z.min (Qfloor (used * inject_Z (Z.of_nat n * (Z.of_nat n - 1) / 2)))
                       (Z.of_nat (length (positive_pairs W))))
              = edge_budget W target).
      { unfold edge_budget, total_possible. rewrite (square_shape0 n W Hsq).
        reflexivity. }
      rewrite Ek.
      destruct (kth_largest_total (map (weight_at W) (positive_pairs W))
                  (edge_budget W target)) as [kth [Hpart [Hget Hnth]]].
      { rewrite length_map. apply edge_budget_bounds. exact Hne. }
      rewrite length_map in Hnth.
      exists kth. split; [exact Hnth|].
      rewrite Hpart. cbn [bind]. rewrite Hget. cbn [bind].
      rewrite map_map, mask_select_map. reflexivity.
Qed.

(** *** The k-NN loop *)

Lemma length_list_set {A : Type} (l : list A) (i : nat) (v : A) :
  length (list_set l i v) = length l.
Proof.
  revert i. induction l as [|x l IH]; intros [|i]; simpl; try reflexivity.
  rewrite IH. reflexivity.
Qed.

Lemma nth_list_set {A : Type} (l : list A) (i j : nat) (v d : A) :
  (i < length l)%nat ->
  nth j (list_set l i v) d = if Nat.eqb j i then v else nth j l d.
Proof.
  revert i j. induction l as [|x l IH]; intros i j Hi; simpl in Hi; [lia|].
  destruct i as [|i], j as [|j]; simpl; try reflexivity.
  apply IH. lia.
Qed.

Lemma length_idx_sort (l : list (nat * Q)) :
  length (IdxSort.sort l) = length l.
Proof. symmetry. apply Permutation_length, IdxSort.Permuted_sort. Qed.

Lemma knn_row_eq (W : ndarray) (knn_k : Z) (M : boolarray) (i : nat) :
  (0 < knn_k)%Z ->
  Sparsify.knn_row W knn_k M i =
  Some (if (length (positive_neighbors W i) =? 0)%nat then M
        else set_col_true (set_row_true M i (top_neighbors W knn_k i))
                          (top_neighbors W knn_k i) i).
Proof.
  intro Hk. unfold Sparsify.knn_row. cbv zeta.
  fold (positive_neighbors W i).
  destruct (length (positive_neighbors W i) =? 0)%nat eqn:E; [reflexivity|].
  apply Nat.eqb_neq in E.
  unfold np_argpartition. cbv zeta. rewrite length_map.
  set (k := Z.min knn_k (Z.of_nat (length (positive_neighbors W i)))).
  assert (Hb : ((- Z.of_nat (length (positive_neighbors W i)) <=? - k)
                && (- k <? Z.of_nat (length (positive_neighbors W i))))%Z = true).
  { apply andb_true_iff. split; [apply Z.leb_le | apply Z.ltb_lt]; lia. }
  rewrite Hb. cbn [bind]. unfold top_neighbors. cbv zeta.
  rewrite length_map. reflexivity.
Qed.

Lemma top_neighbors_isolated (W : ndarray) (knn_k : Z) (i : nat) :
  length (positive_neighbors W i) = 0%nat -> top_neighbors W knn_k i = [].
Proof.
  intro H. unfold top_neighbors. cbv zeta.
  apply length_zero_iff_nil in H. rewrite H. cbn [map length seq combine].
  change (IdxSort.sort []) with (@nil (nat * Q)). cbn [map].
  unfold py_slice_from. cbv zeta.
  match goal with
  | |- context [if ?c then _ else _] => destruct c
  end; rewrite skipn_nil; reflexivity.
Qed.

Lemma knn_row_cell (n : nat) (W : ndarray) (knn_k : Z) (M : boolarray) (i : nat) :
  (0 < knn_k)%Z -> shape0 M = n ->
  exists M',
    Sparsify.knn_row W knn_k M i = Some M' /\ shape0 M' = n /\
    forall a b, (a < n)%nat -> (b < n)%nat ->
      mget false M' a b = mget false M a b || knn_marks W knn_k i a b.
Proof.
  intros Hk Hn. rewrite (knn_row_eq W knn_k M i Hk).
  eexists. split; [reflexivity|].
  destruct (length (positive_neighbors W i) =? 0)%nat eqn:E.
  - split; [exact Hn|]. intros a b Ha Hb. apply Nat.eqb_eq in E.
    unfold knn_marks. rewrite (top_neighbors_isolated W knn_k i E). simpl.
    rewrite andb_false_r, !orb_false_r. reflexivity.
  - unfold set_col_true, set_row_true. rewrite !shape0_minit, Hn.
    split; [reflexivity|]. intros a b Ha Hb.
    rewrite !mget_minit by assumption. unfold knn_marks.
    rewrite orb_assoc. reflexivity.
Qed.

Lemma knn_fold_none (W : ndarray) (knn_k : Z) (l : list nat) :
  fold_left (fun acc i => M <- acc ;; Sparsify.knn_row W knn_k M i) l None = None.
Proof. induction l as [|i l IH]; simpl; [reflexivity|exact IH]. Qed.

Lemma knn_fold_cell (n : nat) (W : ndarray) (knn_k : Z) (l : list nat)
      (M : boolarray) :
  (0 < knn_k)%Z -> shape0 M = n ->
  exists M',
    fold_left (fun acc i => M <- acc ;; Sparsify.knn_row W knn_k M i) l (Some M)
    = Some M' /\ shape0 M' = n /\
    forall a b, (a < n)%nat -> (b < n)%nat ->
      mget false M' a b
      = mget false M a b || existsb (fun i => knn_marks W knn_k i a b) l.
Proof.
  intros Hk. revert M. induction l as [|i l IH]; intros M Hn.
  - exists M. split; [reflexivity|]. split; [exact Hn|].
    intros a b _ _. simpl. rewrite orb_false_r. reflexivity.
  - destruct (knn_row_cell n W knn_k M i Hk Hn) as [M1 [Hrow [Hn1 Hcell1]]].
    destruct (IH M1 Hn1) as [M' [Hfold [Hn' Hcell']]].
    exists M'. split; [|split; [exact Hn'|]].
    + cbn [fold_left bind]. rewrite Hrow. exact Hfold.
    + intros a b Ha Hb. rewrite (Hcell' a b Ha Hb), (Hcell1 a b Ha Hb).
      cbn [existsb]. rewrite orb_assoc. reflexivity.
Qed.

Lemma shape0_top_mask (n : nat) (kept : list (nat * nat)) :
  shape0 (top_mask n kept) = n.
Proof.
  unfold top_mask, fill_diagonal, or_transpose, set_true_at.
  rewrite !shape0_minit. reflexivity.
Qed.

Lemma top_mask_cell (n : nat) (kept : list (nat * nat)) (i j : nat) :
  (i < n)%nat -> (j < n)%nat ->
  mget false (top_mask n kept) i j
  = if Nat.eqb i j then false
    else existsb (pair_eqb (i, j)) kept || existsb (pair_eqb (j, i)) kept.
Proof.
  intros Hi Hj. unfold top_mask, fill_diagonal, or_transpose, set_true_at.
  rewrite !shape0_minit. rewrite mget_minit by assumption.
  destruct (Nat.eqb i j); [reflexivity|].
  rewrite !mget_minit by assumption. reflexivity.
Qed.

(** The function always returns, and what it returns is the zero matrix or
    a masked and mirrored copy of its argument. *)
Lemma threshold_to_target_density_returns (n : nat) (W : ndarray) (target : Q)
      (knn_k : Z) :
  square n W ->
  exists U used avail,
    Sparsify.threshold_to_target_density W target knn_k = Some (U, used, avail) /\
    (U = zeros_like W \/ exists M, U = symmetrize_masked M W).
Proof.
  intro Hsq. destruct (Nat.lt_ge_cases n 2) as [Hn | Hn].
  - unfold Sparsify.threshold_to_target_density. cbv zeta.
    rewrite (square_shape0 n W Hsq).
    assert (En : (n <? 2)%nat = true) by (apply Nat.ltb_lt; exact Hn).
    rewrite En. do 3 eexists. split; [reflexivity|]. left. reflexivity.
  - destruct (threshold_to_target_density_cases n W target knn_k Hsq Hn)
      as [[_ H] | [[_ [_ H]] | [_ [_ [kth [_ H]]]]]].
    + do 3 eexists. split; [exact H|]. left. reflexivity.
    + do 3 eexists. split; [exact H|]. left. reflexivity.
    + rewrite H. clear H.
      destruct (negb (knn_k =? 0)%Z && (0 <? knn_k)%Z) eqn:Ek.
      * apply andb_true_iff in Ek. destruct Ek as [_ Ek]. apply Z.ltb_lt in Ek.
        destruct (knn_fold_cell n W knn_k (seq 0 n)
                    (top_mask n (kept_pairs W kth)) Ek (shape0_top_mask _ _))
          as [M' [Hfold _]].
        unfold Sparsify.knn_loop. rewrite Hfold. cbn [bind].
        do 3 eexists. split; [reflexivity|]. right. eexists. reflexivity.
      * cbn [bind]. do 3 eexists. split; [reflexivity|].
        right. eexists. reflexivity.
Qed.

(** *** The invariant: square, symmetric, zero diagonal *)

Lemma symmetric_everywhere (n : nat) (W : ndarray) :
  square n W -> symmetric n W -> forall i j, W[@i, j] == W[@j, i].
Proof.
  intros Hsq Hsym i j.
  assert (Hout : forall a b, (n <= a)%nat \/ (n <= b)%nat -> W[@a, b] = 0).
  { intros a b Hab. unfold mget.
    destruct (Nat.lt_ge_cases a n) as [Ha | Ha].
    - apply nth_overflow. rewrite (square_row n W a Hsq Ha). lia.
    - rewrite (nth_overflow W) by (destruct Hsq as [Hl _]; lia).
      destruct b; reflexivity. }
  destruct (Nat.lt_ge_cases i n) as [Hi | Hi];
    destruct (Nat.lt_ge_cases j n) as [Hj | Hj];
    try (apply Hsym; assumption);
    rewrite (Hout i j), (Hout j i) by lia; reflexivity.
Qed.

Lemma np_ix_cell (W : ndarray) (idx : list nat) (a b : nat) :
  (a < length idx)%nat -> (b < length idx)%nat ->
  (np_ix W idx)[@a, b] = W[@nth a idx O, nth b idx O].
Proof.
  intros Ha Hb. unfold np_ix, mget at 1.
  set (g := fun x : nat => map (fun y : nat => W[@x, y]) idx).
  rewrite (nth_indep _ [] (g O)) by (rewrite length_map; exact Ha).
  rewrite (map_nth g). unfold g.
  rewrite (nth_indep _ 0 ((fun y => W[@nth a idx O, y]) O))
    by (rewrite length_map; exact Hb).
  rewrite (map_nth (fun y => W[@nth a idx O, y])). reflexivity.
Qed.

Lemma square_np_ix (W : ndarray) (idx : list nat) :
  square (length idx) (np_ix W idx).
Proof.
  unfold np_ix. split; [apply length_map|].
  apply Forall_forall. intros r Hr. apply in_map_iff in Hr.
  destruct Hr as [a [<- _]]. apply length_map.
Qed.

Lemma np_ix_invariant (n : nat) (W : ndarray) (idx : list nat) :
  invariant n W -> invariant (length idx) (np_ix W idx).
Proof.
  intros [Hsq [Hsym Hzd]]. split; [apply square_np_ix|]. split.
  - intros a b Ha Hb. rewrite !np_ix_cell by assumption.
    apply (symmetric_everywhere n W Hsq Hsym).
  - intros a Ha. rewrite np_ix_cell by assumption.
    destruct (Nat.lt_ge_cases (nth a idx O) n) as [Hlt | Hge].
    + apply Hzd. exact Hlt.
    + unfold mget. rewrite (nth_overflow W) by (destruct Hsq as [Hl _]; lia).
      destruct (nth a idx O); reflexivity.
Qed.

Lemma np_div_invariant (n : nat) (W : ndarray) (m : Q) :
  invariant n W -> invariant n (np_div W m).
Proof.
  intros [Hsq [Hsym Hzd]]. unfold np_div. split; [apply square_map; exact Hsq|].
  split.
  - intros i j Hi Hj. rewrite !(mget_map 0 0 _ n) by assumption.
    rewrite (Hsym i j Hi Hj). reflexivity.
  - intros i Hi. rewrite (mget_map 0 0 _ n) by assumption.
    rewrite (Hzd i Hi). unfold Qdiv. apply Qmult_0_l.
Qed.

Lemma maybe_normalize_invariant (n : nat) (W : ndarray) (enable : bool) (U : ndarray) :
  invariant n W -> Modularity.maybe_normalize W enable = Some U -> invariant n U.
Proof.
  intros Hinv. unfold Modularity.maybe_normalize.
  destruct enable; simpl; [|intro H; injection H as <-; exact Hinv].
  destruct (np_max W) as [m|]; simpl; [|discriminate].
  intro H. injection H as <-.
  destruct (Qltb 0 m); [apply np_div_invariant|]; exact Hinv.
Qed.

Lemma maybe_normalize_returns (n : nat) (W : ndarray) (enable : bool) :
  square n W -> (0 < n)%nat -> exists U, Modularity.maybe_normalize W enable = Some U.
Proof.
  intros Hsq Hn. unfold Modularity.maybe_normalize.
  destruct enable; simpl; [|eexists; reflexivity].
  assert (Hin : In W[@O, O] (concat W)).
  { apply in_concat. exists (nth O W []). split.
    - apply nth_In. destruct Hsq as [Hl _]. lia.
    - unfold mget. apply nth_In. rewrite (square_row n W O Hsq Hn). exact Hn. }
  destruct (np_max_some W _ Hin) as [m Hm]. rewrite Hm. simpl.
  eexists. reflexivity.
Qed.

Lemma zeros_like_inv (n : nat) (W : ndarray) :
  square n W -> invariant n (zeros_like W).
Proof. apply zeros_like_invariant. Qed.

Lemma symmetrize_masked_inv (n : nat) (M : boolarray) (W : ndarray) :
  square n W -> invariant n (symmetrize_masked M W).
Proof. apply symmetrize_masked_invariant. Qed.

Lemma threshold_proportional_invariant (n : nat) (W : ndarray) (p : option Q)
      (U : ndarray) :
  invariant n W -> Sparsify.threshold_proportional W p = Some U -> invariant n U.
Proof.
  intros Hinv. assert (Hsq : square n W) by apply Hinv.
  unfold Sparsify.threshold_proportional.
  destruct p as [p|]; [|intro H; injection H as <-; exact Hinv].
  cbv zeta.
  match goal with |- context [(?k <=? 0)%Z] => destruct (k <=? 0)%Z end.
  - intro H. injection H as <-. apply zeros_like_inv. exact Hsq.
  - match goal with |- context [np_partition ?a ?k] =>
      destruct (np_partition a k) as [part|] end; cbn [bind]; [|discriminate].
    match goal with |- context [py_getitem ?a ?k] =>
      destruct (py_getitem a k) as [thr|] end; cbn [bind]; [|discriminate].
    intro H. injection H as <-.
    apply (symmetrize_masked_inv n _ W Hsq).
Qed.

Lemma threshold_proportional_returns (n : nat) (W : ndarray) (p : Q) :
  p <= 1 -> exists U, Sparsify.threshold_proportional W (Some p) = Some U.
Proof.
  intro Hp. unfold Sparsify.threshold_proportional. cbv zeta.
  set (vals := map (fun rc : nat * nat => W[@fst rc, snd rc])
                   (triu_indices (shape0 W))).
  set (k := Qfloor (p * inject_Z (Z.of_nat (length vals)))).
  destruct (k <=? 0)%Z eqn:Ek; [eexists; reflexivity|].
  apply Z.leb_gt in Ek.
  assert (Hk : (k <= Z.of_nat (length vals))%Z).
  { unfold k. rewrite <- (Qfloor_Z (Z.of_nat (length vals))) at 2.
    apply Qfloor_resp_le.
    rewrite <- (Qmult_1_l (inject_Z (Z.of_nat (length vals)))) at 2.
    apply Qmult_le_compat_r; [exact Hp|].
    change 0 with (inject_Z 0). rewrite <- Zle_Qle. lia. }
  destruct (kth_largest_total vals k) as [thr [Hpart [Hget _]]]; [lia|].
  rewrite Hpart. cbn [bind]. rewrite Hget. cbn [bind].
  eexists. reflexivity.
Qed.

Lemma largest_component_submatrix_cases (W : ndarray) :
  Components.largest_component_submatrix W = (W, seq 0 (shape0 W)) \/
  exists idx, Components.largest_component_submatrix W = (np_ix W idx, idx).
Proof.
  unfold Components.largest_component_submatrix. cbv zeta.
  match goal with |- context [if ?c then _ else _] => destruct c end;
    [left; reflexivity|].
  match goal with |- context [connected_components ?G] =>
    destruct (connected_components G) as [|c [|c' cs]] end;
    [left; reflexivity | left; reflexivity|].
  right. eexists. reflexivity.
Qed.

(** C6. On a square, symmetric matrix with a zero diagonal, each
    preprocessing operation returns a matrix that is square, symmetric and
    has a zero diagonal: threshold_proportional (which returns for every
    proportion up to 1, and for None), threshold_to_target_density with
    and without the k-NN backbone (which always returns), maybe_normalize
    (which returns on a matrix that has an entry) and
    largest_component_submatrix. *)
Theorem preprocessing_preserves_symmetry_and_zero_diagonal :
  forall (n : nat) (W : ndarray),
    invariant n W ->
    (forall p U, Sparsify.threshold_proportional W p = Some U -> invariant n U) /\
    Sparsify.threshold_proportional W None = Some W /\
    (forall p, p <= 1 ->
       exists U, Sparsify.threshold_proportional W (Some p) = Some U) /\
    (forall target knn_k,
       exists U used avail,
         Sparsify.threshold_to_target_density W target knn_k
         = Some (U, used, avail) /\ invariant n U) /\
    (forall enable U,
       Modularity.maybe_normalize W enable = Some U -> invariant n U) /\
    (forall enable, (0 < n)%nat ->
       exists U, Modularity.maybe_normalize W enable = Some U) /\
    invariant (length (snd (Components.largest_component_submatrix W)))
              (fst (Components.largest_component_submatrix W)).
Proof.
  intros n W Hinv. assert (Hsq : square n W) by apply Hinv.
  split; [|split; [|split; [|split; [|split; [|split]]]]].
  - intros p U. apply threshold_proportional_invariant. exact Hinv.
  - reflexivity.
  - intros p Hp. apply (threshold_proportional_returns n). exact Hp.
  - intros target knn_k.
    destruct (threshold_to_target_density_returns n W target knn_k Hsq)
      as [U [used [avail [H [-> | [M ->]]]]]].
    + do 3 eexists. split; [exact H|]. apply zeros_like_inv. exact Hsq.
    + do 3 eexists. split; [exact H|]. apply symmetrize_masked_inv. exact Hsq.
  - intros enable U. apply maybe_normalize_invariant. exact Hinv.
  - intros enable Hn. apply (maybe_normalize_returns n); assumption.
  - destruct (largest_component_submatrix_cases W) as [-> | [idx ->]]; simpl.
    + rewrite length_seq, (square_shape0 n W Hsq). exact Hinv.
    + apply (np_ix_invariant n). exact Hinv.
Qed.

Lemma preprocessing_preserves_symmetry_and_zero_diagonal_witness :
  let W : ndarray := [[0; 5; 1; 2]; [5; 0; 3; 0]; [1; 3; 0; 4]; [2; 0; 4; 0]] in
  exists U used avail,
    Sparsify.threshold_to_target_density W (1 # 3) 2 = Some (U, used, avail) /\
    invariant 4 U.
Proof.
  intro W.
  assert (Hinv : invariant 4 W).
  { split; [split; [reflexivity | repeat constructor]|].
    split.
    - intros i j Hi Hj.
      destruct i as [|[|[|[|i]]]]; [| | | |lia];
        destruct j as [|[|[|[|j]]]]; try lia; reflexivity.
    - intros i Hi. destruct i as [|[|[|[|i]]]]; [| | | |lia]; reflexivity. }
  destruct (preprocessing_preserves_symmetry_and_zero_diagonal 4 W Hinv)
    as [_ [_ [_ [H _]]]].
  exact (H (1 # 3) 2%Z).
Defined.

(** *** The density of the thresholded matrix *)

Lemma filter_length_perm {A : Type} (f : A -> bool) (l l' : list A) :
  Permutation l l' -> length (filter f l) = length (filter f l').
Proof.
  intro H. induction H as [| x l l' _ IH | x y l | l l' l'' _ IH1 _ IH2].
  - reflexivity.
  - simpl. destruct (f x); simpl; lia.
  - simpl. destruct (f x), (f y); reflexivity.
  - lia.
Qed.

Lemma filter_andb {A : Type} (f g : A -> bool) (l : list A) :
  filter (fun x => f x && g x) l = filter g (filter f l).
Proof.
  induction l as [|x l IH]; simpl; [reflexivity|].
  destruct (f x); simpl; [destruct (g x)|]; rewrite IH; reflexivity.
Qed.

Lemma filter_all {A : Type} (f : A -> bool) (l : list A) :
  (forall x, In x l -> f x = true) -> filter f l = l.
Proof.
  induction l as [|x l IH]; intro H; simpl; [reflexivity|].
  rewrite (H x (or_introl eq_refl)), IH; [reflexivity|].
  intros y Hy. apply H. right. exact Hy.
Qed.

Lemma pair_eqb_eq (p q : nat * nat) : pair_eqb p q = true <-> p = q.
Proof.
  destruct p as [a b], q as [c d]. unfold pair_eqb. simpl.
  rewrite andb_true_iff, !Nat.eqb_eq. split.
  - intros [-> ->]. reflexivity.
  - intro H. injection H as -> ->. auto.
Qed.

Lemma existsb_pair_In (p : nat * nat) (l : list (nat * nat)) :
  existsb (pair_eqb p) l = true <-> In p l.
Proof.
  rewrite existsb_exists. split.
  - intros [q [Hq E]]. apply pair_eqb_eq in E. subst. exact Hq.
  - intro H. exists p. split; [exact H|]. apply pair_eqb_eq. reflexivity.
Qed.

Lemma in_positive_pairs (n : nat) (W : ndarray) (i j : nat) :
  square n W ->
  In (i, j) (positive_pairs W) <-> (i < j)%nat /\ (j < n)%nat /\ 0 < W[@i, j].
Proof.
  intro Hsq. unfold positive_pairs. rewrite (square_shape0 n W Hsq).
  rewrite filter_In, in_triu_indices. unfold weight_at. simpl.
  rewrite Qltb_lt. tauto.
Qed.

Lemma in_kept_pairs (n : nat) (W : ndarray) (kth : Q) (i j : nat) :
  square n W ->
  In (i, j) (kept_pairs W kth) <->
  (i < j)%nat /\ (j < n)%nat /\ 0 < W[@i, j] /\ kth <= W[@i, j].
Proof.
  intro Hsq. unfold kept_pairs. rewrite filter_In, (in_positive_pairs n W i j Hsq).
  unfold weight_at. simpl. rewrite Qleb_le. tauto.
Qed.

(** Above the diagonal, a cell of the thresholded matrix is positive
    exactly when its pair is kept. *)
Lemma thresholded_cell_positive (n : nat) (W : ndarray) (kth : Q) (i j : nat) :
  square n W -> (i < j)%nat -> (j < n)%nat ->
  Qltb 0 (symmetrize_masked (top_mask n (kept_pairs W kth)) W)[@i, j]
  = existsb (pair_eqb (i, j)) (kept_pairs W kth).
Proof.
  intros Hsq Hij Hj.
  rewrite (symmetrize_masked_cell n) by (try assumption; lia).
  assert (Eij : Nat.eqb i j = false) by (apply Nat.eqb_neq; lia).
  assert (Eji : Nat.eqb j i = false) by (apply Nat.eqb_neq; lia).
  rewrite Eij. rewrite !top_mask_cell by lia. rewrite Eij, Eji.
  assert (Hrev : existsb (pair_eqb (j, i)) (kept_pairs W kth) = false).
  { destruct (existsb (pair_eqb (j, i)) (kept_pairs W kth)) eqn:E; [|reflexivity].
    apply existsb_pair_In in E. apply (in_kept_pairs n W kth j i Hsq) in E. lia. }
  rewrite Hrev, orb_false_r, orb_false_l.
  destruct (existsb (pair_eqb (i, j)) (kept_pairs W kth)) eqn:E.
  - apply existsb_pair_In in E. apply (in_kept_pairs n W kth i j Hsq) in E.
    destruct E as [_ [_ [Hpos _]]]. apply Qltb_lt.
    eapply Qlt_le_trans; [exact Hpos|]. apply Q.le_max_l.
  - reflexivity.
Qed.

Lemma count_thresholded (n : nat) (W : ndarray) (kth : Q) :
  square n W ->
  count_triu_positive (symmetrize_masked (top_mask n (kept_pairs W kth)) W)
  = length (kept_pairs W kth).
Proof.
  intro Hsq. unfold count_triu_positive.
  rewrite (square_shape0 n _ (square_symmetrize_masked n _ W Hsq)).
  rewrite (filter_ext_in _
             (fun p => Qltb 0 (weight_at W p) && Qleb kth (weight_at W p))).
  - rewrite filter_andb. unfold kept_pairs, positive_pairs.
    rewrite (square_shape0 n W Hsq). reflexivity.
  - intros [i j] Hin. apply in_triu_indices in Hin. destruct Hin as [Hij Hj].
    cbn [fst snd]. rewrite (thresholded_cell_positive n W kth i j Hsq Hij Hj).
    unfold weight_at. cbn [fst snd].
    destruct (existsb (pair_eqb (i, j)) (kept_pairs W kth)) eqn:E.
    + apply existsb_pair_In in E. apply (in_kept_pairs n W kth i j Hsq) in E.
      destruct E as [_ [_ [Hpos Hk]]].
      apply Qltb_lt in Hpos. apply Qleb_le in Hk. rewrite Hpos, Hk. reflexivity.
    + destruct (Qltb 0 W[@i, j] && Qleb kth W[@i, j]) eqn:E2; [|reflexivity].
      apply andb_true_iff in E2. destruct E2 as [Hpos Hk].
      apply Qltb_lt in Hpos. apply Qleb_le in Hk.
      assert (Hin : In (i, j) (kept_pairs W kth))
        by (apply (in_kept_pairs n W kth i j Hsq); auto).
      apply existsb_pair_In in Hin. congruence.
Qed.

Lemma count_zeros_like (n : nat) (W : ndarray) :
  square n W -> count_triu_positive (zeros_like W) = 0%nat.
Proof.
  intro Hsq. unfold count_triu_positive.
  rewrite (square_shape0 n _ (square_zeros_like n W Hsq)).
  rewrite (filter_ext_in _ (fun _ => false)).
  - induction (triu_indices n) as [|p l IH]; [reflexivity|exact IH].
  - intros [i j] Hin. apply in_triu_indices in Hin. cbn [fst snd].
    rewrite (zeros_like_cell n) by (try assumption; lia). reflexivity.
Qed.

Lemma length_kept_le (W : ndarray) (kth : Q) :
  (length (kept_pairs W kth) <= length (positive_pairs W))%nat.
Proof. unfold kept_pairs. apply filter_length_le. Qed.

Lemma Qle_bool_transitive :
  Transitive (fun x y : Q => is_true (Qle_bool x y)).
Proof.
  intros x y z Hxy Hyz. unfold is_true in *.
  apply Qle_bool_iff in Hxy, Hyz. apply Qle_bool_iff.
  eapply Qle_trans; eassumption.
Qed.

(** In a sorted list without repeated values, the elements at or above the
    one of rank [i] are those from position [i] on. *)
Lemma sorted_count_from (s : list Q) (i : nat) (kth : Q) :
  StronglySorted (fun x y => is_true (Qle_bool x y)) s ->
  (forall x, length (filter (Qeq_bool x) s) <= 1)%nat ->
  nth_error s i = Some kth ->
  length (filter (Qleb kth) s) = (length s - i)%nat.
Proof.
  intro Hs. revert i. induction Hs as [|x s Hs IH Hx]; intros i Hd Hn.
  - destruct i; discriminate.
  - rewrite Forall_forall in Hx. destruct i as [|i].
    + cbn in Hn. injection Hn as <-. cbn [length]. rewrite Nat.sub_0_r.
      rewrite (filter_all (Qleb x) (x :: s)); [reflexivity|].
      intros y [<- | Hy].
      * apply Qleb_le, Qle_refl.
      * apply Hx. exact Hy.
    + cbn in Hn. cbn [filter length].
      assert (Hkin : In kth s) by (eapply nth_error_In; exact Hn).
      assert (Hle : x <= kth) by (apply Qle_bool_iff, Hx; exact Hkin).
      assert (Hneq : Qleb kth x = false).
      { destruct (Qleb kth x) eqn:E; [|reflexivity]. apply Qleb_le in E.
        assert (Eq : x == kth) by (apply Qle_antisym; assumption).
        specialize (Hd x). cbn [filter] in Hd.
        rewrite (proj2 (Qeq_bool_iff x x) (Qeq_refl x)) in Hd. cbn [length] in Hd.
        assert (Hpos : (0 < length (filter (Qeq_bool x) s))%nat).
        { destruct (filter (Qeq_bool x) s) eqn:F; [|simpl; lia].
          assert (Hf : In kth (filter (Qeq_bool x) s)).
          { apply filter_In. split; [exact Hkin|]. apply Qeq_bool_iff. exact Eq. }
          rewrite F in Hf. destruct Hf. }
        lia. }
      rewrite Hneq. apply IH; [|exact Hn].
      intro y. specialize (Hd y). cbn [filter] in Hd.
      destruct (Qeq_bool y x); cbn [length] in Hd; lia.
Qed.

Lemma distinct_weights_once (n : nat) (W : ndarray) (x : Q) :
  square n W -> distinct_positive_weights W ->
  (length (filter (Qeq_bool x) (map (weight_at W) (positive_pairs W))) <= 1)%nat.
Proof.
  intros Hsq Hd. rewrite filter_map_comm, length_map.
  assert (Hnd : NoDup (filter (fun p => Qeq_bool x (weight_at W p))
                              (positive_pairs W))).
  { apply NoDup_filter. unfold positive_pairs. apply NoDup_filter.
    apply NoDup_triu_indices. }
  destruct (filter (fun p => Qeq_bool x (weight_at W p)) (positive_pairs W))
    as [|p [|q l]] eqn:F; simpl; try lia.
  exfalso.
  assert (Hp : In p (p :: q :: l)) by (left; reflexivity).
  assert (Hq : In q (p :: q :: l)) by (right; left; reflexivity).
  rewrite <- F in Hp, Hq. apply filter_In in Hp, Hq.
  destruct Hp as [Hp Ep], Hq as [Hq Eq]. apply Qeq_bool_iff in Ep, Eq.
  assert (E : p = q) by (apply Hd; try assumption; rewrite <- Ep, <- Eq; reflexivity).
  subst q. inversion Hnd as [|? ? Hnin _]; subst. apply Hnin. left. reflexivity.
Qed.

(** With pairwise distinct positive weights, the threshold keeps exactly
    [k] pairs. *)
Lemma length_kept_distinct (n : nat) (W : ndarray) (k : nat) (kth : Q) :
  square n W -> distinct_positive_weights W ->
  nth_error (QSort.sort (map (weight_at W) (positive_pairs W)))
            (length (positive_pairs W) - k) = Some kth ->
  (1 <= k <= length (positive_pairs W))%nat ->
  length (kept_pairs W kth) = k.
Proof.
  intros Hsq Hd Hn Hk.
  set (vals := map (weight_at W) (positive_pairs W)) in *.
  assert (Hperm : Permutation vals (QSort.sort vals)) by apply QSort.Permuted_sort.
  assert (E : length (kept_pairs W kth) = length (filter (Qleb kth) vals)).
  { unfold vals, kept_pairs. rewrite filter_map_comm, length_map. reflexivity. }
  rewrite E, (filter_length_perm _ _ _ Hperm).
  rewrite (sorted_count_from _ (length (positive_pairs W) - k) kth).
  - rewrite <- (Permutation_length Hperm). unfold vals. rewrite length_map. lia.
  - apply QSort.StronglySorted_sort. exact Qle_bool_transitive.
  - intro x. rewrite <- (filter_length_perm _ _ _ Hperm).
    apply (distinct_weights_once n); assumption.
  - exact Hn.
Qed.

Lemma density_unfold (n : nat) (U : ndarray) :
  square n U -> (2 <= n)%nat ->
  Sparsify.density U
  = 2 * inject_Z (Z.of_nat (count_triu_positive U))
    / inject_Z (Z.of_nat n * (Z.of_nat n - 1)).
Proof.
  intros Hsq Hn. unfold Sparsify.density. cbv zeta.
  rewrite (square_shape0 n U Hsq).
  assert (E : (n <? 2)%nat = false) by (apply Nat.ltb_ge; exact Hn).
  rewrite E. reflexivity.
Qed.

Lemma pairs_positive (n : nat) :
  (2 <= n)%nat -> 0 < inject_Z (Z.of_nat n * (Z.of_nat n - 1)).
Proof.
  intro Hn. change 0 with (inject_Z 0). rewrite <- Zlt_Qlt. nia.
Qed.

Lemma twice_total_possible (n : nat) :
  (2 * total_possible n = Z.of_nat n * (Z.of_nat n - 1))%Z.
Proof.
  unfold total_possible.
  assert (H : exists q, (Z.of_nat n * (Z.of_nat n - 1) = q * 2)%Z).
  { destruct (Z.Even_or_Odd (Z.of_nat n)) as [[m Hm] | [m Hm]].
    - exists (m * (2 * m - 1))%Z. rewrite Hm. ring.
    - exists (m * (2 * m + 1))%Z. rewrite Hm. ring. }
  destruct H as [q Hq]. rewrite Hq, Z.div_mul by lia. ring.
Qed.

Lemma density_monotone (n : nat) (U W : ndarray) :
  square n U -> square n W -> (2 <= n)%nat ->
  (count_triu_positive U <= count_triu_positive W)%nat ->
  Sparsify.density U <= Sparsify.density W.
Proof.
  intros HU HW Hn Hle. rewrite !(density_unfold n) by assumption.
  apply Qle_shift_div_l; [apply pairs_positive; exact Hn|].
  unfold Qdiv. rewrite <- Qmult_assoc.
  rewrite (Qmult_comm (/ _)), Qmult_inv_r, Qmult_1_r.
  - apply Qmult_le_l; [reflexivity|]. rewrite <- Zle_Qle. lia.
  - intro E. pose proof (pairs_positive n Hn) as P. rewrite E in P.
    exact (Qlt_irrefl 0 P).
Qed.

Lemma available_density_is_density (n : nat) (W : ndarray) :
  square n W -> (2 <= n)%nat -> available_density W == Sparsify.density W.
Proof.
  intros Hsq Hn. rewrite (density_unfold n) by assumption.
  unfold available_density. rewrite (square_shape0 n W Hsq).
  change (count_triu_positive W) with (length (positive_pairs W)).
  unfold Qdiv. rewrite (Qmult_comm _ 2). reflexivity.
Qed.

Lemma available_edges (n : nat) (W : ndarray) :
  square n W -> (2 <= n)%nat ->
  available_density W * inject_Z (total_possible n)
  == inject_Z (Z.of_nat (length (positive_pairs W))).
Proof.
  intros Hsq Hn. unfold available_density. rewrite (square_shape0 n W Hsq).
  rewrite <- (twice_total_possible n), inject_Z_mult.
  assert (Hpos : 0 < inject_Z (total_possible n)).
  { change 0 with (inject_Z 0). rewrite <- Zlt_Qlt.
    pose proof (twice_total_possible n). nia. }
  field. intro E. rewrite E in Hpos. exact (Qlt_irrefl 0 Hpos).
Qed.

Lemma py_min_le_l (a b : Q) : py_min a b <= a.
Proof.
  unfold py_min. destruct (Qltb b a) eqn:E.
  - apply Qltb_lt in E. apply Qlt_le_weak. exact E.
  - apply Qle_refl.
Qed.

Lemma py_min_cases (a b : Q) : py_min a b = a \/ py_min a b = b.
Proof. unfold py_min. destruct (Qltb b a); auto. Qed.

(** The number of edges asked for exceeds what the target allows by less
    than one edge. *)
Lemma edge_budget_within_one (n : nat) (W : ndarray) (d : Q) :
  square n W -> 0 < d ->
  inject_Z (edge_budget W d) <= d * inject_Z (total_possible n) + 1.
Proof.
  intros Hsq Hd. unfold edge_budget. rewrite (square_shape0 n W Hsq).
  set (used := py_min d (available_density W)).
  set (T := inject_Z (total_possible n)).
  assert (HT : 0 <= T).
  { unfold T. change 0 with (inject_Z 0). rewrite <- Zle_Qle.
    unfold total_possible. apply Z.div_pos; [nia|lia]. }
  assert (HdT : 0 <= d * T)
    by (apply Qmult_le_0_compat; [apply Qlt_le_weak; exact Hd|exact HT]).
  assert (Hused : used * T <= d * T).
  { apply Qmult_le_compat_r; [apply py_min_le_l|exact HT]. }
  pose proof (Qfloor_le (used * T)) as Hfl.
  destruct (Z.max_spec 1 (Z.min (Qfloor (used * T))
                                (Z.of_nat (length (positive_pairs W)))))
    as [[_ ->] | [_ ->]].
  - apply (Qle_trans _ (inject_Z (Qfloor (used * T))));
      [rewrite <- Zle_Qle; apply Z.le_min_l|].
    apply (Qle_trans _ (used * T)); [exact Hfl|].
    apply (Qle_trans _ (d * T)); [exact Hused|].
    rewrite <- (Qplus_0_r (d * T)) at 1.
    apply Qplus_le_compat; [apply Qle_refl|discriminate].
  - rewrite <- (Qplus_0_l (inject_Z 1)).
    apply Qplus_le_compat; [exact HdT|apply Qle_refl].
Qed.

(** The density of [k] edges among [n] nodes, against a target met up to
    one edge. *)
Lemma density_within_one_edge (n : nat) (k : Z) (d : Q) :
  (2 <= n)%nat ->
  inject_Z k <= d * inject_Z (total_possible n) + 1 ->
  2 * inject_Z k / inject_Z (Z.of_nat n * (Z.of_nat n - 1))
  <= d + 2 / inject_Z (Z.of_nat n * (Z.of_nat n - 1)).
Proof.
  intros Hn Hk. pose proof (pairs_positive n Hn) as Hpos.
  set (N := inject_Z (Z.of_nat n * (Z.of_nat n - 1))) in *.
  assert (HN : N == 2 * inject_Z (total_possible n)).
  { unfold N. rewrite <- (twice_total_possible n), inject_Z_mult. reflexivity. }
  assert (Hne : ~ N == 0)
    by (intro E; rewrite E in Hpos; exact (Qlt_irrefl 0 Hpos)).
  apply Qle_shift_div_r; [exact Hpos|].
  assert (E : (d + 2 / N) * N == 2 * (d * inject_Z (total_possible n) + 1)).
  { rewrite Qmult_plus_distr_l. unfold Qdiv.
    rewrite <- (Qmult_assoc 2 (/ N) N), (Qmult_comm (/ N) N),
      (Qmult_inv_r N Hne), HN. ring. }
  rewrite E. apply Qmult_le_l; [reflexivity|exact Hk].
Qed.

(** C2, as the code has it. For a square matrix W on n >= 2 nodes and a
    target d > 0, threshold_to_target_density(W, d, knn_k=0) returns a
    matrix whose edge density is at most the density of the positive edges
    of W; when the positive weights above the diagonal are pairwise
    distinct it is also at most d + 2/(n(n-1)): the target is exceeded by
    less than the share of one edge. *)
Theorem thresholded_density_is_bounded :
  forall (n : nat) (W : ndarray) (d : Q),
    square n W -> (2 <= n)%nat -> 0 < d ->
    exists U used avail,
      Sparsify.threshold_to_target_density W d 0 = Some (U, used, avail) /\
      avail == Sparsify.density W /\
      Sparsify.density U <= Sparsify.density W /\
      (distinct_positive_weights W ->
       Sparsify.density U
       <= d + 2 / inject_Z (Z.of_nat n * (Z.of_nat n - 1))).
Proof.
  intros n W d Hsq Hn Hd.
  pose proof (available_density_is_density n W Hsq Hn) as Hav.
  assert (Hzero : Sparsify.density (zeros_like W) == 0).
  { rewrite (density_unfold n) by (try apply square_zeros_like; assumption).
    rewrite (count_zeros_like n W Hsq). reflexivity. }
  assert (Hzle : Sparsify.density (zeros_like W) <= Sparsify.density W).
  { apply (density_monotone n); try assumption;
      [apply square_zeros_like; exact Hsq|].
    rewrite (count_zeros_like n W Hsq). lia. }
  assert (Hbound : 0 <= d + 2 / inject_Z (Z.of_nat n * (Z.of_nat n - 1))).
  { rewrite <- (Qplus_0_l 0) at 1. apply Qplus_le_compat.
    - apply Qlt_le_weak. exact Hd.
    - apply Qle_shift_div_l; [apply pairs_positive; exact Hn|].
      rewrite Qmult_0_l. discriminate. }
  destruct (threshold_to_target_density_cases n W d 0 Hsq Hn)
    as [[_ H] | [[_ [_ H]] | [Hne [Hused [kth [Hnth H]]]]]].
  - do 3 eexists. split; [exact H|]. split; [exact Hav|]. split; [exact Hzle|].
    intros _. rewrite Hzero. exact Hbound.
  - do 3 eexists. split; [exact H|]. split; [exact Hav|]. split; [exact Hzle|].
    intros _. rewrite Hzero. exact Hbound.
  - cbn [Z.eqb negb andb bind] in H.
    do 3 eexists. split; [exact H|]. split; [exact Hav|].
    set (U := symmetrize_masked (top_mask n (kept_pairs W kth)) W).
    assert (HU : square n U) by (apply square_symmetrize_masked; exact Hsq).
    assert (Hcount : count_triu_positive U = length (kept_pairs W kth))
      by (apply count_thresholded; exact Hsq).
    split.
    + apply (density_monotone n); try assumption.
      rewrite Hcount. apply length_kept_le.
    + intros Hdist.
      pose proof (edge_budget_bounds W d Hne) as Hb.
      assert (Hlen : length (kept_pairs W kth) = Z.to_nat (edge_budget W d)).
      { apply (length_kept_distinct n); try assumption. lia. }
      rewrite (density_unfold n U HU Hn), Hcount, Hlen.
      rewrite Z2Nat.id by lia.
      apply (density_within_one_edge n _ d Hn).
      apply (edge_budget_within_one n W d Hsq Hd).
Qed.

Lemma thresholded_density_is_bounded_witness :
  let W : ndarray := [[0; 5; 1; 2]; [5; 0; 3; 0]; [1; 3; 0; 4]; [2; 0; 4; 0]] in
  exists U used avail,
    Sparsify.threshold_to_target_density W (1 # 3) 0 = Some (U, used, avail) /\
    avail == Sparsify.density W /\
    Sparsify.density U <= Sparsify.density W /\
    (distinct_positive_weights W ->
     Sparsify.density U <= (1 # 3) + 2 / inject_Z (Z.of_nat 4 * (Z.of_nat 4 - 1))).
Proof.
  intro W.
  apply (thresholded_density_is_bounded 4 W (1 # 3)).
  - split; [reflexivity | repeat constructor].
  - lia.
  - reflexivity.
Defined.

(** C2, as stated, fails: the function keeps at least one edge, whatever
    the target. One edge among three nodes is a density of 1/3; with the
    target 1/10 the result still has that edge. *)
Lemma thresholded_density_exceeds_small_target :
  let W : ndarray := [[0; 1; 0]; [1; 0; 0]; [0; 0; 0]] in
  let d := 1 # 10 in
  cleaned 3 W /\ 0 < d /\ d <= 1 /\
  exists U used avail,
    Sparsify.threshold_to_target_density W d 0 = Some (U, used, avail) /\
    ~ Sparsify.density U <= Qmin d (Sparsify.density W).
Proof.
  intros W d. split; [|split; [reflexivity|split; [discriminate|]]].
  - split; [split; [reflexivity | repeat constructor]|].
    split; [|split].
    + intros i j Hi Hj.
      destruct i as [|[|[|i]]]; [| | |lia];
        destruct j as [|[|[|j]]]; try lia; reflexivity.
    + intros i Hi. destruct i as [|[|[|i]]]; [| | |lia]; reflexivity.
    + intros i j Hi Hj.
      destruct i as [|[|[|i]]]; [| | |lia];
        destruct j as [|[|[|j]]]; try lia; discriminate.
  - do 3 eexists. split; [vm_compute; reflexivity|].
    vm_compute. intro H. apply H. reflexivity.
Qed.

(** The function also keeps every weight tied with the threshold: with
    three equal weights and a target of one half, all three edges stay. *)
Lemma thresholded_density_keeps_ties :
  let W : ndarray := [[0; 1; 1]; [1; 0; 1]; [1; 1; 0]] in
  exists U used avail,
    Sparsify.threshold_to_target_density W (1 # 2) 0 = Some (U, used, avail) /\
    Sparsify.density U == 1.
Proof.
  intro W. do 3 eexists. split; [vm_compute; reflexivity|]. reflexivity.
Qed.

(** *** The k-NN backbone *)

Lemma row_without_self (n : nat) (W : ndarray) (i j : nat) :
  square n W -> (i < n)%nat ->
  nth j (list_set (nth i W []) i 0) 0 = if Nat.eqb j i then 0 else W[@i, j].
Proof.
  intros Hsq Hi. rewrite nth_list_set by (rewrite (square_row n W i Hsq Hi); exact Hi).
  reflexivity.
Qed.

Lemma in_positive_neighbors (n : nat) (W : ndarray) (i j : nat) :
  square n W -> (i < n)%nat ->
  In j (positive_neighbors W i) <-> (j < n)%nat /\ j <> i /\ 0 < W[@i, j].
Proof.
  intros Hsq Hi. unfold positive_neighbors. cbv zeta.
  rewrite filter_In, in_seq, length_list_set, (square_row n W i Hsq Hi).
  rewrite (row_without_self n W i j Hsq Hi).
  destruct (Nat.eqb j i) eqn:E.
  - apply Nat.eqb_eq in E. subst j. split.
    + intros [_ H]. discriminate H.
    + intros [_ [H _]]. contradiction.
  - apply Nat.eqb_neq in E. rewrite Qltb_lt. split.
    + intros [[_ Hj] Hp]. auto.
    + intros [Hj [_ Hp]]. split; [lia|exact Hp].
Qed.

Lemma NoDup_positive_neighbors (W : ndarray) (i : nat) :
  NoDup (positive_neighbors W i).
Proof. unfold positive_neighbors. apply NoDup_filter, seq_NoDup. Qed.

Lemma map_fst_combine_seq {B : Type} (vals : list B) (s : nat) :
  map fst (combine (seq s (length vals)) vals) = seq s (length vals).
Proof.
  revert s. induction vals as [|v vals IH]; intro s; simpl; [reflexivity|].
  rewrite IH. reflexivity.
Qed.

Lemma in_combine_seq {B : Type} (vals : list B) (s a : nat) (v d : B) :
  In (a, v) (combine (seq s (length vals)) vals) ->
  (s <= a < s + length vals)%nat /\ v = nth (a - s) vals d.
Proof.
  revert s. induction vals as [|x vals IH]; intro s; simpl; [intros []|].
  intros [E | Hin].
  - injection E as <- <-. rewrite Nat.sub_diag. split; [lia|reflexivity].
  - destruct (IH (S s) Hin) as [Hr Hv]. split; [lia|].
    replace (a - s)%nat with (S (a - S s)) by lia. exact Hv.
Qed.

Lemma StronglySorted_app_le {A : Type} (R : A -> A -> Prop) (l1 l2 : list A) :
  StronglySorted R (l1 ++ l2) ->
  forall x y, In x l1 -> In y l2 -> R x y.
Proof.
  induction l1 as [|a l1 IH]; simpl; intros Hs x y Hx Hy; [destruct Hx|].
  inversion Hs as [|? ? Hs' Hall]; subst. destruct Hx as [<- | Hx].
  - rewrite Forall_forall in Hall. apply Hall. apply in_or_app. right. exact Hy.
  - apply IH; assumption.
Qed.

Lemma idx_leb_transitive :
  Transitive (fun x y : nat * Q => is_true (IdxOrder.leb x y)).
Proof.
  intros x y z Hxy Hyz. unfold is_true, IdxOrder.leb in *.
  apply Qle_bool_iff in Hxy, Hyz. apply Qle_bool_iff.
  eapply Qle_trans; eassumption.
Qed.

Section TopNeighbors.
Variables (n : nat) (W : ndarray) (knn_k : Z) (i : nat).
Hypothesis Hsq : square n W.
Hypothesis Hi : (i < n)%nat.
Hypothesis Hk : (1 <= knn_k)%Z.

Let wi := list_set (nth i W []) i 0.
Let nz := positive_neighbors W i.
Let vals := map (fun j => nth j wi 0) nz.
Let sorted := IdxSort.sort (combine (seq 0 (length vals)) vals).
Let k := Nat.min (Z.to_nat knn_k) (length nz).
Let cut := (length nz - k)%nat.

Lemma top_neighbors_eq :
  top_neighbors W knn_k i
  = map (fun a => nth a nz O) (map fst (skipn cut sorted)).
Proof.
  unfold top_neighbors. cbv zeta. fold wi nz vals sorted.
  f_equal. unfold py_slice_from. cbv zeta.
  assert (Hlen : length (map fst sorted) = length nz).
  { unfold sorted. rewrite length_map, length_idx_sort, length_combine,
      length_seq. unfold vals. rewrite length_map. lia. }
  rewrite Hlen.
  destruct (- Z.min knn_k (Z.of_nat (length nz)) <? 0)%Z eqn:E.
  - replace (Z.to_nat (Z.max 0 (Z.of_nat (length nz)
                                + - Z.min knn_k (Z.of_nat (length nz)))))
      with cut by (unfold cut, k; lia).
    apply skipn_map.
  - apply Z.ltb_ge in E.
    assert (H0 : length nz = 0%nat) by lia.
    assert (Hs : sorted = []).
    { apply length_zero_iff_nil. rewrite <- Hlen in H0.
      rewrite length_map in H0. exact H0. }
    rewrite Hs. cbn [map]. rewrite !skipn_nil. reflexivity.
Qed.

Lemma length_sorted : length sorted = length nz.
Proof.
  unfold sorted. rewrite length_idx_sort, length_combine, length_seq.
  unfold vals. rewrite length_map. lia.
Qed.

Lemma sorted_entry (a : nat) (v : Q) :
  In (a, v) sorted ->
  (a < length nz)%nat /\ In (nth a nz O) nz /\ v = W[@i, nth a nz O].
Proof.
  intro Hin.
  apply (Permutation_in _ (Permutation_sym (IdxSort.Permuted_sort _))) in Hin.
  apply (in_combine_seq vals 0 a v 0) in Hin. destruct Hin as [Ha Hv].
  assert (HaL : (a < length nz)%nat)
    by (unfold vals in Ha; rewrite length_map in Ha; lia).
  assert (Hnz : In (nth a nz O) nz) by (apply nth_In; exact HaL).
  split; [exact HaL|]. split; [exact Hnz|].
  rewrite Nat.sub_0_r in Hv. rewrite Hv. unfold vals.
  rewrite (nth_indep _ 0 ((fun j => nth j wi 0) O))
    by (rewrite length_map; exact HaL).
  rewrite (map_nth (fun j => nth j wi 0)). unfold wi.
  rewrite (row_without_self n W i _ Hsq Hi).
  apply (in_positive_neighbors n W i _ Hsq Hi) in Hnz.
  destruct Hnz as [_ [Hne _]]. apply Nat.eqb_neq in Hne. rewrite Hne.
  reflexivity.
Qed.

Lemma order_perm : Permutation (seq 0 (length nz)) (map fst sorted).
Proof.
  assert (E : seq 0 (length nz) = map fst (combine (seq 0 (length vals)) vals)).
  { rewrite map_fst_combine_seq. unfold vals. rewrite length_map. reflexivity. }
  rewrite E. apply Permutation_map. apply IdxSort.Permuted_sort.
Qed.

Lemma NoDup_top_indices : NoDup (map fst (skipn cut sorted)).
Proof.
  assert (Hnd : NoDup (map fst sorted)).
  { eapply Permutation_NoDup; [apply order_perm|apply seq_NoDup]. }
  rewrite <- (firstn_skipn cut sorted), map_app in Hnd.
  apply NoDup_app_remove_l in Hnd. exact Hnd.
Qed.

Lemma top_index_bound (a : nat) :
  In a (map fst (skipn cut sorted)) -> (a < length nz)%nat.
Proof.
  intro Hin. apply in_map_iff in Hin. destruct Hin as [[a' v] [E Hin]].
  cbn [fst] in E. subst a'.
  assert (Hs : In (a, v) sorted).
  { rewrite <- (firstn_skipn cut sorted). apply in_or_app. right. exact Hin. }
  apply sorted_entry in Hs. apply Hs.
Qed.

Lemma NoDup_top_neighbors : NoDup (top_neighbors W knn_k i).
Proof.
  rewrite top_neighbors_eq.
  apply Finite.Injective_map_NoDup_in; [|apply NoDup_top_indices].
  intros a b Ha Hb E. apply top_index_bound in Ha, Hb.
  apply (proj1 (NoDup_nth nz O) (NoDup_positive_neighbors W i)); assumption.
Qed.

Lemma length_top_neighbors : length (top_neighbors W knn_k i) = k.
Proof.
  rewrite top_neighbors_eq, !length_map, length_skipn, length_sorted.
  unfold cut, k. lia.
Qed.

Lemma top_neighbors_incl (j : nat) :
  In j (top_neighbors W knn_k i) -> In j nz.
Proof.
  rewrite top_neighbors_eq. intro Hin. apply in_map_iff in Hin.
  destruct Hin as [a [<- Ha]]. apply nth_In. apply top_index_bound. exact Ha.
Qed.

Lemma top_neighbors_heaviest (j j' : nat) :
  In j (top_neighbors W knn_k i) -> In j' nz ->
  ~ In j' (top_neighbors W knn_k i) ->
  W[@i, j'] <= W[@i, j].
Proof.
  rewrite top_neighbors_eq. intros Hj Hj' Hnot.
  apply in_map_iff in Hj. destruct Hj as [a [<- Ha]].
  apply in_map_iff in Ha. destruct Ha as [[a0 v] [E Hav]].
  cbn [fst] in E. subst a0.
  destruct (In_nth nz j' O Hj') as [a' [Ha' Hnth]].
  assert (Hin' : In a' (map fst sorted)).
  { apply (Permutation_in _ order_perm). apply in_seq. lia. }
  apply in_map_iff in Hin'. destruct Hin' as [[a0 v'] [E Hav']].
  cbn [fst] in E. subst a0.
  assert (Hsplit : In (a', v') (firstn cut sorted)
                   \/ In (a', v') (skipn cut sorted)).
  { apply in_app_or. rewrite firstn_skipn. exact Hav'. }
  destruct Hsplit as [Hfirst | Hlast].
  - assert (Hs : StronglySorted (fun x y => is_true (IdxOrder.leb x y))
                   (firstn cut sorted ++ skipn cut sorted)).
    { rewrite firstn_skipn. apply IdxSort.StronglySorted_sort.
      exact idx_leb_transitive. }
    pose proof (StronglySorted_app_le _ _ _ Hs _ _ Hfirst Hav) as Hle.
    unfold is_true, IdxOrder.leb in Hle. cbn [snd] in Hle.
    apply Qle_bool_iff in Hle.
    assert (Hv : In (a, v) sorted).
    { rewrite <- (firstn_skipn cut sorted). apply in_or_app. right. exact Hav. }
    destruct (sorted_entry a v Hv) as [_ [_ ->]].
    destruct (sorted_entry a' v' Hav') as [_ [_ ->]].
    rewrite Hnth in Hle. exact Hle.
  - exfalso. apply Hnot. apply in_map_iff. exists a'. split; [exact Hnth|].
    apply in_map_iff. exists (a', v'). split; [reflexivity|exact Hlast].
Qed.
End TopNeighbors.

Lemma knn_marks_row (W : ndarray) (knn_k : Z) (i j : nat) :
  In j (top_neighbors W knn_k i) ->
  knn_marks W knn_k i i j = true /\ knn_marks W knn_k i j i = true.
Proof.
  intro Hin. assert (Hm : mem j (top_neighbors W knn_k i) = true).
  { unfold mem. apply existsb_exists. exists j. split; [exact Hin|].
    apply Nat.eqb_refl. }
  unfold knn_marks. rewrite Hm, Nat.eqb_refl. split.
  - reflexivity.
  - apply orb_true_r.
Qed.

Lemma available_density_positive (n : nat) (W : ndarray) :
  square n W -> (2 <= n)%nat -> positive_pairs W <> [] ->
  0 < available_density W.
Proof.
  intros Hsq Hn Hne. unfold available_density. rewrite (square_shape0 n W Hsq).
  apply Qlt_shift_div_l; [apply pairs_positive; exact Hn|].
  rewrite Qmult_0_l.
  assert (Hm : (0 < Z.of_nat (length (positive_pairs W)))%Z)
    by (destruct (positive_pairs W); [contradiction|simpl length; lia]).
  rewrite Zlt_Qlt in Hm. change (inject_Z 0) with 0 in Hm.
  apply (Qmult_lt_0_compat _ 2); [exact Hm|reflexivity].
Qed.

Lemma neighbor_gives_pair (n : nat) (W : ndarray) (i j : nat) :
  square n W -> symmetric n W ->
  (i < n)%nat -> (j < n)%nat -> j <> i -> 0 < W[@i, j] ->
  positive_pairs W <> [].
Proof.
  intros Hsq Hsym Hi Hj Hne Hpos.
  assert (Hin : In (Nat.min i j, Nat.max i j) (positive_pairs W)).
  { apply (in_positive_pairs n W _ _ Hsq).
    split; [lia|]. split; [lia|].
    destruct (Nat.lt_ge_cases i j) as [Hlt | Hge].
    - rewrite Nat.min_l, Nat.max_r by lia. exact Hpos.
    - rewrite Nat.min_r, Nat.max_l by lia. rewrite (Hsym j i Hj Hi). exact Hpos. }
  intro E. rewrite E in Hin. destruct Hin.
Qed.

(** C4, as the code has it. For a clean matrix W, a target d > 0 and
    k >= 1, threshold_to_target_density(W, d, knn_k=k) returns a matrix in
    which every node i with a positive neighbour keeps its edges to
    min(k, number of positive neighbours) distinct neighbours, with their
    weights, and no positive neighbour left out of that selection is
    heavier than a selected one (which of several equally heavy neighbours
    is selected is left open); so row i of the result has at least that
    many positive entries. *)
Theorem knn_backbone_keeps_top_neighbors :
  forall (n : nat) (W : ndarray) (d : Q) (knn_k : Z) (i : nat),
    cleaned n W -> 0 < d -> (1 <= knn_k)%Z -> (i < n)%nat ->
    (exists j, (j < n)%nat /\ j <> i /\ 0 < W[@i, j]) ->
    exists U used avail,
      Sparsify.threshold_to_target_density W d knn_k = Some (U, used, avail) /\
      let nbrs := positive_neighbors W i in
      (forall j, In j nbrs <-> (j < n)%nat /\ j <> i /\ 0 < W[@i, j]) /\
      (exists top : list nat,
         NoDup top /\
         length top = Nat.min (Z.to_nat knn_k) (length nbrs) /\
         (forall j, In j top ->
            In j nbrs /\ U[@i, j] == W[@i, j] /\ U[@j, i] == W[@i, j] /\
            0 < U[@i, j]) /\
         (forall j j', In j top -> In j' nbrs -> ~ In j' top ->
            W[@i, j'] <= W[@i, j])) /\
      (Nat.min (Z.to_nat knn_k) (length nbrs) <= positive_degree n U i)%nat.
Proof.
  intros n W d knn_k i [Hsq [Hsym [Hzd Hnn]]] Hd Hk Hi [j0 [Hj0 [Hne0 Hpos0]]].
  assert (Hn : (2 <= n)%nat) by lia.
  assert (Hpairs : positive_pairs W <> [])
    by (apply (neighbor_gives_pair n W i j0); assumption).
  assert (Hused : 0 < py_min d (available_density W)).
  { destruct (py_min_cases d (available_density W)) as [-> | ->];
      [exact Hd | apply (available_density_positive n); assumption]. }
  destruct (threshold_to_target_density_cases n W d knn_k Hsq Hn)
    as [[E _] | [[_ [Hle _]] | [_ [_ [kth [_ H]]]]]].
  - contradiction.
  - exfalso. exact (Qlt_not_le _ _ Hused Hle).
  - assert (Ek : negb (knn_k =? 0)%Z && (0 <? knn_k)%Z = true).
    { apply andb_true_iff. split; [apply negb_true_iff, Z.eqb_neq | apply Z.ltb_lt];
        lia. }
    rewrite Ek in H.
    destruct (knn_fold_cell n W knn_k (seq 0 n) (top_mask n (kept_pairs W kth)))
      as [M [Hfold [_ Hcell]]]; [lia | apply shape0_top_mask|].
    unfold Sparsify.knn_loop in H. rewrite Hfold in H. cbn [bind] in H.
    exists (symmetrize_masked M W). do 2 eexists. split; [exact H|].
    cbv zeta.
    assert (Htop : forall j, In j (top_neighbors W knn_k i) ->
              In j (positive_neighbors W i) /\
              (symmetrize_masked M W)[@i, j] == W[@i, j] /\
              (symmetrize_masked M W)[@j, i] == W[@i, j] /\
              0 < (symmetrize_masked M W)[@i, j]).
    { intros j Hj.
      assert (Hnb : In j (positive_neighbors W i))
        by (apply (top_neighbors_incl n W knn_k i Hsq Hi Hk); exact Hj).
      split; [exact Hnb|].
      apply (in_positive_neighbors n W i j Hsq Hi) in Hnb.
      destruct Hnb as [Hjn [Hji Hpos]].
      destruct (knn_marks_row W knn_k i j Hj) as [Hm1 Hm2].
      assert (Hin_i : In i (seq 0 n)) by (apply in_seq; lia).
      assert (HMij : mget false M i j = true).
      { rewrite (Hcell i j Hi Hjn). apply orb_true_iff. right.
        apply existsb_exists. exists i. split; assumption. }
      assert (HMji : mget false M j i = true).
      { rewrite (Hcell j i Hjn Hi). apply orb_true_iff. right.
        apply existsb_exists. exists i. split; assumption. }
      assert (Eij : Nat.eqb i j = false) by (apply Nat.eqb_neq; lia).
      assert (Eji : Nat.eqb j i = false) by (apply Nat.eqb_neq; lia).
      assert (Hcell_ij : (symmetrize_masked M W)[@i, j] == W[@i, j]).
      { rewrite (symmetrize_masked_cell n) by assumption.
        rewrite Eij, HMij, HMji. rewrite (Hsym j i Hjn Hi).
        apply Q.max_id. }
      assert (Hcell_ji : (symmetrize_masked M W)[@j, i] == W[@i, j]).
      { rewrite (symmetrize_masked_cell n) by assumption.
        rewrite Eji, HMij, HMji. rewrite (Hsym j i Hjn Hi).
        apply Q.max_id. }
      split; [exact Hcell_ij|]. split; [exact Hcell_ji|].
      rewrite Hcell_ij. exact Hpos. }
    split; [intro j; apply (in_positive_neighbors n W i j Hsq Hi)|].
    split.
    { exists (top_neighbors W knn_k i).
      split; [apply (NoDup_top_neighbors n W knn_k i Hsq Hi Hk)|].
      split; [apply (length_top_neighbors n W knn_k i Hi Hk)|].
      split; [exact Htop|].
      intros j j'. apply (top_neighbors_heaviest n W knn_k i Hsq Hi Hk). }
    rewrite <- (length_top_neighbors n W knn_k i Hi Hk).
    unfold positive_degree. apply NoDup_incl_length.
    + apply (NoDup_top_neighbors n W knn_k i Hsq Hi Hk).
    + intros j Hj. destruct (Htop j Hj) as [Hnb [_ [_ Hp]]].
      apply (in_positive_neighbors n W i j Hsq Hi) in Hnb.
      apply filter_In. split; [apply in_seq; lia|]. apply Qltb_lt. exact Hp.
Qed.

Lemma cleanedb_sound (n : nat) (W : ndarray) :
  cleanedb n W = true -> cleaned n W.
Proof.
  unfold cleanedb. rewrite !andb_true_iff, !forallb_forall.
  intros [[Hlen Hrows] Hcells]. apply Nat.eqb_eq in Hlen.
  split; [split; [exact Hlen|]|].
  - apply Forall_forall. intros r Hr. apply Nat.eqb_eq. apply Hrows. exact Hr.
  - assert (Hc : forall i j, (i < n)%nat -> (j < n)%nat ->
               W[@i, i] == 0 /\ W[@i, j] == W[@j, i] /\ 0 <= W[@i, j]).
    { intros i j Hi Hj.
      assert (Hini : In i (seq 0 n)) by (apply in_seq; lia).
      assert (Hinj : In j (seq 0 n)) by (apply in_seq; lia).
      specialize (Hcells i Hini). apply andb_true_iff in Hcells.
      destruct Hcells as [Hd Hrow]. rewrite forallb_forall in Hrow.
      specialize (Hrow j Hinj). apply andb_true_iff in Hrow.
      destruct Hrow as [Hs Hp].
      split; [apply Qeq_bool_iff; exact Hd|].
      split; [apply Qeq_bool_iff; exact Hs | apply Qle_bool_iff; exact Hp]. }
    split; [|split].
    + intros i j Hi Hj. apply (Hc i j Hi Hj).
    + intros i Hi. apply (Hc i i Hi Hi).
    + intros i j Hi Hj. apply (Hc i j Hi Hj).
Qed.

Lemma knn_backbone_keeps_top_neighbors_witness :
  exists U used avail,
    Sparsify.threshold_to_target_density W_four (1 # 3) 2 = Some (U, used, avail) /\
    (2 <= positive_degree 4 U 0)%nat.
Proof.
  destruct (knn_backbone_keeps_top_neighbors 4 W_four (1 # 3) 2 0)
    as [U [used [avail [H [_ [_ Hdeg]]]]]].
  - apply cleanedb_sound. reflexivity.
  - reflexivity.
  - lia.
  - lia.
  - exists 1%nat. split; [lia|]. split; [discriminate|reflexivity].
  - exists U, used, avail. split; [exact H|]. exact Hdeg.
Defined.

(** C4, as stated, fails for a target that is not positive: the function
    returns the zero matrix before it reaches the k-NN loop. *)
Lemma knn_backbone_absent_for_zero_target :
  cleaned 2 W_pair /\ 0 < W_pair[@0, 1] /\
  exists U used avail,
    Sparsify.threshold_to_target_density W_pair 0 1 = Some (U, used, avail) /\
    positive_degree 2 U 0 = 0%nat /\
    ~ (Nat.min 1 (length (positive_neighbors W_pair 0))
       <= positive_degree 2 U 0)%nat.
Proof.
  split; [apply cleanedb_sound; reflexivity|]. split; [reflexivity|].
  do 3 eexists. split; [vm_compute; reflexivity|].
  split; [reflexivity|]. vm_compute. lia.
Qed.

(** ** Connected components *)

Lemma mem_In (x : nat) (s : list nat) : mem x s = true <-> In x s.
Proof.
  unfold mem. rewrite existsb_exists. split.
  - intros [y [Hy E]]. apply Nat.eqb_eq in E. subst. exact Hy.
  - intro H. exists x. split; [exact H|apply Nat.eqb_refl].
Qed.

Lemma length_graph_of (n : nat) (W : ndarray) :
  square n W -> length (graph_of W) = n.
Proof.
  intro Hsq. unfold graph_of, from_numpy_array.
  rewrite length_map, length_seq, shape0_map. apply (square_shape0 n W Hsq).
Qed.

Lemma neighbors_graph_of (n : nat) (W : ndarray) (i j : nat) :
  square n W ->
  In j (neighbors (graph_of W) i) <-> edge n W i j.
Proof.
  intro Hsq. unfold neighbors, graph_of, from_numpy_array.
  rewrite shape0_map, (square_shape0 n W Hsq).
  destruct (Nat.lt_ge_cases i n) as [Hi | Hi].
  - rewrite nth_map_seq by exact Hi. rewrite filter_In, in_seq. unfold edge.
    split.
    + intros [[_ Hj] Hor]. cbn in Hj.
      rewrite !(mget_map 0 false _ n) in Hor by assumption.
      apply orb_true_iff in Hor. rewrite !Qltb_lt in Hor. auto.
    + intros [_ [Hj Hor]]. split; [lia|].
      rewrite !(mget_map 0 false _ n) by assumption.
      apply orb_true_iff. rewrite !Qltb_lt. exact Hor.
  - rewrite nth_overflow by (rewrite length_map, length_seq; exact Hi).
    unfold edge. split; [intros []|]. intros [Hlt _]. lia.
Qed.

Lemma edge_sym (n : nat) (W : ndarray) (i j : nat) :
  edge n W i j -> edge n W j i.
Proof. unfold edge. tauto. Qed.

Lemma connected_sym (n : nat) (W : ndarray) (i j : nat) :
  connected_to n W i j -> connected_to n W j i.
Proof.
  intro H. induction H as [x y Hxy | x | x y z _ IH1 _ IH2].
  - apply rt_step. apply edge_sym. exact Hxy.
  - apply rt_refl.
  - eapply rt_trans; eassumption.
Qed.

Lemma connected_bound (n : nat) (W : ndarray) (i j : nat) :
  connected_to n W i j -> (i < n)%nat -> (j < n)%nat.
Proof.
  intro H. induction H as [x y Hxy | x | x y z _ IH1 _ IH2]; intro Hi.
  - apply Hxy.
  - exact Hi.
  - auto.
Qed.

Section Search.
Variables (n : nat) (W : ndarray).
Hypothesis Hsq : square n W.

Let G := graph_of W.

Lemma in_bfs_expand (X : list nat) (j : nat) :
  In j (bfs_expand G X) <->
  (j < n)%nat /\ (In j X \/ exists i, In i X /\ edge n W i j).
Proof.
  unfold bfs_expand. rewrite filter_In, in_seq.
  unfold G. rewrite (length_graph_of n W Hsq).
  rewrite orb_true_iff, mem_In, existsb_exists. split.
  - intros [[_ Hj] [Hin | [i [Hi Hadj]]]]; (split; [exact Hj|]).
    + left. exact Hin.
    + right. exists i. split; [exact Hi|].
      apply mem_In in Hadj. apply (neighbors_graph_of n W i j Hsq). exact Hadj.
  - intros [Hj [Hin | [i [Hi Hedge]]]]; (split; [lia|]).
    + left. exact Hin.
    + right. exists i. split; [exact Hi|].
      apply mem_In. apply (neighbors_graph_of n W i j Hsq). exact Hedge.
Qed.

Lemma node_set_bfs_expand (X : list nat) : node_set n (bfs_expand G X).
Proof.
  split.
  - unfold bfs_expand. apply NoDup_filter, seq_NoDup.
  - intros x Hx. apply in_bfs_expand in Hx. apply Hx.
Qed.

Lemma node_set_length (X : list nat) : node_set n X -> (length X <= n)%nat.
Proof.
  intros [Hnd Hb].
  assert (Hincl : incl X (seq 0 n)).
  { intros x Hx. apply in_seq. specialize (Hb x Hx). lia. }
  pose proof (NoDup_incl_length Hnd Hincl) as Hlen.
  rewrite length_seq in Hlen. exact Hlen.
Qed.

Lemma expand_of_closed (X : list nat) :
  closed_under_edges n W X -> forall j, In j (bfs_expand G X) -> In j X.
Proof.
  intros Hc j Hj. apply in_bfs_expand in Hj.
  destruct Hj as [_ [Hin | [i [Hi He]]]]; [exact Hin|].
  apply (Hc i j Hi He).
Qed.

Lemma closed_of_expand (X : list nat) :
  (forall j, In j (bfs_expand G X) -> In j X) -> closed_under_edges n W X.
Proof.
  intros H i j Hi He. apply H. apply in_bfs_expand.
  split; [apply He|]. right. exists i. split; assumption.
Qed.

(** One level either changes nothing or adds a node. *)
Lemma bfs_expand_progress (X : list nat) :
  node_set n X ->
  closed_under_edges n W X \/ (S (length X) <= length (bfs_expand G X))%nat.
Proof.
  intros [Hnd Hb].
  destruct (Nat.lt_ge_cases (length X) (length (bfs_expand G X))) as [Hlt | Hge].
  - right. lia.
  - left. apply closed_of_expand.
    apply (NoDup_length_incl Hnd Hge).
    intros x Hx. apply in_bfs_expand. split; [apply Hb; exact Hx|].
    left. exact Hx.
Qed.

Lemma closed_bfs_expand (X : list nat) :
  node_set n X -> closed_under_edges n W X ->
  closed_under_edges n W (bfs_expand G X).
Proof.
  intros [_ Hb] Hc i j Hi He. apply in_bfs_expand.
  split; [apply He|]. left.
  apply (Hc i j); [|exact He]. apply expand_of_closed; assumption.
Qed.

(** The search from a set of nodes reachable from [v] finds nodes
    reachable from [v] only, loses none, and after enough levels is closed
    under edges. *)
Lemma bfs_levels_spec (v : nat) (fuel : nat) :
  forall (X : list nat) (c : nat),
    node_set n X ->
    (forall x, In x X -> connected_to n W v x) ->
    (closed_under_edges n W X \/ (c <= length X)%nat) ->
    node_set n (bfs_levels G fuel X) /\
    (forall x, In x X -> In x (bfs_levels G fuel X)) /\
    (forall x, In x (bfs_levels G fuel X) -> connected_to n W v x) /\
    (closed_under_edges n W (bfs_levels G fuel X)
     \/ (c + fuel <= length (bfs_levels G fuel X))%nat).
Proof.
  induction fuel as [|fuel IH]; intros X c Hns Hreach Hprog; cbn [bfs_levels].
  - rewrite Nat.add_0_r. auto.
  - assert (Hns' : node_set n (bfs_expand G X)) by apply node_set_bfs_expand.
    assert (Hreach' : forall x, In x (bfs_expand G X) -> connected_to n W v x).
    { intros x Hx. apply in_bfs_expand in Hx.
      destruct Hx as [_ [Hin | [i [Hi He]]]]; [apply Hreach; exact Hin|].
      eapply rt_trans; [apply Hreach; exact Hi|]. apply rt_step. exact He. }
    assert (Hprog' : closed_under_edges n W (bfs_expand G X)
                     \/ (S c <= length (bfs_expand G X))%nat).
    { destruct Hprog as [Hc | Hlen].
      - left. apply closed_bfs_expand; assumption.
      - destruct (bfs_expand_progress X Hns) as [Hc | Hgrow].
        + left. apply closed_bfs_expand; assumption.
        + right. lia. }
    destruct (IH (bfs_expand G X) (S c) Hns' Hreach' Hprog')
      as [Hn1 [Hinc [Hsound Hfin]]].
    split; [exact Hn1|]. split; [|split; [exact Hsound|]].
    + intros x Hx. apply Hinc. apply in_bfs_expand.
      split; [apply Hns; exact Hx|]. left. exact Hx.
    + destruct Hfin as [Hc | Hlen]; [left; exact Hc|right; lia].
Qed.

(** [_plain_bfs] from [v] returns the nodes connected to [v]. *)
Lemma plain_bfs_spec (v : nat) :
  (v < n)%nat ->
  node_set n (plain_bfs G v) /\
  forall j, In j (plain_bfs G v) <-> connected_to n W v j.
Proof.
  intro Hv. unfold plain_bfs. unfold G at 2 4. rewrite (length_graph_of n W Hsq).
  fold G.
  destruct (bfs_levels_spec v n [v] 1) as [Hns [Hinc [Hsound Hfin]]].
  - split; [repeat constructor; intros []|].
    intros x [<- | []]. exact Hv.
  - intros x [<- | []]. apply rt_refl.
  - right. simpl. lia.
  - split; [exact Hns|]. intro j. split; [apply Hsound|].
    assert (Hclosed : closed_under_edges n W (bfs_levels G n [v])).
    { destruct Hfin as [Hc | Hlen]; [exact Hc|].
      pose proof (node_set_length _ Hns). lia. }
    intro Hpath. apply clos_rt_rtn1 in Hpath.
    induction Hpath as [|y z Hyz _ IHp].
    + apply Hinc. left. reflexivity.
    + apply (Hclosed y z IHp Hyz).
Qed.

Lemma plain_bfs_component (v : nat) :
  (v < n)%nat -> is_component n W (plain_bfs G v).
Proof.
  intro Hv. destruct (plain_bfs_spec v Hv) as [[Hnd Hb] Hiff].
  split; [exact Hnd|]. exists v. split; [exact Hv|].
  intro j. rewrite Hiff. split.
  - intro Hc. split; [|exact Hc]. apply (connected_bound n W v j Hc Hv).
  - intros [_ Hc]. exact Hc.
Qed.
End Search.

Section Components.
Variables (n : nat) (W : ndarray).
Hypothesis Hsq : square n W.

Let G := graph_of W.

Lemma source_in_plain_bfs (v : nat) : (v < n)%nat -> In v (plain_bfs G v).
Proof.
  intro Hv. apply (plain_bfs_spec n W Hsq v Hv). apply rt_refl.
Qed.

Lemma components_from_sound (vs seen : list nat) (c : list nat) :
  (forall v, In v vs -> (v < n)%nat) ->
  In c (components_from G vs seen) ->
  exists v, (v < n)%nat /\ c = plain_bfs G v.
Proof.
  revert seen. induction vs as [|v vs IH]; intros seen Hb Hin; [destruct Hin|].
  cbn [components_from] in Hin.
  assert (Hb' : forall x, In x vs -> (x < n)%nat)
    by (intros x Hx; apply Hb; right; exact Hx).
  destruct (mem v seen).
  - apply (IH seen Hb' Hin).
  - destruct Hin as [<- | Hin].
    + exists v. split; [apply Hb; left; reflexivity|reflexivity].
    + apply (IH _ Hb' Hin).
Qed.

Lemma components_from_cover (vs seen : list nat) (u : nat) :
  (forall v, In v vs -> (v < n)%nat) ->
  In u vs ->
  In u seen \/ exists c, In c (components_from G vs seen) /\ In u c.
Proof.
  revert seen. induction vs as [|v vs IH]; intros seen Hb Hu; [destruct Hu|].
  cbn [components_from].
  assert (Hb' : forall x, In x vs -> (x < n)%nat)
    by (intros x Hx; apply Hb; right; exact Hx).
  destruct (mem v seen) eqn:Hm.
  - destruct Hu as [<- | Hu]; [left; apply mem_In; exact Hm|].
    apply (IH seen Hb' Hu).
  - destruct Hu as [<- | Hu].
    + right. exists (plain_bfs G v). split; [left; reflexivity|].
      apply source_in_plain_bfs. apply Hb. left. reflexivity.
    + destruct (IH (seen ++ plain_bfs G v) Hb' Hu) as [Hs | [c [Hc Huc]]].
      * apply in_app_or in Hs. destruct Hs as [Hs | Hs]; [left; exact Hs|].
        right. exists (plain_bfs G v). split; [left; reflexivity|exact Hs].
      * right. exists c. split; [right; exact Hc|exact Huc].
Qed.

Lemma connected_components_sound (c : list nat) :
  In c (connected_components G) -> is_component n W c.
Proof.
  intro Hin. unfold connected_components in Hin.
  assert (Hb : forall v, In v (seq 0 (length G)) -> (v < n)%nat).
  { intros v Hv. apply in_seq in Hv. unfold G in Hv.
    rewrite (length_graph_of n W Hsq) in Hv. lia. }
  destruct (components_from_sound (seq 0 (length G)) [] c Hb Hin)
    as [v [Hv ->]].
  apply (plain_bfs_component n W Hsq v Hv).
Qed.

Lemma connected_components_cover (u : nat) :
  (u < n)%nat -> exists c, In c (connected_components G) /\ In u c.
Proof.
  intro Hu. unfold connected_components.
  assert (Hlen : length G = n) by apply (length_graph_of n W Hsq).
  destruct (components_from_cover (seq 0 (length G)) [] u) as [[] | H].
  - intros v Hv. apply in_seq in Hv. lia.
  - apply in_seq. lia.
  - exact H.
Qed.

(** Two components that share a node have the same nodes. *)
Lemma component_incl (c c' : list nat) (u : nat) :
  is_component n W c -> is_component n W c' ->
  In u c -> In u c' -> incl c' c.
Proof.
  intros [_ [v [Hv Hc]]] [_ [v' [Hv' Hc']]] Hu Hu' j Hj.
  apply Hc in Hu. apply Hc' in Hu'. apply Hc' in Hj.
  destruct Hu as [_ Hvu], Hu' as [_ Hv'u], Hj as [Hjn Hv'j].
  apply Hc. split; [exact Hjn|].
  eapply rt_trans; [exact Hvu|].
  eapply rt_trans; [apply connected_sym; exact Hv'u|exact Hv'j].
Qed.

(** A component found by the search that is as long as each of them is
    as long as any component at all. *)
Lemma longest_found_is_longest (gcc : list nat) :
  In gcc (connected_components G) ->
  (forall c, In c (connected_components G) -> (length c <= length gcc)%nat) ->
  forall c, is_component n W c -> (length c <= length gcc)%nat.
Proof.
  intros Hin Hmax c Hc.
  destruct c as [|u c0] eqn:Ec; [simpl; lia|]. rewrite <- Ec in *.
  assert (Hu : In u c) by (rewrite Ec; left; reflexivity).
  assert (Hun : (u < n)%nat).
  { destruct Hc as [_ [v [_ Hiff]]]. apply Hiff in Hu. apply Hu. }
  destruct (connected_components_cover u Hun) as [c1 [Hc1 Hu1]].
  eapply Nat.le_trans; [|apply (Hmax c1 Hc1)].
  apply NoDup_incl_length; [apply Hc|].
  apply (component_incl c1 c u); try assumption.
  apply connected_components_sound. exact Hc1.
Qed.
End Components.

Lemma max_by_len_spec (c : list nat) (cs : list (list nat)) :
  In (max_by_len c cs) (c :: cs) /\
  forall c', In c' (c :: cs) -> (length c' <= length (max_by_len c cs))%nat.
Proof.
  revert c. induction cs as [|c1 cs IH]; intro c; cbn [max_by_len].
  - split; [left; reflexivity|]. intros c' [<- | []]. lia.
  - destruct (length c <? length c1)%nat eqn:E.
    + apply Nat.ltb_lt in E. destruct (IH c1) as [Hin Hmax]. split.
      * right. exact Hin.
      * intros c' [<- | Hc'].
        -- specialize (Hmax c1 (or_introl eq_refl)). lia.
        -- apply Hmax. exact Hc'.
    + apply Nat.ltb_ge in E. destruct (IH c) as [Hin Hmax]. split.
      * destruct Hin as [<- | Hin]; [left; reflexivity|right; right; exact Hin].
      * intros c' [<- | [<- | Hc']].
        -- apply Hmax. left. reflexivity.
        -- specialize (Hmax c (or_introl eq_refl)). lia.
        -- apply Hmax. right. exact Hc'.
Qed.

Lemma is_component_perm (n : nat) (W : ndarray) (c c' : list nat) :
  Permutation c c' -> is_component n W c -> is_component n W c'.
Proof.
  intros Hp [Hnd [v [Hv Hiff]]]. split.
  - eapply Permutation_NoDup; eassumption.
  - exists v. split; [exact Hv|]. intro j. rewrite <- Hiff. split.
    + apply Permutation_in. apply Permutation_sym. exact Hp.
    + apply Permutation_in. exact Hp.
Qed.

(** The induced graph on a component is connected. *)
Lemma submatrix_of_component_connected (n : nat) (W Wg : ndarray) (idx : list nat) :
  is_component n W idx ->
  (forall a b, (a < length idx)%nat -> (b < length idx)%nat ->
               Wg[@a, b] = W[@nth a idx O, nth b idx O]) ->
  graph_connected (length idx) Wg.
Proof.
  intros [Hnd [v [Hv Hiff]]] Hcell.
  assert (Hclosed : forall x y, In x idx -> edge n W x y -> In y idx).
  { intros x y Hx He. apply Hiff. apply Hiff in Hx. split; [apply He|].
    eapply rt_trans; [apply Hx|]. apply rt_step. exact He. }
  assert (Hpath : forall x y, clos_refl_trans_1n nat (edge n W) x y ->
            forall a b, (a < length idx)%nat -> (b < length idx)%nat ->
                        nth a idx O = x -> nth b idx O = y ->
                        connected_to (length idx) Wg a b).
  { intros x y Hxy. induction Hxy as [x | x z y Hxz _ IH]; intros a b Ha Hb Ea Eb.
    - assert (E : a = b).
      { apply (proj1 (NoDup_nth idx O) Hnd); try assumption. congruence. }
      subst b. apply rt_refl.
    - assert (Hz : In z idx).
      { apply (Hclosed x z); [|exact Hxz]. rewrite <- Ea. apply nth_In. exact Ha. }
      destruct (In_nth idx z O Hz) as [c [Hc Ec]].
      eapply rt_trans; [|apply (IH c b Hc Hb Ec Eb)].
      apply rt_step. unfold edge. split; [exact Ha|]. split; [exact Hc|].
      rewrite !Hcell by assumption. rewrite Ea, Ec. apply Hxz. }
  intros a b Ha Hb.
  apply (Hpath (nth a idx O) (nth b idx O)); try assumption; try reflexivity.
  apply clos_rt_rt1n.
  assert (Hina : In (nth a idx O) idx) by (apply nth_In; exact Ha).
  assert (Hinb : In (nth b idx O) idx) by (apply nth_In; exact Hb).
  apply Hiff in Hina. apply Hiff in Hinb.
  eapply rt_trans; [apply connected_sym; apply Hina|apply Hinb].
Qed.

Lemma in_lower_pairs (n a b : nat) :
  In (a, b) (flat_map (fun i => map (fun j => (i, j)) (seq 0 (S i))) (seq 0 n))
  <-> (a < n)%nat /\ (b <= a)%nat.
Proof.
  rewrite in_flat_map. split.
  - intros [i [Hi Hin]]. apply in_seq in Hi. apply in_map_iff in Hin.
    destruct Hin as [j [E Hj]]. injection E as -> ->. apply in_seq in Hj. lia.
  - intros [Ha Hb]. exists a. split; [apply in_seq; lia|].
    apply in_map_iff. exists b. split; [reflexivity|apply in_seq; lia].
Qed.

Lemma number_of_edges_positive (n : nat) (W : ndarray) (i j : nat) :
  square n W -> (i < n)%nat -> (j < n)%nat -> 0 < W[@i, j] ->
  number_of_edges (graph_of W) <> 0%nat.
Proof.
  intros Hsq Hi Hj Hpos. unfold number_of_edges.
  rewrite (length_graph_of n W Hsq).
  assert (Hin : In (Nat.max i j, Nat.min i j)
                   (filter (fun p => mem (snd p) (neighbors (graph_of W) (fst p)))
                      (flat_map (fun a => map (fun b => (a, b)) (seq 0 (S a)))
                                (seq 0 n)))).
  { apply filter_In. split; [apply in_lower_pairs; lia|].
    cbn [fst snd]. apply mem_In. apply (neighbors_graph_of n W _ _ Hsq).
    unfold edge. split; [lia|]. split; [lia|].
    destruct (Nat.le_ge_cases i j) as [Hle | Hge].
    - rewrite Nat.max_r, Nat.min_l by lia. right. exact Hpos.
    - rewrite Nat.max_l, Nat.min_r by lia. left. exact Hpos. }
  intro E. apply length_zero_iff_nil in E. rewrite E in Hin. destruct Hin.
Qed.

Lemma number_of_edges_none (n : nat) (W : ndarray) :
  square n W ->
  (forall i j, (i < n)%nat -> (j < n)%nat -> ~ 0 < W[@i, j]) ->
  number_of_edges (graph_of W) = 0%nat.
Proof.
  intros Hsq Hnone. unfold number_of_edges.
  rewrite (length_graph_of n W Hsq).
  rewrite (filter_ext_in _ (fun _ => false)).
  - induction (flat_map _ _) as [|p l IH]; [reflexivity|exact IH].
  - intros [a b] Hin. cbn [fst snd].
    destruct (mem b (neighbors (graph_of W) a)) eqn:E; [|reflexivity].
    apply mem_In in E. apply (neighbors_graph_of n W a b Hsq) in E.
    destruct E as [Ha [Hb [Hp | Hp]]]; exfalso;
      [apply (Hnone a b) | apply (Hnone b a)]; assumption.
Qed.

Lemma whole_graph_is_giant (n : nat) (W : ndarray) (c : list nat) :
  square n W ->
  is_component n W c -> (forall u, (u < n)%nat -> In u c) ->
  giant_component n W W (seq 0 n).
Proof.
  intros Hsq Hc Hall.
  assert (Hcomp : is_component n W (seq 0 n)).
  { destruct Hc as [_ [v [Hv Hiff]]]. split; [apply seq_NoDup|].
    exists v. split; [exact Hv|]. intro j. rewrite in_seq. split.
    - intros [_ Hj]. cbn in Hj. split; [exact Hj|]. apply Hiff, Hall. exact Hj.
    - intros [Hj _]. lia. }
  assert (Hcell : forall a b, (a < length (seq 0 n))%nat ->
            (b < length (seq 0 n))%nat ->
            W[@a, b] = W[@nth a (seq 0 n) O, nth b (seq 0 n) O]).
  { intros a b Ha Hb. rewrite length_seq in Ha, Hb.
    rewrite !seq_nth by assumption. reflexivity. }
  split; [exact Hcomp|]. split; [|split; [|split; [exact Hcell|]]].
  - intros c' [Hnd [v [_ Hiff]]]. apply NoDup_incl_length; [exact Hnd|].
    intros x Hx. apply in_seq. apply Hiff in Hx. lia.
  - rewrite length_seq. exact Hsq.
  - apply (submatrix_of_component_connected n W W (seq 0 n) Hcomp Hcell).
Qed.

(** C3, as the code has it. On a square matrix with at least one positive
    entry, largest_component_submatrix returns (W_gcc, idx) where idx is a
    connected component of greatest size of the graph of the positive
    entries of W, W_gcc is W restricted to idx, and the graph of W_gcc is
    connected; on a matrix without positive entry it returns W itself with
    all the node indices. *)
Theorem largest_component_submatrix_is_giant_component :
  forall (n : nat) (W : ndarray),
    square n W ->
    ((exists i j, (i < n)%nat /\ (j < n)%nat /\ 0 < W[@i, j]) ->
     giant_component n W
       (fst (Components.largest_component_submatrix W))
       (snd (Components.largest_component_submatrix W))) /\
    ((forall i j, (i < n)%nat -> (j < n)%nat -> ~ 0 < W[@i, j]) ->
     Components.largest_component_submatrix W = (W, seq 0 n)).
Proof.
  intros n W Hsq.
  assert (Hnodes : number_of_nodes (graph_of W) = n)
    by apply (length_graph_of n W Hsq).
  unfold Components.largest_component_submatrix. cbv zeta.
  change (from_numpy_array (map (map (fun w : Q => Qltb 0 w)) W))
    with (graph_of W).
  rewrite Hnodes, (square_shape0 n W Hsq). split.
  - intros [i [j [Hi [Hj Hpos]]]].
    assert (En : (n =? 0)%nat = false) by (apply Nat.eqb_neq; lia).
    assert (Ee : (number_of_edges (graph_of W) =? 0)%nat = false).
    { apply Nat.eqb_neq. apply (number_of_edges_positive n W i j); assumption. }
    rewrite En, Ee. cbn [orb].
    pose proof (connected_components_sound n W Hsq) as Hsound.
    pose proof (connected_components_cover n W Hsq) as Hcover.
    destruct (connected_components (graph_of W)) as [|c [|c' cs]] eqn:Ecomps.
    + destruct (Hcover i Hi) as [c [[] _]].
    + cbn [fst snd]. apply (whole_graph_is_giant n W c Hsq).
      * apply Hsound. left. reflexivity.
      * intros u Hu. destruct (Hcover u Hu) as [c1 [[<- | []] Hin]]. exact Hin.
    + cbn [fst snd].
      set (gcc := max_by_len c (c' :: cs)).
      destruct (max_by_len_spec c (c' :: cs)) as [Hin Hmax]. fold gcc in Hin, Hmax.
      assert (Hperm : Permutation gcc (NatSort.sort gcc))
        by apply NatSort.Permuted_sort.
      assert (Hcomp : is_component n W (NatSort.sort gcc)).
      { apply (is_component_perm n W gcc _ Hperm). apply Hsound. exact Hin. }
      assert (Hcell : forall a b, (a < length (NatSort.sort gcc))%nat ->
                (b < length (NatSort.sort gcc))%nat ->
                (np_ix W (NatSort.sort gcc))[@a, b]
                = W[@nth a (NatSort.sort gcc) O, nth b (NatSort.sort gcc) O])
        by (intros a b; apply np_ix_cell).
      split; [exact Hcomp|]. split; [|split; [|split; [exact Hcell|]]].
      * intros c0 Hc0. rewrite <- (Permutation_length Hperm).
        rewrite <- Ecomps in Hin, Hmax.
        apply (longest_found_is_longest n W Hsq gcc Hin Hmax c0 Hc0).
      * apply square_np_ix.
      * apply (submatrix_of_component_connected n W _ _ Hcomp Hcell).
  - intro Hnone. rewrite (number_of_edges_none n W Hsq Hnone).
    rewrite orb_true_r. reflexivity.
Qed.

Lemma largest_component_submatrix_is_giant_component_witness :
  giant_component 5 W_two_parts
    (fst (Components.largest_component_submatrix W_two_parts))
    (snd (Components.largest_component_submatrix W_two_parts)).
Proof.
  apply (largest_component_submatrix_is_giant_component 5 W_two_parts).
  - split; [reflexivity | repeat constructor].
  - exists 0%nat, 1%nat. split; [lia|]. split; [lia|reflexivity].
Defined.

(** C3, as stated, fails on a matrix without positive entry: the function
    returns every node, and two nodes without an edge are neither one
    component nor a connected graph. *)
Lemma largest_component_of_edgeless_graph_is_not_connected :
  cleaned 2 W_no_edge /\
  Components.largest_component_submatrix W_no_edge = (W_no_edge, [0; 1]%nat) /\
  ~ is_component 2 W_no_edge [0; 1]%nat /\
  ~ graph_connected 2 W_no_edge.
Proof.
  assert (Hstuck : forall x y, connected_to 2 W_no_edge x y -> x = y).
  { intros x y H. apply clos_rt_rt1n in H.
    induction H as [x | x z y Hxz _ IH]; [reflexivity|].
    exfalso. destruct Hxz as [Hx [Hz Hor]].
    destruct x as [|[|x]]; [| |lia]; destruct z as [|[|z]]; try lia;
      destruct Hor as [H0 | H0]; discriminate H0. }
  split; [apply cleanedb_sound; reflexivity|]. split; [reflexivity|]. split.
  - intros [_ [v [_ Hiff]]].
    assert (H0 : In 0%nat [0; 1]%nat) by (left; reflexivity).
    assert (H1 : In 1%nat [0; 1]%nat) by (right; left; reflexivity).
    apply Hiff in H0. apply Hiff in H1.
    destruct H0 as [_ H0], H1 as [_ H1].
    apply Hstuck in H0. apply Hstuck in H1. lia.
  - intro Hconn. specialize (Hconn 0%nat 1%nat). 
    assert (E : 0%nat = 1%nat) by (apply Hstuck, Hconn; lia).
    discriminate E.
Qed.

(** * Further properties of the sparsifiers *)

Lemma filter_length_impl {A : Type} (f g : A -> bool) (l : list A) :
  (forall x, In x l -> f x = true -> g x = true) ->
  (length (filter f l) <= length (filter g l))%nat.
Proof.
  induction l as [|x l IH]; intro H; simpl; [lia|].
  assert (IH' : (length (filter f l) <= length (filter g l))%nat).
  { apply IH. intros y Hy. apply H. right. exact Hy. }
  destruct (f x) eqn:Ef.
  - rewrite (H x (or_introl eq_refl) Ef). simpl. lia.
  - destruct (g x); simpl; lia.
Qed.

Lemma length_triu_row (n : nat) (l : list nat) :
  length (flat_map (fun i => map (fun j => (i, j)) (seq (S i) (n - S i))) l)
  = fold_right (fun i acc => (n - S i) + acc)%nat 0%nat l.
Proof.
  induction l as [|i l IH]; simpl; [reflexivity|].
  rewrite length_app, length_map, length_seq, IH. reflexivity.
Qed.

Lemma triu_count_seq (n k : nat) :
  (k <= n)%nat ->
  (2 * fold_right (fun i acc => (n - S i) + acc) 0 (seq (n - k) k)
   = k * (k - 1))%nat.
Proof.
  induction k as [|k IH]; intro Hk; [reflexivity|].
  replace (n - S k)%nat with (n - S k)%nat by reflexivity.
  cbn [seq fold_right].
  replace (S (n - S k)) with (n - k)%nat by lia.
  assert (IH' := IH ltac:(lia)).
  replace (n - S (n - S k))%nat with k by lia.
  replace (S k - 1)%nat with k by lia. nia.
Qed.

Lemma length_triu_indices (n : nat) :
  Z.of_nat (length (triu_indices n)) = total_possible n.
Proof.
  unfold triu_indices. rewrite length_triu_row.
  pose proof (triu_count_seq n n (Nat.le_refl n)) as H.
  rewrite Nat.sub_diag in H.
  pose proof (twice_total_possible n) as T.
  assert (Hz : (2 * Z.of_nat (fold_right (fun i acc => (n - S i) + acc)%nat
                                0%nat (seq 0 n))
                = Z.of_nat n * (Z.of_nat n - 1))%Z).
  { destruct n as [|n]; [reflexivity|].
    replace (S n - 1)%nat with n in H by lia. nia. }
  lia.
Qed.

Lemma count_triu_le_total (W : ndarray) :
  (Z.of_nat (count_triu_positive W) <= total_possible (shape0 W))%Z.
Proof.
  rewrite <- length_triu_indices. unfold count_triu_positive.
  apply inj_le. apply filter_length_le.
Qed.

Lemma density_in_unit_interval (n : nat) (W : ndarray) :
  square n W -> 0 <= Sparsify.density W /\ Sparsify.density W <= 1.
Proof.
  intros Hsq. destruct (Nat.lt_ge_cases n 2) as [Hn | Hn].
  - unfold Sparsify.density. cbv zeta. rewrite (square_shape0 n W Hsq).
    assert (E : (n <? 2)%nat = true) by (apply Nat.ltb_lt; exact Hn).
    rewrite E. split; discriminate.
  - rewrite (density_unfold n W Hsq Hn).
    pose proof (pairs_positive n Hn) as Hpos.
    pose proof (count_triu_le_total W) as Hle.
    rewrite (square_shape0 n W Hsq) in Hle.
    pose proof (twice_total_possible n) as T.
    split.
    + apply Qle_shift_div_l; [exact Hpos|]. rewrite Qmult_0_l.
      change 0 with (2 * inject_Z 0). apply Qmult_le_l; [reflexivity|].
      rewrite <- Zle_Qle. lia.
    + apply Qle_shift_div_r; [exact Hpos|]. rewrite Qmult_1_l.
      change 2 with (inject_Z 2). rewrite <- inject_Z_mult, <- Zle_Qle. lia.
Qed.

(** X1. The density of a square matrix lies between 0 and 1. *)
Theorem density_between_zero_and_one :
  forall (n : nat) (W : ndarray),
    square n W -> 0 <= Sparsify.density W /\ Sparsify.density W <= 1.
Proof.
  intros n W Hsq. destruct (density_in_unit_interval n W Hsq) as [H0 H1].
  split; [exact H0 | exact H1].
Qed.

Lemma density_between_zero_and_one_witness :
  0 <= Sparsify.density W_four /\ Sparsify.density W_four <= 1.
Proof.
  apply (density_between_zero_and_one 4 W_four).
  split; [reflexivity | repeat constructor].
Defined.

Lemma Qmax_of_two (x y w : Q) :
  0 <= w -> (x == 0 \/ x == w) -> (y == 0 \/ y == w) ->
  Qmax x y == 0 \/ Qmax x y == w.
Proof.
  intros Hw Hx Hy.
  destruct (Q.max_spec x y) as [[_ E] | [_ E]]; rewrite E; assumption.
Qed.

Lemma symmetrize_masked_keeps_weights (n : nat) (M : boolarray) (W : ndarray) :
  cleaned n W -> keeps_weights_of n W (symmetrize_masked M W).
Proof.
  intros [Hsq [Hsym [Hzd Hnn]]] i j Hi Hj.
  rewrite (symmetrize_masked_cell n) by assumption.
  destruct (Nat.eqb i j) eqn:E; [left; reflexivity|].
  apply Qmax_of_two; [apply Hnn; assumption| |].
  - destruct (mget false M i j); [right|left]; reflexivity.
  - destruct (mget false M j i); [right; apply Hsym; assumption|left; reflexivity].
Qed.

Lemma zeros_like_keeps_weights (n : nat) (W : ndarray) :
  square n W -> keeps_weights_of n W (zeros_like W).
Proof.
  intros Hsq i j Hi Hj. left. rewrite (zeros_like_cell n) by assumption. reflexivity.
Qed.

(** A matrix that keeps weights of a clean matrix and satisfies the
    invariant is clean and has no more edges. *)
Lemma keeps_weights_cleaned (n : nat) (W U : ndarray) :
  cleaned n W -> invariant n U -> keeps_weights_of n W U ->
  cleaned n U /\
  (count_triu_positive U <= count_triu_positive W)%nat /\
  Sparsify.density U <= Sparsify.density W.
Proof.
  intros [Hsq [Hsym [Hzd Hnn]]] [HU [HUs HUz]] Hkeep.
  assert (Hnonneg : non_negative n U).
  { intros i j Hi Hj. destruct (Hkeep i j Hi Hj) as [E | E]; rewrite E;
      [apply Qle_refl | apply Hnn; assumption]. }
  assert (Hcount : (count_triu_positive U <= count_triu_positive W)%nat).
  { unfold count_triu_positive.
    rewrite (square_shape0 n U HU), (square_shape0 n W Hsq).
    apply filter_length_impl. intros [i j] Hin Hp.
    apply in_triu_indices in Hin. cbn [fst snd] in *.
    apply Qltb_lt in Hp. apply Qltb_lt.
    destruct (Hkeep i j) as [E | E]; try lia; rewrite E in Hp;
      [exfalso; exact (Qlt_irrefl 0 Hp) | exact Hp]. }
  split; [exact (conj HU (conj HUs (conj HUz Hnonneg)))|]. split; [exact Hcount|].
  destruct (Nat.lt_ge_cases n 2) as [Hn | Hn].
  - unfold Sparsify.density. cbv zeta.
    rewrite (square_shape0 n U HU), (square_shape0 n W Hsq).
    assert (E : (n <? 2)%nat = true) by (apply Nat.ltb_lt; exact Hn).
    rewrite E. apply Qle_refl.
  - apply (density_monotone n); assumption.
Qed.

(** X2. Whatever the target and the k-NN setting, threshold_to_target_density
    returns, for a clean matrix, a clean matrix whose entries are entries of
    W or zero: it never creates a weight or an edge, and its density is at
    most the density of W. *)
Theorem threshold_to_target_density_only_keeps_weights :
  forall (n : nat) (W : ndarray) (target : Q) (knn_k : Z),
    cleaned n W ->
    exists U used avail,
      Sparsify.threshold_to_target_density W target knn_k = Some (U, used, avail) /\
      cleaned n U /\ keeps_weights_of n W U /\
      Sparsify.density U <= Sparsify.density W.
Proof.
  intros n W target knn_k Hc. assert (Hsq : square n W) by apply Hc.
  destruct (threshold_to_target_density_returns n W target knn_k Hsq)
    as [U [used [avail [H [-> | [M ->]]]]]];
    eexists; exists used, avail; (split; [exact H|]).
  - pose proof (zeros_like_keeps_weights n W Hsq) as Hk.
    destruct (keeps_weights_cleaned n W _ Hc (zeros_like_inv n W Hsq) Hk)
      as [H1 [_ H2]]. auto.
  - pose proof (symmetrize_masked_keeps_weights n M W Hc) as Hk.
    destruct (keeps_weights_cleaned n W _ Hc (symmetrize_masked_inv n M W Hsq) Hk)
      as [H1 [_ H2]]. auto.
Qed.

Lemma threshold_to_target_density_only_keeps_weights_witness :
  exists U used avail,
    Sparsify.threshold_to_target_density W_four (1 # 3) 2 = Some (U, used, avail) /\
    cleaned 4 U /\ keeps_weights_of 4 W_four U /\
    Sparsify.density U <= Sparsify.density W_four.
Proof.
  apply (threshold_to_target_density_only_keeps_weights 4 W_four (1 # 3) 2).
  apply cleanedb_sound. reflexivity.
Defined.

(** X3. threshold_proportional, when it returns, returns for a clean matrix
    a clean matrix whose entries are entries of W or zero. *)
Theorem threshold_proportional_only_keeps_weights :
  forall (n : nat) (W : ndarray) (p : option Q) (U : ndarray),
    cleaned n W ->
    Sparsify.threshold_proportional W p = Some U ->
    cleaned n U /\ keeps_weights_of n W U /\
    Sparsify.density U <= Sparsify.density W.
Proof.
  intros n W p U Hc. assert (Hsq : square n W) by apply Hc.
  assert (Hinv : invariant n W)
    by (destruct Hc as [H1 [H2 [H3 _]]]; exact (conj H1 (conj H2 H3))).
  intro H.
  assert (Hk : keeps_weights_of n W U).
  { revert H. unfold Sparsify.threshold_proportional.
    destruct p as [p|].
    - cbv zeta.
      match goal with |- context [(?k <=? 0)%Z] => destruct (k <=? 0)%Z end.
      + intro H. injection H as <-. apply zeros_like_keeps_weights. exact Hsq.
      + match goal with |- context [np_partition ?a ?k] =>
          destruct (np_partition a k) as [part|] end; cbn [bind]; [|discriminate].
        match goal with |- context [py_getitem ?a ?k] =>
          destruct (py_getitem a k) as [thr|] end; cbn [bind]; [|discriminate].
        intro H. injection H as <-.
        apply (symmetrize_masked_keeps_weights n _ W Hc).
    - intro H. injection H as <-. intros i j _ _. right. reflexivity. }
  pose proof (threshold_proportional_invariant n W p U Hinv H) as HU.
  destruct (keeps_weights_cleaned n W U Hc HU Hk) as [H1 [_ H2]]. auto.
Qed.

Lemma threshold_proportional_only_keeps_weights_witness :
  exists U,
    Sparsify.threshold_proportional W_four (Some (1 # 2)) = Some U /\
    cleaned 4 U /\ keeps_weights_of 4 W_four U.
Proof.
  eexists. split; [vm_compute; reflexivity|].
  destruct (threshold_proportional_only_keeps_weights 4 W_four (Some (1 # 2))
              [[0; 5; 0; 0]; [5; 0; 3; 0]; [0; 3; 0; 4]; [0; 0; 4; 0]])
    as [H1 [H2 _]].
  - apply cleanedb_sound. reflexivity.
  - vm_compute. reflexivity.
  - split; assumption.
Defined.

(** In a sorted list the elements from rank [i] on are at or above the one
    of rank [i]. *)
Lemma sorted_count_at_least (s : list Q) (i : nat) (kth : Q) :
  StronglySorted (fun x y => is_true (Qle_bool x y)) s ->
  nth_error s i = Some kth ->
  (length s - i <= length (filter (Qleb kth) s))%nat.
Proof.
  intro Hs. revert i. induction Hs as [|x s Hs IH Hx]; intros i Hn.
  - destruct i; discriminate.
  - rewrite Forall_forall in Hx. destruct i as [|i].
    + cbn in Hn. injection Hn as <-.
      rewrite (filter_all (Qleb x) (x :: s)); [lia|].
      intros y [<- | Hy]; [apply Qleb_le, Qle_refl | apply Hx; exact Hy].
    + cbn in Hn. specialize (IH i Hn). cbn [filter length].
      destruct (Qleb kth x); cbn [length]; lia.
Qed.

Lemma length_kept_at_least (W : ndarray) (k : nat) (kth : Q) :
  nth_error (QSort.sort (map (weight_at W) (positive_pairs W)))
            (length (positive_pairs W) - k) = Some kth ->
  (k <= length (positive_pairs W))%nat ->
  (k <= length (kept_pairs W kth))%nat.
Proof.
  intros Hn Hk.
  set (vals := map (weight_at W) (positive_pairs W)) in *.
  assert (Hperm : Permutation vals (QSort.sort vals)) by apply QSort.Permuted_sort.
  assert (E : length (kept_pairs W kth) = length (filter (Qleb kth) vals)).
  { unfold vals, kept_pairs. rewrite filter_map_comm, length_map. reflexivity. }
  rewrite E, (filter_length_perm _ _ _ Hperm).
  pose proof (sorted_count_at_least _ _ kth
                (QSort.StronglySorted_sort vals Qle_bool_transitive) Hn) as H.
  rewrite <- (Permutation_length Hperm) in H. unfold vals in *.
  rewrite length_map in H. lia.
Qed.

Lemma NoDup_kept_pairs (W : ndarray) (kth : Q) : NoDup (kept_pairs W kth).
Proof.
  unfold kept_pairs, positive_pairs. do 2 apply NoDup_filter.
  apply NoDup_triu_indices.
Qed.

Lemma budget_edges_kept :
  forall (n : nat) (W : ndarray) (target : Q) (knn_k : Z),
    square n W -> (2 <= n)%nat -> 0 < target -> positive_pairs W <> [] ->
    exists U used avail,
      Sparsify.threshold_to_target_density W target knn_k = Some (U, used, avail) /\
      (1 <= edge_budget W target)%Z /\
      (edge_budget W target <= Z.of_nat (count_triu_positive U))%Z.
Proof.
  intros n W target knn_k Hsq Hn Ht Hne.
  assert (Hused : 0 < py_min target (available_density W)).
  { destruct (py_min_cases target (available_density W)) as [-> | ->];
      [exact Ht | apply (available_density_positive n); assumption]. }
  pose proof (edge_budget_bounds W target Hne) as Hb.
  destruct (threshold_to_target_density_cases n W target knn_k Hsq Hn)
    as [[E _] | [[_ [Hle _]] | [_ [_ [kth [Hnth H]]]]]].
  - contradiction.
  - exfalso. exact (Qlt_not_le _ _ Hused Hle).
  - assert (Hmask : exists M,
              (forall i j, (i < n)%nat -> (j < n)%nat ->
                 mget false (top_mask n (kept_pairs W kth)) i j = true ->
                 mget false M i j = true) /\
              Sparsify.threshold_to_target_density W target knn_k
              = Some (symmetrize_masked M W,
                      py_min target (available_density W), available_density W)).
    { destruct (negb (knn_k =? 0)%Z && (0 <? knn_k)%Z) eqn:Ek.
      - apply andb_true_iff in Ek. destruct Ek as [_ Ek]. apply Z.ltb_lt in Ek.
        destruct (knn_fold_cell n W knn_k (seq 0 n)
                    (top_mask n (kept_pairs W kth)) Ek (shape0_top_mask _ _))
          as [M [Hfold [_ Hcell]]].
        unfold Sparsify.knn_loop in H. rewrite Hfold in H. cbn [bind] in H.
        exists M. split; [|exact H].
        intros i j Hi Hj Hm. rewrite (Hcell i j Hi Hj), Hm. reflexivity.
      - cbn [bind] in H. exists (top_mask n (kept_pairs W kth)).
        split; [auto|exact H]. }
    destruct Hmask as [M [Hsub HM]].
    do 3 eexists. split; [exact HM|]. split; [lia|].
    assert (Hlen : (Z.to_nat (edge_budget W target)
                    <= length (kept_pairs W kth))%nat).
    { apply length_kept_at_least; [exact Hnth|lia]. }
    assert (Hincl : (length (kept_pairs W kth)
                     <= count_triu_positive (symmetrize_masked M W))%nat).
    { unfold count_triu_positive.
      rewrite (square_shape0 n _ (square_symmetrize_masked n M W Hsq)).
      apply NoDup_incl_length; [apply NoDup_kept_pairs|].
      intros [i j] Hin. pose proof Hin as Hin'.
      apply (in_kept_pairs n W kth i j Hsq) in Hin.
      destruct Hin as [Hij [Hj [Hpos _]]].
      apply filter_In. split; [apply in_triu_indices; lia|]. cbn [fst snd].
      rewrite (symmetrize_masked_cell n) by (try assumption; lia).
      assert (Eij : Nat.eqb i j = false) by (apply Nat.eqb_neq; lia).
      rewrite Eij.
      assert (Hm : mget false M i j = true).
      { apply Hsub; try lia. rewrite top_mask_cell by lia. rewrite Eij.
        apply orb_true_iff. left. apply existsb_pair_In. exact Hin'. }
      rewrite Hm. apply Qltb_lt.
      eapply Qlt_le_trans; [exact Hpos|apply Q.le_max_l]. }
    lia.
Qed.

(** X4. On a matrix with at least one positive weight above the diagonal
    and for a positive target, threshold_to_target_density keeps at least
    one edge, with or without the k-NN backbone: its result is never the
    empty graph.  It keeps at least k - 1 edges as well, where
    k = max(1, min(floor(target_used * n(n-1)/2), m)) is the budget in exact
    arithmetic (the budget the code computes in binary64 is k or one off). *)
Theorem threshold_to_target_density_keeps_an_edge_and_nearly_the_budget :
  forall (n : nat) (W : ndarray) (target : Q) (knn_k : Z),
    square n W -> (2 <= n)%nat -> 0 < target -> positive_pairs W <> [] ->
    exists U used avail,
      Sparsify.threshold_to_target_density W target knn_k = Some (U, used, avail) /\
      (1 <= count_triu_positive U)%nat /\
      (edge_budget W target - 1 <= Z.of_nat (count_triu_positive U))%Z.
Proof.
  intros n W target knn_k Hsq Hn Ht Hne.
  destruct (budget_edges_kept n W target knn_k Hsq Hn Ht Hne)
    as [U [used [avail [H [Hone Hcount]]]]].
  exists U, used, avail. split; [exact H|]. split; lia.
Qed.

Lemma threshold_to_target_density_keeps_an_edge_and_nearly_the_budget_witness :
  exists U used avail,
    Sparsify.threshold_to_target_density W_one_edge (1 # 10) 0
    = Some (U, used, avail) /\
    (1 <= count_triu_positive U)%nat /\
    (edge_budget W_one_edge (1 # 10) - 1 <= Z.of_nat (count_triu_positive U))%Z.
Proof.
  apply (threshold_to_target_density_keeps_an_edge_and_nearly_the_budget
           3 W_one_edge).
  - split; [reflexivity | repeat constructor].
  - lia.
  - reflexivity.
  - discriminate.
Defined.

Lemma py_min_le_r (a b : Q) : py_min a b <= b.
Proof.
  unfold py_min. destruct (Qltb b a) eqn:E.
  - apply Qle_refl.
  - apply Qltb_ge in E. exact E.
Qed.

Lemma reported_densities :
  forall (n : nat) (W : ndarray) (target : Q) (knn_k : Z)
         (U : ndarray) (used avail : Q),
    square n W -> 0 <= target ->
    Sparsify.threshold_to_target_density W target knn_k = Some (U, used, avail) ->
    used <= target /\ used <= avail /\
    ((2 <= n)%nat -> avail == Sparsify.density W).
Proof.
  intros n W target knn_k U used avail Hsq Ht H.
  destruct (Nat.lt_ge_cases n 2) as [Hn | Hn].
  - revert H. unfold Sparsify.threshold_to_target_density. cbv zeta.
    rewrite (square_shape0 n W Hsq).
    assert (En : (n <? 2)%nat = true) by (apply Nat.ltb_lt; exact Hn).
    rewrite En. intro H. injection H as <- <- <-.
    split; [exact Ht|]. split; [apply Qle_refl|]. intro. lia.
  - pose proof (available_density_is_density n W Hsq Hn) as Hav.
    destruct (threshold_to_target_density_cases n W target knn_k Hsq Hn)
      as [[E H1] | [[_ [_ H1]] | [_ [_ [kth [_ H1]]]]]].
    + rewrite H1 in H. injection H as <- <- <-.
      split; [exact Ht|]. split; [|intro; exact Hav].
      unfold available_density. rewrite E. cbn [length Z.of_nat].
      rewrite (square_shape0 n W Hsq).
      apply Qle_shift_div_l; [apply pairs_positive; exact Hn|].
      rewrite Qmult_0_l. discriminate.
    + rewrite H1 in H. injection H as <- <- <-.
      split; [apply py_min_le_l|]. split; [apply py_min_le_r|intro; exact Hav].
    + rewrite H1 in H.
      destruct (if negb (knn_k =? 0)%Z && (0 <? knn_k)%Z
                then Sparsify.knn_loop W knn_k (top_mask n (kept_pairs W kth)) n
                else Some (top_mask n (kept_pairs W kth))) as [M|];
        cbn [bind] in H; [|discriminate].
      injection H as <- <- <-.
      split; [apply py_min_le_l|]. split; [apply py_min_le_r|intro; exact Hav].
Qed.

(** X5. The density that threshold_to_target_density reports as used is
    never above the target (for a target that is not negative) and never
    above the density it reports as available; the latter is the density of
    W on two nodes or more. *)
Theorem reported_densities_are_within_target_and_availability :
  forall (n : nat) (W : ndarray) (target : Q) (knn_k : Z)
         (U : ndarray) (used avail : Q),
    square n W -> 0 <= target ->
    Sparsify.threshold_to_target_density W target knn_k = Some (U, used, avail) ->
    used <= target /\ used <= avail /\
    ((2 <= n)%nat -> avail == Sparsify.density W).
Proof.
  intros n W target knn_k U used avail Hsq Ht H.
  destruct (reported_densities n W target knn_k U used avail Hsq Ht H)
    as [H1 [H2 H3]].
  split; [exact H1|]. split; [exact H2|]. intro Hn. apply H3. exact Hn.
Qed.

Lemma reported_densities_are_within_target_and_availability_witness :
  exists U used avail,
    Sparsify.threshold_to_target_density W_four (8 # 100) 3 = Some (U, used, avail) /\
    used <= 8 # 100 /\ used <= avail.
Proof.
  destruct (threshold_to_target_density_returns 4 W_four (8 # 100) 3)
    as [U [used [avail [H _]]]]; [split; [reflexivity | repeat constructor]|].
  exists U, used, avail. split; [exact H|].
  destruct (reported_densities_are_within_target_and_availability
              4 W_four (8 # 100) 3 U used avail) as [H1 [H2 _]].
  - split; [reflexivity | repeat constructor].
  - discriminate.
  - exact H.
  - split; assumption.
Defined.

(** X6. threshold_proportional returns a matrix for every proportion
    p <= 1, and raises (np.partition, kth out of bounds) for every
    proportion that asks for at least one weight more than there are pairs
    above the diagonal, that is when p * T >= T + 1 with T = n(n-1)/2. *)
Theorem threshold_proportional_raises_on_excess_proportion :
  forall (n : nat) (W : ndarray) (p : Q),
    square n W ->
    (p <= 1 -> exists U, Sparsify.threshold_proportional W (Some p) = Some U) /\
    (inject_Z (total_possible n) + 1 <= p * inject_Z (total_possible n) ->
     Sparsify.threshold_proportional W (Some p) = None).
Proof.
  intros n W p Hsq. split; [apply (threshold_proportional_returns n)|].
  intro Hp. unfold Sparsify.threshold_proportional. cbv zeta.
  rewrite length_map, (square_shape0 n W Hsq), length_triu_indices.
  set (k := Qfloor (p * inject_Z (total_possible n))).
  set (vals := map (fun rc : nat * nat => W[@fst rc, snd rc]) (triu_indices n)).
  assert (Hlen : Z.of_nat (length vals) = total_possible n).
  { unfold vals. rewrite length_map. apply length_triu_indices. }
  assert (Hk : (total_possible n + 1 <= k)%Z).
  { unfold k. rewrite <- (Qfloor_Z (total_possible n + 1)).
    apply Qfloor_resp_le. rewrite inject_Z_plus. exact Hp. }
  assert (HT : (0 <= total_possible n)%Z) by (rewrite <- Hlen; lia).
  assert (Ek : (k <=? 0)%Z = false) by (apply Z.leb_gt; lia).
  rewrite Ek. unfold np_partition. cbv zeta. rewrite Hlen.
  assert (E : ((- total_possible n <=? - k) && (- k <? total_possible n))%Z
              = false).
  { apply andb_false_iff. left. apply Z.leb_gt. lia. }
  rewrite E. reflexivity.
Qed.

Lemma threshold_proportional_raises_on_excess_proportion_witness :
  (exists U, Sparsify.threshold_proportional W_four (Some (1 # 2)) = Some U) /\
  Sparsify.threshold_proportional W_four (Some 2) = None.
Proof.
  split.
  - apply (threshold_proportional_raises_on_excess_proportion 4 W_four (1 # 2)).
    + split; [reflexivity | repeat constructor].
    + discriminate.
  - apply (threshold_proportional_raises_on_excess_proportion 4 W_four 2).
    + split; [reflexivity | repeat constructor].
    + vm_compute. discriminate.
Defined.

Lemma sorted_head_least (s : list Q) (x y : Q) :
  StronglySorted (fun a b => is_true (Qle_bool a b)) s ->
  nth_error s 0 = Some x -> In y s -> x <= y.
Proof.
  intros Hs Hn Hy. destruct s as [|z s]; [discriminate|].
  cbn in Hn. injection Hn as ->. inversion Hs as [|? ? _ Hall]; subst.
  destruct Hy as [<- | Hy]; [apply Qle_refl|].
  rewrite Forall_forall in Hall. apply Qle_bool_iff. apply Hall. exact Hy.
Qed.

(** X7. With the proportion 1, threshold_proportional returns a clean
    matrix as it is (entry by entry): every weight is at or above the
    smallest one. *)
Theorem threshold_proportional_of_one_keeps_everything :
  forall (n : nat) (W : ndarray),
    cleaned n W ->
    exists U,
      Sparsify.threshold_proportional W (Some 1) = Some U /\
      square n U /\
      forall i j, (i < n)%nat -> (j < n)%nat -> U[@i, j] == W[@i, j].
Proof.
  intros n W [Hsq [Hsym [Hzd Hnn]]].
  unfold Sparsify.threshold_proportional. cbv zeta.
  rewrite (square_shape0 n W Hsq).
  set (vals := map (fun rc : nat * nat => W[@fst rc, snd rc]) (triu_indices n)).
  assert (Hlen : Z.of_nat (length vals) = total_possible n).
  { unfold vals. rewrite length_map. apply length_triu_indices. }
  assert (Ek : Qfloor (1 * inject_Z (Z.of_nat (length vals)))
               = Z.of_nat (length vals)).
  { rewrite <- (Qfloor_Z (Z.of_nat (length vals))) at 2.
    apply Qfloor_comp. apply Qmult_1_l. }
  rewrite Ek.
  destruct (Z.of_nat (length vals) <=? 0)%Z eqn:E0.
  - apply Z.leb_le in E0.
    exists (zeros_like W). split; [reflexivity|].
    split; [apply square_zeros_like; exact Hsq|].
    intros i j Hi Hj. rewrite (zeros_like_cell n) by assumption.
    assert (Hn : (n < 2)%nat).
    { destruct (Nat.lt_ge_cases n 2) as [H | H]; [exact H|].
      pose proof (twice_total_possible n). nia. }
    assert (i = j) by lia. subst j. symmetry. apply Hzd. exact Hi.
  - apply Z.leb_gt in E0.
    destruct (kth_largest_total vals (Z.of_nat (length vals)))
      as [thr [Hpart [Hget Hnth]]]; [lia|].
    rewrite Hpart. cbn [bind]. rewrite Hget. cbn [bind].
    exists (symmetrize_masked (map (map (fun u : Q => Qleb thr u)) W) W).
    split; [reflexivity|].
    split; [exact (square_symmetrize_masked n _ W Hsq)|].
    rewrite Nat2Z.id, Nat.sub_diag in Hnth.
    assert (Hleast : forall i j, (i < j)%nat -> (j < n)%nat -> thr <= W[@i, j]).
    { intros i j Hij Hj.
      apply (sorted_head_least (QSort.sort vals));
        [apply QSort.StronglySorted_sort, Qle_bool_transitive | exact Hnth |].
      apply (Permutation_in _ (QSort.Permuted_sort vals)).
      unfold vals. apply in_map_iff. exists (i, j). split; [reflexivity|].
      apply in_triu_indices. lia. }
    intros i j Hi Hj.
    rewrite (symmetrize_masked_cell n) by assumption.
    destruct (Nat.eqb i j) eqn:Eij.
    + apply Nat.eqb_eq in Eij. subst j. symmetry. apply Hzd. exact Hi.
    + apply Nat.eqb_neq in Eij.
      rewrite !(mget_map 0 false _ n) by assumption.
      assert (Hboth : thr <= W[@i, j] /\ thr <= W[@j, i]).
      { destruct (Nat.lt_ge_cases i j) as [Hlt | Hge].
        - split; [apply Hleast; assumption|].
          rewrite (Hsym j i Hj Hi). apply Hleast; assumption.
        - assert (Hlt : (j < i)%nat) by lia.
          split; [|apply Hleast; assumption].
          rewrite (Hsym i j Hi Hj). apply Hleast; assumption. }
      destruct Hboth as [H1 H2]. apply Qleb_le in H1, H2. rewrite H1, H2.
      rewrite (Hsym j i Hj Hi). apply Q.max_id.
Qed.

Lemma threshold_proportional_of_one_keeps_everything_witness :
  exists U,
    Sparsify.threshold_proportional W_four (Some 1) = Some U /\
    square 4 U /\
    forall i j, (i < 4)%nat -> (j < 4)%nat -> U[@i, j] == W_four[@i, j].
Proof.
  apply (threshold_proportional_of_one_keeps_everything 4 W_four).
  apply cleanedb_sound. reflexivity.
Defined.

(** ** Normalisation of a clean matrix *)

Lemma concat_cell (n : nat) (W : ndarray) (x : Q) :
  square n W -> In x (concat W) ->
  exists i j, (i < n)%nat /\ (j < n)%nat /\ x = W[@i, j].
Proof.
  intros Hsq Hin. apply in_concat in Hin. destruct Hin as [r [Hr Hx]].
  destruct (In_nth W r [] Hr) as [i [Hi Er]].
  destruct (In_nth r x 0 Hx) as [j [Hj Ex]].
  assert (Hin : (i < n)%nat) by (destruct Hsq as [Hl _]; lia).
  exists i, j. split; [exact Hin|]. split.
  - rewrite <- (square_row n W i Hsq Hin), Er. exact Hj.
  - unfold mget. rewrite Er. symmetry. exact Ex.
Qed.

Lemma cell_in_concat (n : nat) (W : ndarray) (i j : nat) :
  square n W -> (i < n)%nat -> (j < n)%nat -> In W[@i, j] (concat W).
Proof.
  intros Hsq Hi Hj. apply in_concat. exists (nth i W []). split.
  - apply nth_In. destruct Hsq as [Hl _]. lia.
  - unfold mget. apply nth_In. rewrite (square_row n W i Hsq Hi). exact Hj.
Qed.

Lemma normalize_positive_matrix :
  forall (n : nat) (W : ndarray) (i0 j0 : nat),
    cleaned n W -> (i0 < n)%nat -> (j0 < n)%nat -> 0 < W[@i0, j0] ->
    exists U,
      Modularity.maybe_normalize W true = Some U /\
      cleaned n U /\ unit_weights n U /\
      (forall i j, (i < n)%nat -> (j < n)%nat -> (0 < U[@i, j] <-> 0 < W[@i, j])) /\
      Sparsify.density U == Sparsify.density W.
Proof.
  intros n W i0 j0 [Hsq [Hsym [Hzd Hnn]]] Hi0 Hj0 Hpos0.
  pose proof (cell_in_concat n W i0 j0 Hsq Hi0 Hj0) as Hin0.
  destruct (np_max_some W _ Hin0) as [m Hm].
  destruct (np_max_spec W m Hm) as [_ Hub].
  assert (Hmpos : 0 < m) by (eapply Qlt_le_trans; [exact Hpos0|apply Hub; exact Hin0]).
  rewrite maybe_normalize_unfold, Hm.
  assert (Em : Qltb 0 m = true) by (apply Qltb_lt; exact Hmpos). rewrite Em.
  exists (np_div W m). split; [reflexivity|].
  assert (Hcell : forall i j, (i < n)%nat -> (j < n)%nat ->
            (np_div W m)[@i, j] = W[@i, j] / m).
  { intros i j Hi Hj. unfold np_div.
    rewrite (mget_map 0 0 (fun x : Q => x / m) n) by assumption. reflexivity. }
  assert (Hinv : invariant n (np_div W m)).
  { apply np_div_invariant. exact (conj Hsq (conj Hsym Hzd)). }
  assert (Hposiff : forall i j, (i < n)%nat -> (j < n)%nat ->
            (0 < (np_div W m)[@i, j] <-> 0 < W[@i, j])).
  { intros i j Hi Hj. rewrite (Hcell i j Hi Hj). split.
    - intro H. destruct (Qlt_le_dec 0 W[@i, j]) as [Hp | Hle]; [exact Hp|].
      exfalso. apply (Qlt_not_le _ _ H).
      apply Qle_shift_div_r; [exact Hmpos|]. rewrite Qmult_0_l. exact Hle.
    - intro H. apply Qlt_shift_div_l; [exact Hmpos|]. rewrite Qmult_0_l. exact H. }
  assert (Hunit : unit_weights n (np_div W m)).
  { intros i j Hi Hj. rewrite (Hcell i j Hi Hj). split.
    - apply Qle_shift_div_l; [exact Hmpos|]. rewrite Qmult_0_l. apply Hnn; assumption.
    - apply Qle_shift_div_r; [exact Hmpos|]. rewrite Qmult_1_l.
      apply Hub. apply (cell_in_concat n); assumption. }
  split.
  { destruct Hinv as [H1 [H2 H3]]. split; [exact H1|]. split; [exact H2|].
    split; [exact H3|]. intros i j Hi Hj. apply (Hunit i j Hi Hj). }
  split; [exact Hunit|]. split; [exact Hposiff|].
  assert (Hcount : count_triu_positive (np_div W m) = count_triu_positive W).
  { unfold count_triu_positive.
    rewrite (square_shape0 n _ (proj1 Hinv)), (square_shape0 n W Hsq).
    f_equal. apply filter_ext_in. intros [i j] Hin.
    apply in_triu_indices in Hin. cbn [fst snd].
    destruct (Qltb 0 (np_div W m)[@i, j]) eqn:E1;
      destruct (Qltb 0 W[@i, j]) eqn:E2; try reflexivity.
    - apply Qltb_lt in E1. apply Hposiff in E1; try lia.
      apply Qltb_lt in E1. congruence.
    - apply Qltb_lt in E2. apply Hposiff in E2; try lia.
      apply Qltb_lt in E2. congruence. }
  unfold Sparsify.density. cbv zeta.
  rewrite (square_shape0 n _ (proj1 Hinv)), (square_shape0 n W Hsq), Hcount.
  reflexivity.
Qed.

(** X8. On a clean matrix that has a positive weight, maybe_normalize
    (enabled) returns a clean matrix with every weight in [0, 1] and with
    the value 1 where W has its maximum; it creates no edge (an entry of
    the result is positive only where W is positive), so the density does
    not grow and the result is not the empty graph. *)
Theorem maybe_normalize_gives_unit_weights_and_adds_no_edge :
  forall (n : nat) (W : ndarray) (i0 j0 : nat),
    cleaned n W -> (i0 < n)%nat -> (j0 < n)%nat -> 0 < W[@i0, j0] ->
    exists U,
      Modularity.maybe_normalize W true = Some U /\
      cleaned n U /\ unit_weights n U /\
      (forall i j, (i < n)%nat -> (j < n)%nat -> 0 < U[@i, j] -> 0 < W[@i, j]) /\
      (exists i j, (i < n)%nat /\ (j < n)%nat /\ U[@i, j] == 1) /\
      Sparsify.density U <= Sparsify.density W.
Proof.
  intros n W i0 j0 Hc Hi0 Hj0 Hpos.
  destruct (normalize_positive_matrix n W i0 j0 Hc Hi0 Hj0 Hpos)
    as [U [H [Hclean [Hunit [Hiff Hdens]]]]].
  exists U. split; [exact H|]. split; [exact Hclean|]. split; [exact Hunit|].
  split; [intros i j Hi Hj; apply (Hiff i j Hi Hj)|].
  split; [|rewrite Hdens; apply Qle_refl].
  assert (Hsq : square n W) by apply Hc.
  pose proof (cell_in_concat n W i0 j0 Hsq Hi0 Hj0) as Hin0.
  destruct (np_max_some W _ Hin0) as [m Hm].
  destruct (np_max_spec W m Hm) as [Hmin Hub].
  assert (Hmpos : 0 < m)
    by (eapply Qlt_le_trans; [exact Hpos|apply Hub; exact Hin0]).
  destruct (concat_cell n W m Hsq Hmin) as [i [j [Hi [Hj E]]]].
  exists i, j. split; [exact Hi|]. split; [exact Hj|].
  rewrite maybe_normalize_unfold, Hm in H.
  assert (Em : Qltb 0 m = true) by (apply Qltb_lt; exact Hmpos).
  rewrite Em in H. injection H as <-.
  unfold np_div. rewrite (mget_map 0 0 (fun x : Q => x / m) n) by assumption.
  rewrite <- E. apply Qmult_inv_r.
  intro E0. rewrite E0 in Hmpos. exact (Qlt_irrefl 0 Hmpos).
Qed.

Lemma maybe_normalize_gives_unit_weights_and_adds_no_edge_witness :
  exists U,
    Modularity.maybe_normalize W_four true = Some U /\
    cleaned 4 U /\ unit_weights 4 U /\
    Sparsify.density U <= Sparsify.density W_four.
Proof.
  destruct (maybe_normalize_gives_unit_weights_and_adds_no_edge 4 W_four 0 1)
    as [U [H [Hc [Hu [_ [_ Hd]]]]]].
  - apply cleanedb_sound. reflexivity.
  - lia.
  - lia.
  - reflexivity.
  - exists U. split; [exact H|]. split; [exact Hc|]. split; [exact Hu|exact Hd].
Defined.

(** * Further properties of the giant component *)

Lemma components_from_all_seen (G : graph) (vs seen : list nat) :
  (forall v, In v vs -> In v seen) -> components_from G vs seen = [].
Proof.
  induction vs as [|v vs IH]; intro H; [reflexivity|]. cbn [components_from].
  assert (Hm : mem v seen = true) by (apply mem_In, H; left; reflexivity).
  rewrite Hm. apply IH. intros x Hx. apply H. right. exact Hx.
Qed.

Lemma connected_graph_one_component (n : nat) (W : ndarray) :
  square n W -> (0 < n)%nat -> graph_connected n W ->
  connected_components (graph_of W) = [plain_bfs (graph_of W) 0].
Proof.
  intros Hsq Hn Hconn. unfold connected_components.
  rewrite (length_graph_of n W Hsq).
  destruct n as [|n]; [lia|]. cbn [seq components_from mem existsb].
  f_equal. apply components_from_all_seen.
  intros v Hv. apply in_seq in Hv. cbn [app].
  apply (plain_bfs_spec (S n) W Hsq 0%nat Hn). apply Hconn; lia.
Qed.

Lemma few_components_returned_whole (n : nat) (W : ndarray) :
  square n W ->
  (length (connected_components (graph_of W)) <= 1)%nat ->
  Components.largest_component_submatrix W = (W, seq 0 n).
Proof.
  intros Hsq Hfew.
  unfold Components.largest_component_submatrix. cbv zeta.
  change (from_numpy_array (map (map (fun w : Q => Qltb 0 w)) W))
    with (graph_of W).
  rewrite (square_shape0 n W Hsq).
  destruct ((number_of_nodes (graph_of W) =? 0)%nat
            || (number_of_edges (graph_of W) =? 0)%nat); [reflexivity|].
  destruct (connected_components (graph_of W)) as [|c [|c' cs]];
    [reflexivity | reflexivity | cbn [length] in Hfew; lia].
Qed.

(** X9. A connected graph is returned whole: on a square matrix whose
    graph of positive entries is connected, largest_component_submatrix
    returns the matrix itself with all the node indices. *)
Theorem largest_component_of_connected_graph_is_the_graph :
  forall (n : nat) (W : ndarray),
    square n W -> graph_connected n W ->
    Components.largest_component_submatrix W = (W, seq 0 n).
Proof.
  intros n W Hsq Hconn. apply few_components_returned_whole; [exact Hsq|].
  destruct n as [|n].
  - unfold connected_components. rewrite (length_graph_of 0 W Hsq).
    cbn [seq components_from length]. lia.
  - rewrite (connected_graph_one_component (S n) W Hsq) by (try assumption; lia).
    cbn [length]. lia.
Qed.

Lemma largest_component_of_connected_graph_is_the_graph_witness :
  Components.largest_component_submatrix W_pair = (W_pair, seq 0 2).
Proof.
  apply (largest_component_of_connected_graph_is_the_graph 2 W_pair).
  - split; [reflexivity | repeat constructor].
  - intros i j Hi Hj.
    assert (Hedge : edge 2 W_pair 0 1).
    { split; [lia|]. split; [lia|]. left. reflexivity. }
    destruct i as [|[|i]]; [| |lia]; destruct j as [|[|j]]; try lia.
    + apply rt_refl.
    + apply rt_step. exact Hedge.
    + apply rt_step. apply edge_sym. exact Hedge.
    + apply rt_refl.
Defined.

Lemma number_of_edges_witness (n : nat) (W : ndarray) :
  square n W -> number_of_edges (graph_of W) <> 0%nat ->
  exists i j, (i < n)%nat /\ (j < n)%nat /\ 0 < W[@i, j].
Proof.
  intros Hsq Hne. unfold number_of_edges in Hne.
  rewrite (length_graph_of n W Hsq) in Hne.
  destruct (filter (fun p => mem (snd p) (neighbors (graph_of W) (fst p)))
              (flat_map (fun i => map (fun j => (i, j)) (seq 0 (S i))) (seq 0 n)))
    as [|[a b] l] eqn:F; [contradiction|].
  assert (Hin : In (a, b) ((a, b) :: l)) by (left; reflexivity).
  rewrite <- F in Hin. apply filter_In in Hin. destruct Hin as [_ Hm].
  cbn [fst snd] in Hm. apply mem_In in Hm.
  apply (neighbors_graph_of n W a b Hsq) in Hm.
  destruct Hm as [Ha [Hb [Hp | Hp]]].
  - exists a, b. auto.
  - exists b, a. auto.
Qed.

Lemma StronglySorted_lt_seq (a n : nat) : StronglySorted lt (seq a n).
Proof.
  revert a. induction n as [|n IH]; intro a; cbn [seq]; constructor.
  - apply IH.
  - apply Forall_forall. intros x Hx. apply in_seq in Hx. lia.
Qed.

Lemma nat_leb_transitive : Transitive (fun x y : nat => is_true (x <=? y)%nat).
Proof.
  intros x y z Hxy Hyz. unfold is_true in *.
  apply Nat.leb_le in Hxy, Hyz. apply Nat.leb_le. lia.
Qed.

Lemma sorted_nodup_increasing (l : list nat) :
  StronglySorted (fun x y => is_true (x <=? y)%nat) l -> NoDup l ->
  StronglySorted lt l.
Proof.
  intro Hs. induction Hs as [|x l Hs IH Hx]; intro Hnd; constructor.
  - apply IH. inversion Hnd; assumption.
  - inversion Hnd as [|? ? Hnin _]; subst.
    rewrite Forall_forall in *. intros y Hy.
    specialize (Hx y Hy). apply Nat.leb_le in Hx.
    assert (x <> y) by (intro E; subst; contradiction). lia.
Qed.

(** What the function returns on a graph that has an edge. *)
Lemma largest_component_with_edges (n : nat) (W : ndarray) :
  square n W -> number_of_edges (graph_of W) <> 0%nat ->
  let Wg := fst (Components.largest_component_submatrix W) in
  let idx := snd (Components.largest_component_submatrix W) in
  is_component n W idx /\ StronglySorted lt idx /\
  square (length idx) Wg /\
  (forall a b, (a < length idx)%nat -> (b < length idx)%nat ->
               Wg[@a, b] = W[@nth a idx O, nth b idx O]) /\
  (forall c, is_component n W c -> (length c <= length idx)%nat).
Proof.
  intros Hsq Hedges.
  destruct (number_of_edges_witness n W Hsq Hedges) as [i [j [Hi [Hj Hpos]]]].
  assert (Hnodes : number_of_nodes (graph_of W) = n)
    by apply (length_graph_of n W Hsq).
  unfold Components.largest_component_submatrix. cbv zeta.
  change (from_numpy_array (map (map (fun w : Q => Qltb 0 w)) W))
    with (graph_of W).
  rewrite Hnodes, (square_shape0 n W Hsq).
  assert (En : (n =? 0)%nat = false) by (apply Nat.eqb_neq; lia).
  assert (Ee : (number_of_edges (graph_of W) =? 0)%nat = false)
    by (apply Nat.eqb_neq; exact Hedges).
  rewrite En, Ee. cbn [orb].
  pose proof (connected_components_sound n W Hsq) as Hsound.
  pose proof (connected_components_cover n W Hsq) as Hcover.
  destruct (connected_components (graph_of W)) as [|c [|c' cs]] eqn:Ecomps.
  - destruct (Hcover i Hi) as [c [[] _]].
  - cbn [fst snd].
    assert (Hc : is_component n W c) by (apply Hsound; left; reflexivity).
    assert (Hall : forall u, (u < n)%nat -> In u c).
    { intros u Hu. destruct (Hcover u Hu) as [c1 [[<- | []] Hin]]. exact Hin. }
    destruct (whole_graph_is_giant n W c Hsq Hc Hall) as [H1 [H2 [H3 [H4 _]]]].
    split; [exact H1|]. split; [apply StronglySorted_lt_seq|].
    split; [exact H3|]. split; [exact H4|exact H2].
  - cbn [fst snd].
    set (gcc := max_by_len c (c' :: cs)).
    destruct (max_by_len_spec c (c' :: cs)) as [Hin Hmax]. fold gcc in Hin, Hmax.
    assert (Hperm : Permutation gcc (NatSort.sort gcc))
      by apply NatSort.Permuted_sort.
    assert (Hcomp : is_component n W (NatSort.sort gcc)).
    { apply (is_component_perm n W gcc _ Hperm). apply Hsound. exact Hin. }
    split; [exact Hcomp|]. split; [|split; [|split]].
    + apply sorted_nodup_increasing; [|apply Hcomp].
      apply NatSort.StronglySorted_sort. exact nat_leb_transitive.
    + apply square_np_ix.
    + intros a b. apply np_ix_cell.
    + intros c0 Hc0. rewrite <- (Permutation_length Hperm).
      rewrite <- Ecomps in Hin, Hmax.
      apply (longest_found_is_longest n W Hsq gcc Hin Hmax c0 Hc0).
Qed.

(** X10. largest_component_submatrix returns with W_gcc a list idx of
    distinct node indices of W in increasing order, one per row of W_gcc;
    idx is empty only for the empty matrix. *)
Theorem largest_component_indices_are_increasing_nodes :
  forall (n : nat) (W : ndarray),
    square n W ->
    let Wg := fst (Components.largest_component_submatrix W) in
    let idx := snd (Components.largest_component_submatrix W) in
    StronglySorted lt idx /\
    (forall v, In v idx -> (v < n)%nat) /\
    (length idx <= n)%nat /\
    ((0 < n)%nat -> idx <> []) /\
    square (length idx) Wg /\
    (forall a b, (a < length idx)%nat -> (b < length idx)%nat ->
                 Wg[@a, b] = W[@nth a idx O, nth b idx O]).
Proof.
  intros n W Hsq.
  destruct (Nat.eq_dec (number_of_edges (graph_of W)) 0) as [E0 | Hne].
  - assert (E : Components.largest_component_submatrix W = (W, seq 0 n)).
    { unfold Components.largest_component_submatrix. cbv zeta.
      change (from_numpy_array (map (map (fun w : Q => Qltb 0 w)) W))
        with (graph_of W).
      rewrite E0, (square_shape0 n W Hsq), orb_true_r. reflexivity. }
    rewrite E. cbn [fst snd]. rewrite length_seq.
    split; [apply StronglySorted_lt_seq|].
    split; [intros v Hv; apply in_seq in Hv; lia|].
    split; [lia|]. split; [destruct n; [lia|discriminate]|].
    split; [exact Hsq|].
    intros a b Ha Hb. rewrite !seq_nth by assumption. reflexivity.
  - destruct (largest_component_with_edges n W Hsq Hne) as [Hc [Hs [Hq [Hcell _]]]].
    cbv zeta.
    assert (Hbound : forall v,
              In v (snd (Components.largest_component_submatrix W)) -> (v < n)%nat).
    { intros v Hv. destruct Hc as [_ [u [_ Hiff]]]. apply Hiff in Hv. apply Hv. }
    split; [exact Hs|]. split; [exact Hbound|].
    split; [apply (node_set_length n); split; [apply Hc|exact Hbound]|].
    split; [|split; [exact Hq|exact Hcell]].
    intros _ Eidx. destruct Hc as [_ [u [Hu Hiff]]].
    assert (Hin : In u (snd (Components.largest_component_submatrix W)))
      by (apply Hiff; split; [exact Hu|apply rt_refl]).
    rewrite Eidx in Hin. destruct Hin.
Qed.

Lemma largest_component_indices_are_increasing_nodes_witness :
  StronglySorted lt (snd (Components.largest_component_submatrix W_two_parts)) /\
  (length (snd (Components.largest_component_submatrix W_two_parts)) <= 5)%nat.
Proof.
  destruct (largest_component_indices_are_increasing_nodes 5 W_two_parts)
    as [H1 [_ [H3 _]]].
  - split; [reflexivity | repeat constructor].
  - split; assumption.
Defined.

(** X11. Taking the giant component twice changes nothing more: applied to
    its own result, largest_component_submatrix returns that matrix with all
    of its node indices. *)
Theorem largest_component_submatrix_is_idempotent :
  forall (n : nat) (W : ndarray),
    square n W ->
    let Wg := fst (Components.largest_component_submatrix W) in
    let idx := snd (Components.largest_component_submatrix W) in
    Components.largest_component_submatrix Wg = (Wg, seq 0 (length idx)).
Proof.
  intros n W Hsq.
  destruct (Nat.eq_dec (number_of_edges (graph_of W)) 0) as [E0 | Hne].
  - assert (E : Components.largest_component_submatrix W = (W, seq 0 n)).
    { unfold Components.largest_component_submatrix. cbv zeta.
      change (from_numpy_array (map (map (fun w : Q => Qltb 0 w)) W))
        with (graph_of W).
      rewrite E0, (square_shape0 n W Hsq), orb_true_r. reflexivity. }
    cbv zeta. rewrite E. cbn [fst snd]. rewrite length_seq. exact E.
  - destruct (largest_component_with_edges n W Hsq Hne) as [Hc [_ [Hq [Hcell _]]]].
    cbv zeta.
    pose proof (submatrix_of_component_connected n W _ _ Hc Hcell) as Hconn.
    apply few_components_returned_whole; [exact Hq|].
    destruct (length (snd (Components.largest_component_submatrix W))) as [|m] eqn:El.
    + unfold connected_components. rewrite (length_graph_of 0 _ Hq).
      cbn [seq components_from length]. lia.
    + rewrite (connected_graph_one_component (S m) _ Hq) by (try assumption; lia).
      cbn [length]. lia.
Qed.

Lemma largest_component_submatrix_is_idempotent_witness :
  Components.largest_component_submatrix
    (fst (Components.largest_component_submatrix W_two_parts))
  = (fst (Components.largest_component_submatrix W_two_parts),
     seq 0 (length (snd (Components.largest_component_submatrix W_two_parts)))).
Proof.
  apply (largest_component_submatrix_is_idempotent 5 W_two_parts).
  split; [reflexivity | repeat constructor].
Defined.

(** * The pipeline of modularity.py *)

(** Normalisation of a clean matrix that has an entry. *)
Lemma normalize_clean (n : nat) (W : ndarray) :
  cleaned n W -> (0 < n)%nat ->
  exists U,
    Modularity.maybe_normalize W true = Some U /\
    cleaned n U /\ unit_weights n U /\
    (forall i j, (i < n)%nat -> (j < n)%nat -> (0 < U[@i, j] <-> 0 < W[@i, j])).
Proof.
  intros Hc Hn. assert (Hsq : square n W) by apply Hc.
  pose proof (cell_in_concat n W 0 0 Hsq Hn Hn) as Hin0.
  destruct (np_max_some W _ Hin0) as [m Hm].
  destruct (np_max_spec W m Hm) as [Hmin Hub].
  destruct (Qlt_le_dec 0 m) as [Hpos | Hle].
  - destruct (concat_cell n W m Hsq Hmin) as [i [j [Hi [Hj E]]]].
    rewrite E in Hpos.
    destruct (normalize_positive_matrix n W i j Hc Hi Hj Hpos)
      as [U [H [H1 [H2 [H3 _]]]]].
    exists U. auto.
  - exists W. rewrite maybe_normalize_unfold, Hm.
    assert (Em : Qltb 0 m = false) by (apply Qltb_ge; exact Hle).
    rewrite Em. split; [reflexivity|]. split; [exact Hc|]. split.
    + intros i j Hi Hj. destruct Hc as [_ [_ [_ Hnn]]].
      split; [apply Hnn; assumption|].
      eapply Qle_trans; [apply Hub, (cell_in_concat n); assumption|].
      eapply Qle_trans; [exact Hle|]. discriminate.
    + intros i j _ _. reflexivity.
Qed.

Lemma keeps_weights_unit (n : nat) (W U : ndarray) :
  unit_weights n W -> keeps_weights_of n W U -> unit_weights n U.
Proof.
  intros Hu Hk i j Hi Hj. destruct (Hk i j Hi Hj) as [E | E]; rewrite E.
  - split; [apply Qle_refl|discriminate].
  - apply Hu; assumption.
Qed.

(** A matrix read off a clean matrix through node indices is clean. *)
Lemma restricted_clean (n m : nat) (W Wg : ndarray) (idx : list nat) :
  cleaned n W -> unit_weights n W ->
  length idx = m -> (forall v, In v idx -> (v < n)%nat) ->
  square m Wg ->
  (forall a b, (a < m)%nat -> (b < m)%nat ->
               Wg[@a, b] = W[@nth a idx O, nth b idx O]) ->
  cleaned m Wg /\ unit_weights m Wg.
Proof.
  intros [Hsq [Hsym [Hzd Hnn]]] Hunit Hlen Hb Hq Hcell.
  assert (Hidx : forall a, (a < m)%nat -> (nth a idx O < n)%nat).
  { intros a Ha. apply Hb. apply nth_In. lia. }
  split; [split; [exact Hq|split; [|split]]|].
  - intros a b Ha Hb'. rewrite !Hcell by assumption. apply Hsym; apply Hidx; assumption.
  - intros a Ha. rewrite Hcell by assumption. apply Hzd, Hidx. exact Ha.
  - intros a b Ha Hb'. rewrite Hcell by assumption. apply Hnn; apply Hidx; assumption.
  - intros a b Ha Hb'. rewrite Hcell by assumption. apply Hunit; apply Hidx; assumption.
Qed.

(** A connected clean graph on two nodes or more has a positive weight
    above the diagonal. *)
Lemma connected_graph_has_an_edge (m : nat) (W : ndarray) :
  cleaned m W -> (2 <= m)%nat -> graph_connected m W ->
  (1 <= count_triu_positive W)%nat.
Proof.
  intros [Hsq [Hsym [Hzd _]]] Hm Hconn.
  assert (Hpath : connected_to m W 0 1) by (apply Hconn; lia).
  apply clos_rt_rt1n in Hpath.
  inversion Hpath as [| z z' Hedge Hrest]; subst.
  destruct Hedge as [_ [Hz Hor]].
  assert (Hpos : 0 < W[@0, z]).
  { destruct Hor as [H | H]; [exact H|]. rewrite (Hsym 0%nat z) by lia. exact H. }
  assert (Hne : positive_pairs W <> []).
  { apply (neighbor_gives_pair m W 0 z); try assumption; try lia.
    intro E. subst z. rewrite (Hzd 0%nat) in Hpos by lia.
    exact (Qlt_irrefl 0 Hpos). }
  change (count_triu_positive W) with (length (positive_pairs W)).
  destruct (positive_pairs W); [contradiction|simpl; lia].
Qed.

Lemma positive_count_gives_entry (n : nat) (W : ndarray) :
  square n W -> (1 <= count_triu_positive W)%nat ->
  exists i j, (i < j)%nat /\ (j < n)%nat /\ 0 < W[@i, j].
Proof.
  intros Hsq Hc. change (count_triu_positive W) with (length (positive_pairs W)) in Hc.
  destruct (positive_pairs W) as [|[i j] l] eqn:E; [simpl in Hc; lia|].
  assert (Hin : In (i, j) (positive_pairs W)) by (rewrite E; left; reflexivity).
  apply (in_positive_pairs n W i j Hsq) in Hin. exists i, j. exact Hin.
Qed.

(** The giant component of a clean graph with an edge is a connected graph
    with an edge. *)
Lemma giant_component_has_an_edge (n : nat) (W : ndarray) (i j : nat) :
  cleaned n W -> unit_weights n W ->
  (i < j)%nat -> (j < n)%nat -> 0 < W[@i, j] ->
  let Wg := fst (Components.largest_component_submatrix W) in
  let m := length (snd (Components.largest_component_submatrix W)) in
  (m <= n)%nat /\ cleaned m Wg /\ unit_weights m Wg /\
  graph_connected m Wg /\ (1 <= count_triu_positive Wg)%nat.
Proof.
  intros Hc Hunit Hij Hj Hpos. assert (Hsq : square n W) by apply Hc.
  assert (Hedges : number_of_edges (graph_of W) <> 0%nat)
    by (apply (number_of_edges_positive n W i j); try assumption; lia).
  destruct (largest_component_with_edges n W Hsq Hedges)
    as [Hcomp [_ [Hq [Hcell Hmax]]]].
  cbv zeta.
  set (idx := snd (Components.largest_component_submatrix W)) in *.
  set (Wg := fst (Components.largest_component_submatrix W)) in *.
  assert (Hbound : forall v, In v idx -> (v < n)%nat).
  { intros v Hv. destruct Hcomp as [_ [u [_ Hiff]]]. apply Hiff in Hv. apply Hv. }
  assert (Hlen : (length idx <= n)%nat).
  { apply (node_set_length n). split; [apply Hcomp|exact Hbound]. }
  destruct (restricted_clean n (length idx) W Wg idx Hc Hunit eq_refl Hbound Hq Hcell)
    as [Hcg Hug].
  pose proof (submatrix_of_component_connected n W Wg idx Hcomp Hcell) as Hconn.
  split; [exact Hlen|]. split; [exact Hcg|]. split; [exact Hug|].
  split; [exact Hconn|].
  apply (connected_graph_has_an_edge (length idx)); try assumption.
  (* the component of the edge has two nodes, the giant one at least as many *)
  assert (Hi : (i < n)%nat) by lia.
  pose proof (plain_bfs_component n W Hsq i Hi) as Hci.
  pose proof (Hmax _ Hci) as Hle.
  destruct (plain_bfs_spec n W Hsq i Hi) as [[Hnd _] Hiff].
  assert (Hini : In i (plain_bfs (graph_of W) i)) by (apply Hiff; apply rt_refl).
  assert (Hinj : In j (plain_bfs (graph_of W) i)).
  { apply Hiff. apply rt_step. split; [exact Hi|]. split; [exact Hj|]. left. exact Hpos. }
  assert (H2 : (2 <= length (plain_bfs (graph_of W) i))%nat).
  { apply (NoDup_incl_length (l := [i; j])).
    - constructor; [intros [E | []]; lia|]. constructor; [intros []|constructor].
    - intros x [<- | [<- | []]]; assumption. }
  lia.
Qed.

Lemma existsb_positive_mask (W : ndarray) (l : list (nat * nat)) :
  existsb (fun b : bool => b)
          (map (fun w : Q => Qltb 0 w) (map (fun p : nat * nat => W[@fst p, snd p]) l))
  = negb (length (filter (fun p => Qltb 0 (weight_at W p)) l) =? 0)%nat.
Proof.
  induction l as [|p l IH]; [reflexivity|]. cbn [map existsb filter].
  unfold weight_at at 1. destruct (Qltb 0 W[@fst p, snd p]); [reflexivity|].
  cbn [orb]. exact IH.
Qed.

Lemma mask_select_map_map {A B : Type} (f : B -> bool) (g : A -> B) (l : list A) :
  mask_select (map (fun x => f (g x)) l) (map g l)
  = map g (filter (fun x => f (g x)) l).
Proof.
  induction l as [|x l IH]; [reflexivity|]. cbn [map mask_select filter].
  destruct (f (g x)); cbn [map]; rewrite IH; reflexivity.
Qed.

Lemma combine_with_map {A B C : Type} (f : A -> B) (g : A * B -> C) (l : list A) :
  map g (combine l (map f l)) = map (fun x => g (x, f x)) l.
Proof.
  induction l as [|x l IH]; [reflexivity|]. cbn [map combine]. rewrite IH.
  reflexivity.
Qed.

(** The two cases of [modularity_louvain]. *)
Lemma modularity_louvain_cases :
  forall (best_partition : wgraph -> Q -> option (list (nat * nat)))
         (louvain_modularity : list (nat * nat) -> wgraph -> option float)
         (n : nat) (W : ndarray) (gamma : Q),
    square n W ->
    let G := {| wg_nodes := n;
                wg_edges := map (fun p => (fst p, snd p, weight_at W p))
                                (positive_pairs W) |} in
    (count_triu_positive W = 0%nat ->
     ModularityScript.modularity_louvain best_partition louvain_modularity W gamma
     = Some (NaN, 0%nat, "LOUVAIN"%string)) /\
    (count_triu_positive W <> 0%nat ->
     ModularityScript.modularity_louvain best_partition louvain_modularity W gamma
     = (part <- best_partition G gamma ;;
        Q <- louvain_modularity part G ;;
        Some (Q, length (nodup Nat.eq_dec (map snd part)), "LOUVAIN"%string))).
Proof.
  intros best_partition louvain_modularity n W gamma Hsq G.
  assert (Hcount : count_triu_positive W = length (positive_pairs W)) by reflexivity.
  unfold ModularityScript.modularity_louvain. cbv zeta.
  rewrite (square_shape0 n W Hsq).
  rewrite existsb_positive_mask.
  assert (Epairs : filter (fun p => Qltb 0 (weight_at W p)) (triu_indices n)
                   = positive_pairs W).
  { unfold positive_pairs. rewrite (square_shape0 n W Hsq). reflexivity. }
  rewrite Epairs.
  split; intro H; rewrite Hcount in H.
  - rewrite H. reflexivity.
  - assert (E : (length (positive_pairs W) =? 0)%nat = false)
      by (apply Nat.eqb_neq; exact H).
    rewrite E. cbn [negb wg_nodes wg_edges app].
    rewrite map_map, mask_select_map.
    rewrite (mask_select_map_map (fun w : Q => Qltb 0 w)
               (fun p : nat * nat => W[@fst p, snd p])).
    change (filter (fun x : nat * nat => Qltb 0 W[@fst x, snd x]) (triu_indices n))
      with (filter (fun p => Qltb 0 (weight_at W p)) (triu_indices n)).
    rewrite Epairs.
    rewrite (combine_with_map (fun p : nat * nat => W[@fst p, snd p])
               (fun pw : nat * nat * Q => (fst (fst pw), snd (fst pw), snd pw))).
    cbn [fst snd].
    change (map (fun x : nat * nat => (fst x, snd x, W[@fst x, snd x]))
                (positive_pairs W))
      with (wg_edges G).
    assert (El : (length (wg_edges G) =? 0)%nat = false).
    { apply Nat.eqb_neq. unfold G. cbn [wg_edges]. rewrite length_map. exact H. }
    rewrite El. reflexivity.
Qed.


(** X13. modularity_louvain returns (NaN, 0, "LOUVAIN") without consulting
    the Louvain routines exactly when W has no positive entry above the
    diagonal; otherwise the graph it hands to them has one edge per positive
    pair above the diagonal, with its weight, and the result is theirs. *)
Theorem modularity_louvain_guards_the_empty_graph :
  forall (best_partition : wgraph -> Q -> option (list (nat * nat)))
         (louvain_modularity : list (nat * nat) -> wgraph -> option float)
         (n : nat) (W : ndarray) (gamma : Q),
    square n W ->
    let G := {| wg_nodes := n;
                wg_edges := map (fun p => (fst p, snd p, weight_at W p))
                                (positive_pairs W) |} in
    (count_triu_positive W = 0%nat ->
     ModularityScript.modularity_louvain best_partition louvain_modularity W gamma
     = Some (NaN, 0%nat, "LOUVAIN"%string)) /\
    (count_triu_positive W <> 0%nat ->
     ModularityScript.modularity_louvain best_partition louvain_modularity W gamma
     = (part <- best_partition G gamma ;;
        Q <- louvain_modularity part G ;;
        Some (Q, length (nodup Nat.eq_dec (map snd part)), "LOUVAIN"%string))).
Proof.
  intros best_partition louvain_modularity n W gamma Hsq G.
  destruct (modularity_louvain_cases best_partition louvain_modularity n W gamma Hsq)
    as [H0 H1].
  split; [exact H0 | exact H1].
Qed.

Lemma modularity_louvain_guards_the_empty_graph_witness :
  ModularityScript.modularity_louvain
    (fun _ _ => Some []) (fun _ _ => Some (Fin 1)) W_no_edge 1
  = Some (NaN, 0%nat, "LOUVAIN"%string).
Proof.
  apply (modularity_louvain_guards_the_empty_graph
           (fun _ _ => Some []) (fun _ _ => Some (Fin 1)) 2 W_no_edge 1).
  - split; [reflexivity | repeat constructor].
  - reflexivity.
Defined.

(** The giant component of a clean matrix with unit weights is such a
    matrix, on no more nodes. *)
Lemma largest_component_clean (n : nat) (W : ndarray) :
  cleaned n W -> unit_weights n W ->
  let Wg := fst (Components.largest_component_submatrix W) in
  (shape0 Wg <= n)%nat /\ cleaned (shape0 Wg) Wg /\ unit_weights (shape0 Wg) Wg.
Proof.
  intros Hc Hunit. assert (Hsq : square n W) by apply Hc. cbv zeta.
  destruct (Nat.eq_dec (number_of_edges (graph_of W)) 0) as [E0 | Hne].
  - assert (E : Components.largest_component_submatrix W = (W, seq 0 n)).
    { unfold Components.largest_component_submatrix. cbv zeta.
      change (from_numpy_array (map (map (fun w : Q => Qltb 0 w)) W))
        with (graph_of W).
      rewrite E0, (square_shape0 n W Hsq), orb_true_r. reflexivity. }
    rewrite E. cbn [fst]. rewrite (square_shape0 n W Hsq). auto.
  - destruct (largest_component_with_edges n W Hsq Hne)
      as [Hcomp [_ [Hq [Hcell _]]]].
    set (idx := snd (Components.largest_component_submatrix W)) in *.
    set (Wg := fst (Components.largest_component_submatrix W)) in *.
    assert (Hbound : forall v, In v idx -> (v < n)%nat).
    { intros v Hv. destruct Hcomp as [_ [u [_ Hiff]]]. apply Hiff in Hv. apply Hv. }
    rewrite (square_shape0 _ Wg Hq).
    split; [apply (node_set_length n); split; [apply Hcomp|exact Hbound]|].
    apply (restricted_clean n (length idx) W Wg idx); auto.
Qed.

(** What [prepare] hands to the modularity routine. *)
Lemma prepare_hands_over (n : nat) (csv : ndarray) :
  square n csv -> (0 < n)%nat ->
  exists W used avail,
    ModularityScript.prepare csv = Some (W, used, avail) /\
    (shape0 W <= n)%nat /\
    cleaned (shape0 W) W /\ unit_weights (shape0 W) W /\
    used <= ModularityScript.TARGET_DENSITY /\ used <= avail /\
    ((exists i j, (i < n)%nat /\ (j < n)%nat /\
                  0 < (Modularity.load_W_csv csv)[@i, j]) ->
     graph_connected (shape0 W) W /\ (1 <= count_triu_positive W)%nat).
Proof.
  intros Hsq Hn.
  assert (HL : cleaned n (Modularity.load_W_csv csv)).
  { apply load_and_clean_cleaned. exact Hsq. }
  destruct (normalize_clean n _ HL Hn) as [W1 [Hnorm [Hc1 [Hu1 Hiff1]]]].
  assert (Hsq1 : square n W1) by apply Hc1.
  destruct (threshold_to_target_density_returns n W1
              ModularityScript.TARGET_DENSITY ModularityScript.KNN_K Hsq1)
    as [U [used [avail [Hthr Hform]]]].
  assert (Hkeep : keeps_weights_of n W1 U /\ invariant n U).
  { destruct Hform as [-> | [M ->]].
    - split; [apply zeros_like_keeps_weights | apply zeros_like_inv]; exact Hsq1.
    - split; [apply symmetrize_masked_keeps_weights; exact Hc1
             | apply symmetrize_masked_inv; exact Hsq1]. }
  destruct Hkeep as [Hkeep HinvU].
  destruct (keeps_weights_cleaned n W1 U Hc1 HinvU Hkeep) as [HcU _].
  pose proof (keeps_weights_unit n W1 U Hu1 Hkeep) as HuU.
  assert (Htarget : 0 <= ModularityScript.TARGET_DENSITY) by discriminate.
  destruct (reported_densities n W1 _ _ U used avail Hsq1 Htarget Hthr)
    as [Hused1 [Hused2 _]].
  destruct (largest_component_clean n U HcU HuU) as [Hshape [Hcg Hug]].
  exists (fst (Components.largest_component_submatrix U)), used, avail.
  split.
  { unfold ModularityScript.prepare. cbv zeta. rewrite Hnorm. cbn [bind].
    rewrite Hthr. cbn [bind fst snd]. reflexivity. }
  split; [exact Hshape|]. split; [exact Hcg|]. split; [exact Hug|].
  split; [exact Hused1|]. split; [exact Hused2|].
  intros [i [j [Hi [Hj Hpos]]]].
  apply (Hiff1 i j Hi Hj) in Hpos.
  assert (Hne : j <> i).
  { intro E. subst j. destruct Hc1 as [_ [_ [Hzd _]]].
    rewrite (Hzd i Hi) in Hpos. exact (Qlt_irrefl 0 Hpos). }
  assert (Hn2 : (2 <= n)%nat) by lia.
  assert (Hpairs : positive_pairs W1 <> []).
  { apply (neighbor_gives_pair n W1 i j); try assumption. apply Hc1. }
  destruct (budget_edges_kept n W1 ModularityScript.TARGET_DENSITY
              ModularityScript.KNN_K Hsq1 Hn2 eq_refl Hpairs)
    as [U' [used' [avail' [Hthr' [Hone Hcount]]]]].
  rewrite Hthr in Hthr'. injection Hthr' as <- <- <-.
  assert (HcountU : (1 <= count_triu_positive U)%nat) by lia.
  destruct (positive_count_gives_entry n U (proj1 HcU) HcountU)
    as [a [b [Hab [Hb HposU]]]].
  destruct (giant_component_has_an_edge n U a b HcU HuU Hab Hb HposU)
    as [_ [Hcg' [_ [Hconn Hedge]]]].
  rewrite (square_shape0 _ _ (proj1 Hcg')). split; [exact Hconn|exact Hedge].
Qed.


(** X12. For every square CSV matrix with at least one row, the pipeline of
    modularity.py (load, normalise, sparsify to the target density 0.08 with
    a 3-NN backbone, keep the giant component) runs without raising and
    hands to the modularity routine a clean matrix with weights in [0, 1],
    on no more nodes than the file has; the density reported as used is at
    most 0.08 and at most the available one. When the cleaned matrix has a
    positive weight, the matrix handed over is a connected graph with at
    least one edge. *)
Theorem modularity_pipeline_hands_over_a_clean_graph :
  forall (n : nat) (csv : ndarray),
    square n csv -> (0 < n)%nat ->
    exists W used avail,
      ModularityScript.prepare csv = Some (W, used, avail) /\
      (shape0 W <= n)%nat /\
      cleaned (shape0 W) W /\ unit_weights (shape0 W) W /\
      used <= ModularityScript.TARGET_DENSITY /\ used <= avail /\
      ((exists i j, (i < n)%nat /\ (j < n)%nat /\
                    0 < (Modularity.load_W_csv csv)[@i, j]) ->
       graph_connected (shape0 W) W /\ (1 <= count_triu_positive W)%nat).
Proof.
  intros n csv Hsq Hn.
  destruct (prepare_hands_over n csv Hsq Hn) as [W [used [avail H]]].
  exists W, used, avail. exact H.
Qed.

Lemma modularity_pipeline_hands_over_a_clean_graph_witness :
  exists W used avail,
    ModularityScript.prepare W_two_parts = Some (W, used, avail) /\
    (shape0 W <= 5)%nat /\ cleaned (shape0 W) W /\
    used <= ModularityScript.TARGET_DENSITY.
Proof.
  destruct (modularity_pipeline_hands_over_a_clean_graph 5 W_two_parts)
    as [W [used [avail [H [H1 [H2 [_ [H4 _]]]]]]]].
  - split; [reflexivity | repeat constructor].
  - lia.
  - exists W, used, avail. auto.
Defined.

(** * File names accepted by the pattern *)

Lemma upper_of_lower (c : ascii) : upper_char (lower_char c) = upper_char c.
Proof.
  destruct c as [[] [] [] [] [] [] [] []]; reflexivity.
Qed.

Lemma lower_keeps_underscore (c : ascii) :
  Ascii.eqb (lower_char c) "_"%char = Ascii.eqb c "_"%char.
Proof.
  destruct c as [[] [] [] [] [] [] [] []]; reflexivity.
Qed.

Lemma str_upper_of_lower (s : String.string) :
  str_upper (str_lower s) = str_upper s.
Proof.
  induction s as [|c s IH]; [reflexivity|].
  unfold str_upper, str_lower in *. cbn [str_map].
  rewrite upper_of_lower, IH. reflexivity.
Qed.

Lemma ci_eqb_upper (a b : String.string) :
  ci_eqb a b = true -> str_upper a = str_upper b.
Proof.
  unfold ci_eqb. intro H. apply String.eqb_eq in H.
  rewrite <- (str_upper_of_lower a), <- (str_upper_of_lower b), H. reflexivity.
Qed.

Lemma match_method_upper (rest g : String.string) :
  match_method rest = Some g ->
  str_upper g = "ACT"%string \/ str_upper g = "TREKKER"%string.
Proof.
  unfold match_method.
  match goal with
  | |- context [if ?b then Some ?x else None] =>
      destruct b eqn:E1
  end.
  - intro H. injection H as <-. apply andb_true_iff in E1.
    left. apply (ci_eqb_upper _ "ACT"%string). apply E1.
  - match goal with
    | |- context [if ?b then Some ?x else None] =>
        destruct b eqn:E2; [|discriminate]
    end.
    intro H. injection H as <-. apply andb_true_iff in E2.
    right. apply (ci_eqb_upper _ "TREKKER"%string). apply E2.
Qed.

Lemma cut_some (sep : ascii) (s a b : String.string) :
  cut sep s = (a, Some b) ->
  s = String.append a (String.String sep b) /\ str_contains sep a = false.
Proof.
  revert a b. induction s as [|c s IH]; intros a b; cbn [cut]; [discriminate|].
  destruct (Ascii.eqb c sep) eqn:E.
  - intro H. injection H as <- <-. apply Ascii.eqb_eq in E. subst c.
    split; reflexivity.
  - destruct (cut sep s) as [a' ob] eqn:Ec. cbn [fst snd].
    intro H. injection H as <- ->.
    destruct (IH a' b eq_refl) as [-> Hc]. split; [reflexivity|].
    cbn [str_contains]. rewrite E, Hc. reflexivity.
Qed.

Lemma substring_all (s : String.string) :
  String.substring 0 (String.length s) s = s.
Proof.
  induction s as [|c s IH]; [reflexivity|]. cbn [String.length String.substring].
  rewrite IH. reflexivity.
Qed.

Lemma substring_none (s : String.string) :
  String.substring 0 0 s = String.EmptyString.
Proof. destruct s; reflexivity. Qed.

Lemma lower_not_underscore (c d : ascii) :
  lower_char c = d -> Ascii.eqb d "_"%char = false ->
  Ascii.eqb c "_"%char = false.
Proof.
  intros <- H. rewrite lower_keeps_underscore in H. exact H.
Qed.

(** The first eight characters of a name that begins like [INsIDER_]. *)
Lemma insider_head (fname : String.string) :
  ci_eqb (String.substring 0 8 fname) "INsIDER_"%string = true ->
  exists (h tail : String.string),
    fname = String.append h (String.String "_"%char tail) /\
    String.substring 0 8 fname = String.append h "_"%string /\
    String.substring 8 (String.length fname - 8) fname = tail /\
    String.length h = 7%nat /\
    str_contains "_"%char h = false.
Proof.
  unfold ci_eqb. intro H. apply String.eqb_eq in H.
  destruct fname as [|c0 [|c1 [|c2 [|c3 [|c4 [|c5 [|c6 [|c7 tail]]]]]]]];
    try (simpl in H; discriminate H).
  simpl in H. rewrite substring_none in H.
  injection H as H0 H1 H2 H3 H4 H5 H6 H7.
  assert (E7 : c7 = "_"%char).
  { apply Ascii.eqb_eq. rewrite <- lower_keeps_underscore.
    rewrite H7. reflexivity. }
  subst c7.
  exists (String.String c0 (String.String c1 (String.String c2 (String.String c3
            (String.String c4 (String.String c5 (String.String c6
               String.EmptyString))))))), tail.
  split; [reflexivity|]. split.
  { simpl. rewrite substring_none. reflexivity. }
  split.
  { simpl. rewrite Nat.sub_0_r. apply substring_all. }
  split; [reflexivity|].
  cbn [str_contains].
  rewrite (lower_not_underscore c0 _ H0 eq_refl),
          (lower_not_underscore c1 _ H1 eq_refl),
          (lower_not_underscore c2 _ H2 eq_refl),
          (lower_not_underscore c3 _ H3 eq_refl),
          (lower_not_underscore c4 _ H4 eq_refl),
          (lower_not_underscore c5 _ H5 eq_refl),
          (lower_not_underscore c6 _ H6 eq_refl).
  reflexivity.
Qed.

Lemma substring_split (k : nat) (s : String.string) :
  s = String.append (String.substring 0 k s)
                    (String.substring k (String.length s - k) s).
Proof.
  revert s. induction k as [|k IH]; intro s.
  - rewrite substring_none, Nat.sub_0_r, substring_all. reflexivity.
  - destruct s as [|c s]; [reflexivity|].
    cbn [String.substring String.length String.append Nat.sub].
    rewrite <- IH. reflexivity.
Qed.

Lemma match_method_splits (rest g : String.string) :
  match_method rest = Some g ->
  exists ext,
    rest = String.append g ext /\
    (str_upper g = "ACT"%string \/ str_upper g = "TREKKER"%string) /\
    (ci_eqb ext ".csv"%string = true \/
     ci_eqb ext (String.append ".csv"%string
                   (String.String "010"%char String.EmptyString)) = true).
Proof.
  intro H. pose proof (match_method_upper rest g H) as Hup.
  unfold match_method in H.
  match type of H with
  | context [if ?b then Some ?x else None] => destruct b eqn:E1
  end.
  - injection H as <-. apply andb_true_iff in E1. destruct E1 as [_ E].
    eexists. split; [apply substring_split|]. split; [exact Hup|].
    apply orb_true_iff in E. exact E.
  - match type of H with
    | context [if ?b then Some ?x else None] => destruct b eqn:E2; [|discriminate]
    end.
    injection H as <-. apply andb_true_iff in E2. destruct E2 as [_ E].
    eexists. split; [apply substring_split|]. split; [exact Hup|].
    apply orb_true_iff in E. exact E.
Qed.

Lemma append_assoc (a b c : String.string) :
  String.append (String.append a b) c = String.append a (String.append b c).
Proof.
  induction a as [|x a IH]; [reflexivity|]. cbn [String.append]. rewrite IH.
  reflexivity.
Qed.

Lemma str_contains_append (c : ascii) (a b : String.string) :
  str_contains c (String.append a b) = str_contains c a || str_contains c b.
Proof.
  induction a as [|x a IH]; [reflexivity|]. cbn [String.append str_contains].
  rewrite IH, orb_assoc. reflexivity.
Qed.

(** A name the pattern accepts, taken apart. *)
Lemma FILE_RE_match_splits (fname subj m : String.string) :
  FILE_RE_match fname = Some (subj, m) ->
  exists (h id ext : String.string) (c : ascii),
    subj = String.append h (String.String "_"%char (String.String c id)) /\
    fname = String.append subj (String.String "_"%char (String.append m ext)) /\
    String.length h = 7%nat /\
    str_contains "_"%char h = false /\
    str_contains "_"%char (String.String c id) = false /\
    (str_upper m = "ACT"%string \/ str_upper m = "TREKKER"%string) /\
    (ci_eqb ext ".csv"%string = true \/
     ci_eqb ext (String.append ".csv"%string
                   (String.String "010"%char String.EmptyString)) = true).
Proof.
  unfold FILE_RE_match. cbv zeta.
  destruct (ci_eqb (String.substring 0 8 fname) "INsIDER_"%string) eqn:Eh;
    [|discriminate].
  destruct (insider_head fname Eh) as [h [tail [Ef [Ehd [Etl [Hlen Hh]]]]]].
  rewrite Etl, Ehd.
  destruct (cut "_"%char tail) as [id orest] eqn:Ec.
  destruct id as [|c id]; [discriminate|].
  destruct orest as [rest|]; [|discriminate].
  destruct (match_method rest) as [g|] eqn:Em; [|discriminate].
  intro H. injection H as <- <-.
  destruct (cut_some _ _ _ _ Ec) as [Et Hid].
  destruct (match_method_splits rest g Em) as [ext [Er [Hup Hext]]].
  exists h, id, ext, c.
  split; [rewrite append_assoc; reflexivity|].
  split.
  { rewrite Ef at 1. rewrite Et, Er, !append_assoc. reflexivity. }
  auto.
Qed.

(** X14. A file name accepted by the pattern is its two groups joined by an
    underscore and followed by the extension (.csv in any case, possibly
    with a final newline); the method in upper case is ACT or TREKKER; and
    infer_group, in both versions, is decided by the ninth character of the
    name: "control" for C or c, "patient" for P or p, None otherwise. *)
Theorem matched_file_name_gives_method_and_group :
  forall fname subj m : String.string,
    FILE_RE_match fname = Some (subj, m) ->
    (exists ext : String.string,
       fname = String.append subj (String.String "_"%char (String.append m ext)) /\
       (str_lower ext = ".csv"%string \/
        str_lower ext = String.append ".csv"%string
                          (String.String "010"%char String.EmptyString))) /\
    (str_upper m = "ACT"%string \/ str_upper m = "TREKKER"%string) /\
    (exists c : ascii,
       String.get 8 fname = Some c /\
       let group :=
         if Ascii.eqb c "C"%char || Ascii.eqb c "c"%char
         then Some "control"%string
         else if Ascii.eqb c "P"%char || Ascii.eqb c "p"%char
              then Some "patient"%string
              else None in
       Metadata.infer_group subj = group /\ Metadata.infer_group' subj = group).
Proof.
  intros fname subj m H.
  destruct (FILE_RE_match_splits fname subj m H)
    as [h [id [ext [c [Es [Ef [Hlen [Hh [_ [Hup Hext]]]]]]]]]].
  split; [|split].
  - exists ext. split; [exact Ef|].
    destruct Hext as [E | E]; unfold ci_eqb in E; apply String.eqb_eq in E;
      [left | right]; exact E.
  - exact Hup.
  - exists c. split.
    + rewrite Ef, Es, append_assoc.
      change 8%nat with (1 + 7)%nat. rewrite <- Hlen.
      rewrite <- String.append_correct2. reflexivity.
    + cbv zeta. rewrite infer_group_versions_agree, Es.
      split; apply (infer_group_after_underscore h id c Hh).
Qed.

Lemma matched_file_name_gives_method_and_group_witness :
  str_upper "trekker"%string = "TREKKER"%string /\
  Metadata.infer_group' "INsIDER_p07"%string = Some "patient"%string.
Proof.
  destruct (matched_file_name_gives_method_and_group
              "INsIDER_p07_trekker.CSV"%string "INsIDER_p07"%string
              "trekker"%string eq_refl) as [_ [Hm [c [Hc [_ Hg]]]]].
  split.
  - destruct Hm as [Hm | Hm]; [discriminate Hm | exact Hm].
  - injection Hc as <-. exact Hg.
Defined.

(** * The node strengths of node_strength.py *)








Lemma row_as_map (r : list Q) :
  map (fun j => nth j r 0) (seq 0 (length r)) = r.
Proof.
  apply (nth_ext _ _ 0 0).
  - rewrite length_map, length_seq. reflexivity.
  - intros i Hi. rewrite length_map, length_seq in Hi.
    exact (nth_map_seq (fun j => nth j r 0) (length r) i 0 Hi).
Qed.






(** ** The strengths add up to twice the total weight *)














(** * load_csv.py: flattening and merging *)

Lemma in_index_rows (row : nat -> list nat) (l : list nat) (i j : nat) :
  In (i, j) (flat_map (fun i => map (fun j => (i, j)) (row i)) l)
  <-> In i l /\ In j (row i).
Proof.
  rewrite in_flat_map. split.
  - intros [a [Ha Hin]]. apply in_map_iff in Hin.
    destruct Hin as [b [E Hb]]. injection E as -> ->. split; assumption.
  - intros [Hi Hj]. exists i. split; [exact Hi|].
    apply in_map_iff. exists j. split; [reflexivity|exact Hj].
Qed.

Lemma NoDup_index_rows (row : nat -> list nat) (l : list nat) :
  NoDup l -> (forall i, NoDup (row i)) ->
  NoDup (flat_map (fun i => map (fun j => (i, j)) (row i)) l).
Proof.
  intros Hl Hrow. induction Hl as [|a l Ha Hl IH]; cbn [flat_map]; [constructor|].
  apply NoDup_app; [| exact IH |].
  - apply Finite.Injective_map_NoDup; [|apply Hrow].
    intros x y E. injection E as E. exact E.
  - intros [i j] Hin Hin'. apply in_map_iff in Hin.
    destruct Hin as [b [E _]]. injection E as <- <-.
    apply in_index_rows in Hin'. apply Ha. apply Hin'.
Qed.

Lemma in_np_triu_indices (n k i j : nat) :
  In (i, j) (np_triu_indices n k) <-> (i + k <= j)%nat /\ (j < n)%nat.
Proof.
  unfold np_triu_indices.
  rewrite (in_index_rows (fun i => seq (i + k) (n - (i + k)))).
  rewrite !in_seq. lia.
Qed.

Lemma NoDup_np_triu_indices (n k : nat) : NoDup (np_triu_indices n k).
Proof.
  apply (NoDup_index_rows (fun i => seq (i + k) (n - (i + k)))).
  - apply seq_NoDup.
  - intro i. apply seq_NoDup.
Qed.

Lemma np_triu_indices_one (n : nat) : np_triu_indices n 1 = triu_indices n.
Proof.
  unfold np_triu_indices, triu_indices. apply flat_map_ext. intro i.
  rewrite Nat.add_1_r. reflexivity.
Qed.

Lemma length_np_triu_indices_zero (n : nat) :
  length (np_triu_indices n 0) = (length (triu_indices n) + n)%nat.
Proof.
  unfold np_triu_indices, triu_indices.
  assert (H : forall l : list nat,
            (forall i, In i l -> (i < n)%nat) ->
            length (flat_map (fun i => map (fun j => (i, j))
                                           (seq (i + 0) (n - (i + 0)))) l)
            = (length (flat_map (fun i => map (fun j => (i, j))
                                              (seq (S i) (n - S i))) l)
               + length l)%nat).
  { induction l as [|a l IH]; intro Hl; [reflexivity|].
    cbn [flat_map length]. rewrite !length_app, !length_map, !length_seq.
    rewrite IH by (intros i Hi; apply Hl; right; exact Hi).
    assert (a < n)%nat by (apply Hl; left; reflexivity). lia. }
  rewrite H by (intros i Hi; apply in_seq in Hi; lia).
  rewrite length_seq. reflexivity.
Qed.

Lemma combine_fst_snd {A B : Type} (l : list (A * B)) :
  combine (map fst l) (map snd l) = l.
Proof.
  induction l as [|[a b] l IH]; [reflexivity|]. cbn [map combine fst snd].
  rewrite IH. reflexivity.
Qed.

Lemma fancy_index_in_range (n : nat) (mat : ndarray) (idx : list (nat * nat)) :
  square n mat ->
  (forall p, In p idx -> (fst p < n)%nat /\ (snd p < n)%nat) ->
  fancy_index mat (map fst idx) (map snd idx) = Some (map (weight_at mat) idx).
Proof.
  intros Hsq. induction idx as [|[i j] idx IH]; intro H; [reflexivity|].
  destruct (H (i, j) (or_introl eq_refl)) as [Hi Hj]. cbn [fst snd] in Hi, Hj.
  cbn [map fancy_index fst snd].
  rewrite (nth_error_nth' mat []) by (destruct Hsq as [Hl _]; lia).
  cbn [bind].
  rewrite (nth_error_nth' (nth i mat []) 0)
    by (rewrite (square_row n mat i Hsq Hi); exact Hj).
  cbn [bind]. rewrite IH by (intros p Hp; apply H; right; exact Hp).
  reflexivity.
Qed.

(** A column index out of range makes the indexing raise. *)
Lemma fancy_index_out_of_range (mat : ndarray) (idx : list (nat * nat)) (i j : nat) :
  In (i, j) idx -> (length (nth i mat []) <= j)%nat ->
  fancy_index mat (map fst idx) (map snd idx) = None.
Proof.
  intros Hin Hj. induction idx as [|[a b] idx IH]; [destruct Hin|].
  cbn [map fancy_index fst snd].
  destruct (nth_error mat a) as [row|] eqn:Ea; [|reflexivity]. cbn [bind].
  destruct (nth_error row b) as [v|] eqn:Eb; [|reflexivity]. cbn [bind].
  destruct Hin as [E | Hin].
  - injection E as -> ->. apply nth_error_nth with (d := []) in Ea.
    rewrite Ea in Hj. apply nth_error_None in Hj. congruence.
  - rewrite (IH Hin). reflexivity.
Qed.

Lemma map_const_repeat {A B : Type} (a : A) (l : list B) :
  map (fun _ => a) l = repeat a (length l).
Proof.
  induction l as [|x l IH]; [reflexivity|]. cbn [map length repeat].
  rewrite IH. reflexivity.
Qed.

(** The index arrays of [np.indices], row by row. *)
Lemma indices_rows (m : nat) (l : list nat) :
  flat_map (fun i => repeat i m) l
  = map fst (flat_map (fun i => map (fun j => (i, j)) (seq 0 m)) l) /\
  flat_map (fun _ : nat => seq 0 m) l
  = map snd (flat_map (fun i => map (fun j => (i, j)) (seq 0 m)) l).
Proof.
  induction l as [|a l [IH1 IH2]]; [split; reflexivity|].
  cbn [flat_map]. rewrite !map_app, <- IH1, <- IH2, !map_map. cbn [fst snd].
  rewrite map_id, map_const_repeat, length_seq. split; reflexivity.
Qed.

(** The cells of a square matrix, row by row. *)
Lemma concat_rows (n : nat) (mat : ndarray) :
  square n mat ->
  concat mat
  = map (weight_at mat)
        (flat_map (fun i => map (fun j => (i, j)) (seq 0 n)) (seq 0 n)).
Proof.
  intro Hsq.
  assert (E : mat = map (fun i => map (fun j => mat[@i, j]) (seq 0 n)) (seq 0 n)).
  { apply (nth_ext _ _ [] []).
    - rewrite length_map, length_seq. apply Hsq.
    - intros i Hi. assert (Hin : (i < n)%nat) by (destruct Hsq; lia).
      rewrite (nth_map_seq (fun i => map (fun j => mat[@i, j]) (seq 0 n)) n i [] Hin).
      rewrite <- (row_as_map (nth i mat [])) at 1.
      rewrite (square_row n mat i Hsq Hin). reflexivity. }
  rewrite E at 1. rewrite flat_map_concat_map, concat_map, map_map.
  f_equal. apply map_ext. intro i. rewrite map_map. reflexivity.
Qed.

Lemma flatten_upper (n : nat) (mat : ndarray) (keep_diag : bool) :
  square n mat ->
  let idx := np_triu_indices n (if keep_diag then 0 else 1) in
  LoadCsv.flatten_matrix mat true keep_diag
  = Some (map (weight_at mat) idx, map fst idx, map snd idx).
Proof.
  intros Hsq idx. unfold LoadCsv.flatten_matrix. cbv zeta.
  rewrite (square_shape0 n mat Hsq). fold idx.
  rewrite (fancy_index_in_range n mat idx Hsq); [reflexivity|].
  intros [i j] Hp. apply in_np_triu_indices in Hp. cbn [fst snd]. lia.
Qed.

Lemma flatten_full (n : nat) (mat : ndarray) (keep_diag : bool) :
  square n mat ->
  let idx := flat_map (fun i => map (fun j => (i, j)) (seq 0 n)) (seq 0 n) in
  LoadCsv.flatten_matrix mat false keep_diag
  = Some (map (weight_at mat) idx, map fst idx, map snd idx).
Proof.
  intros Hsq idx. unfold LoadCsv.flatten_matrix. cbv zeta.
  rewrite (square_shape0 n mat Hsq).
  destruct n as [|n'].
  - destruct Hsq as [Hl _]. apply length_zero_iff_nil in Hl. subst mat.
    reflexivity.
  - assert (Em : shape1 mat = S n').
    { unfold shape1. apply (square_row (S n') mat 0 Hsq). lia. }
    rewrite Em. destruct (indices_rows (S n') (seq 0 (S n'))) as [-> ->].
    rewrite (concat_rows (S n') mat Hsq). reflexivity.
Qed.

(** X16. flatten_matrix on a square n by n matrix does not raise and
    returns three aligned arrays (values, row indices, column indices) that
    list every selected cell exactly once with its value: the cells above
    the diagonal (n(n-1)/2 of them) by default, those on or above it
    (n(n-1)/2 + n) when the diagonal is kept, and all n * n cells when the
    whole matrix is asked for. *)
Theorem flatten_matrix_lists_each_cell_once :
  forall (n : nat) (mat : ndarray) (upper_only keep_diag : bool),
    square n mat ->
    exists idx : list (nat * nat),
      LoadCsv.flatten_matrix mat upper_only keep_diag
      = Some (map (weight_at mat) idx, map fst idx, map snd idx) /\
      NoDup idx /\
      (forall i j,
         In (i, j) idx <->
         (i < n)%nat /\ (j < n)%nat /\
         (upper_only = true ->
          if keep_diag then (i <= j)%nat else (i < j)%nat)) /\
      Z.of_nat (length idx)
      = (if upper_only
         then if keep_diag then total_possible n + Z.of_nat n
              else total_possible n
         else Z.of_nat n * Z.of_nat n)%Z.
Proof.
  intros n mat upper_only keep_diag Hsq. destruct upper_only.
  - exists (np_triu_indices n (if keep_diag then 0 else 1))%nat.
    split; [apply flatten_upper; exact Hsq|].
    split; [apply NoDup_np_triu_indices|]. split.
    + intros i j. rewrite in_np_triu_indices. destruct keep_diag; split.
      * intros [H1 H2]. split; [lia|split; [lia|intros _; lia]].
      * intros [_ [H2 H3]]. specialize (H3 eq_refl). lia.
      * intros [H1 H2]. split; [lia|split; [lia|intros _; lia]].
      * intros [_ [H2 H3]]. specialize (H3 eq_refl). lia.
    + destruct keep_diag.
      * rewrite length_np_triu_indices_zero, Nat2Z.inj_add, length_triu_indices.
        reflexivity.
      * rewrite np_triu_indices_one. apply length_triu_indices.
  - exists (flat_map (fun i => map (fun j => (i, j)) (seq 0 n)) (seq 0 n)).
    split; [apply flatten_full; exact Hsq|]. split.
    + apply (NoDup_index_rows (fun _ => seq 0 n)); [|intros _]; apply seq_NoDup.
    + split.
      * intros i j. rewrite (in_index_rows (fun _ => seq 0 n)), !in_seq.
        split; [intros [H1 H2]; split; [lia|split; [lia|discriminate]]
               | intros [H1 [H2 _]]; lia].
      * rewrite (flat_map_constant_length (c := n)), length_seq, Nat2Z.inj_mul;
          [reflexivity|].
        intros x _. rewrite length_map, length_seq. reflexivity.
Qed.

Lemma flatten_matrix_lists_each_cell_once_witness :
  exists idx : list (nat * nat),
    LoadCsv.flatten_matrix W_one_edge true false
    = Some (map (weight_at W_one_edge) idx, map fst idx, map snd idx) /\
    Z.of_nat (length idx) = 3%Z.
Proof.
  destruct (flatten_matrix_lists_each_cell_once 3 W_one_edge true false)
    as [idx [H [_ [_ Hlen]]]].
  - split; [reflexivity | repeat constructor].
  - exists idx. split; [exact H | exact Hlen].
Defined.

(** X17. In the upper-triangle mode flatten_matrix raises on a matrix with
    two rows or more whose rows are shorter than the number of rows: the
    index pairs are taken from the number of rows alone. *)
Theorem flatten_matrix_raises_on_a_tall_matrix :
  forall (mat : ndarray) (keep_diag : bool),
    (2 <= shape0 mat)%nat -> (shape1 mat < shape0 mat)%nat ->
    LoadCsv.flatten_matrix mat true keep_diag = None.
Proof.
  intros mat keep_diag Hn Hm. unfold LoadCsv.flatten_matrix. cbv zeta.
  rewrite (fancy_index_out_of_range mat _ 0 (shape0 mat - 1)); [reflexivity| |].
  - apply in_np_triu_indices. destruct keep_diag; lia.
  - unfold shape1 in Hm. lia.
Qed.

Lemma flatten_matrix_raises_on_a_tall_matrix_witness :
  LoadCsv.flatten_matrix [[1]; [2]] true false = None.
Proof.
  apply flatten_matrix_raises_on_a_tall_matrix; vm_compute; lia.
Defined.

(** ** append_subject *)

Lemma digits_without_underscore (d : Decimal.uint) :
  str_contains "_"%char (DecimalString.NilEmpty.string_of_uint d) = false.
Proof.
  induction d; cbn [DecimalString.NilEmpty.string_of_uint str_contains];
    try rewrite IHd; reflexivity.
Qed.

Lemma str_of_nat_injective (a b : nat) : str_of_nat a = str_of_nat b -> a = b.
Proof.
  unfold str_of_nat. intro H.
  apply (f_equal DecimalString.NilEmpty.uint_of_string) in H.
  rewrite !DecimalString.NilEmpty.usu in H. injection H as H.
  apply (f_equal Nat.of_uint) in H.
  rewrite !DecimalNat.Unsigned.of_to in H. exact H.
Qed.

(** Two cells never share a column name. *)
Lemma edge_column_injective (r c r' c' : nat) :
  LoadCsv.edge_column r c = LoadCsv.edge_column r' c' -> r = r' /\ c = c'.
Proof.
  unfold LoadCsv.edge_column. cbn [String.append]. intro H.
  injection H as H.
  assert (H1 := cut_at_first "_"%char (str_of_nat r) (str_of_nat c)
                  (digits_without_underscore _)).
  assert (H2 := cut_at_first "_"%char (str_of_nat r') (str_of_nat c')
                  (digits_without_underscore _)).
  rewrite H in H1. rewrite H1 in H2. injection H2 as Hr Hc.
  split; apply str_of_nat_injective; assumption.
Qed.

Lemma edge_column_not_meta (r c : nat) :
  ~ In (LoadCsv.edge_column r c) ["subject"%string; "method"%string; "group"%string].
Proof.
  unfold LoadCsv.edge_column. cbn [String.append].
  intros [H | [H | [H | []]]]; discriminate H.
Qed.

Lemma dict_set_fresh (d : dict) (k : String.string) (v : pyval) :
  ~ In k (map fst d) -> dict_set d k v = d ++ [(k, v)].
Proof.
  induction d as [|[k' v'] d IH]; intro H; [reflexivity|].
  cbn [dict_set app]. destruct (String.eqb k' k) eqn:E.
  - apply String.eqb_eq in E. exfalso. apply H. left. exact E.
  - rewrite IH; [reflexivity|]. intro Hin. apply H. right. exact Hin.
Qed.

Lemma fold_dict_set_fresh {A : Type} (key : A -> String.string) (val : A -> pyval)
      (l : list A) (d : dict) :
  NoDup (map key l) ->
  (forall x, In x l -> ~ In (key x) (map fst d)) ->
  fold_left (fun d x => dict_set d (key x) (val x)) l d
  = d ++ map (fun x => (key x, val x)) l.
Proof.
  revert d. induction l as [|x l IH]; intros d Hnd Hfresh.
  - cbn [fold_left map]. rewrite app_nil_r. reflexivity.
  - cbn [fold_left map] in *. inversion Hnd as [|? ? Hx Hnd']; subst.
    rewrite dict_set_fresh by (apply Hfresh; left; reflexivity).
    rewrite IH; [rewrite <- app_assoc; reflexivity | exact Hnd' |].
    intros y Hy Hin. rewrite map_app, in_app_iff in Hin.
    destruct Hin as [Hin | [E | []]].
    + apply (Hfresh y); [right; exact Hy | exact Hin].
    + cbn [fst] in E. apply Hx. rewrite E. apply in_map. exact Hy.
Qed.

Lemma dict_get_in (d : dict) (k : String.string) (v : pyval) :
  NoDup (map fst d) -> In (k, v) d -> dict_get d k = Some v.
Proof.
  induction d as [|[k' v'] d IH]; intros Hnd Hin; [destruct Hin|].
  cbn [map fst] in Hnd. inversion Hnd as [|? ? Hk Hnd']; subst.
  cbn [dict_get]. destruct Hin as [E | Hin].
  - injection E as -> ->. rewrite String.eqb_refl. reflexivity.
  - destruct (String.eqb k' k) eqn:E.
    + apply String.eqb_eq in E. subst k'. exfalso. apply Hk.
      apply (in_map fst) in Hin. exact Hin.
    + apply IH; assumption.
Qed.

Lemma fold_append_rows {A B : Type} (f : A -> B) (l : list A) (acc : list B) :
  fold_left (fun rows x => rows ++ [f x]) l acc = acc ++ map f l.
Proof.
  revert acc. induction l as [|x l IH]; intro acc; cbn [fold_left map].
  - rewrite app_nil_r. reflexivity.
  - rewrite IH, <- app_assoc. reflexivity.
Qed.

Lemma zip_aligned {A : Type} (w : nat * nat -> A) (idx : list (nat * nat)) :
  combine (combine (map w idx) (map fst idx)) (map snd idx)
  = map (fun p => (w p, fst p, snd p)) idx.
Proof.
  induction idx as [|p idx IH]; [reflexivity|]. cbn [map combine].
  rewrite IH. reflexivity.
Qed.

(** X18. append_subject, with the configuration of the script (upper
    triangle, no diagonal), on a square n by n matrix: it does not raise; it
    appends to the long table one row per cell above the diagonal, in
    row-major order, with the subject, the method, the group and the cell's
    indices and weight; and it appends to the wide table one entry whose
    keys are pairwise distinct, that is subject, method, group and one
    column e_i_j per cell above the diagonal holding that cell's weight
    (3 + n(n-1)/2 keys: no two cells share a column). *)
Theorem append_subject_adds_one_row_and_one_column_per_edge :
  forall (n : nat) (df : ndarray) (long_rows : list long_row)
         (wide_rows : list dict) (subj method : String.string)
         (group : option String.string),
    square n df ->
    exists (rows : list long_row) (entry : dict),
      LoadCsv.append_subject long_rows wide_rows subj method df group
      = Some (long_rows ++ rows, wide_rows ++ [entry]) /\
      rows = map (fun p => {| lr_subject := subj; lr_method := method;
                              lr_edge_row := fst p; lr_edge_col := snd p;
                              lr_weight := weight_at df p; lr_group := group |})
                 (triu_indices n) /\
      NoDup (map fst entry) /\
      Z.of_nat (length entry) = (3 + total_possible n)%Z /\
      dict_get entry "subject"%string = Some (PyStr subj) /\
      dict_get entry "method"%string = Some (PyStr method) /\
      dict_get entry "group"%string = Some (LoadCsv.py_group group) /\
      (forall i j, (i < j)%nat -> (j < n)%nat ->
         dict_get entry (LoadCsv.edge_column i j) = Some (PyFloat df[@i, j])).
Proof.
  intros n df long_rows wide_rows subj method group Hsq.
  pose proof (flatten_upper n df false Hsq) as Hf. cbv zeta in Hf.
  rewrite np_triu_indices_one in Hf.
  set (meta := [("subject"%string, PyStr subj); ("method"%string, PyStr method);
                ("group"%string, LoadCsv.py_group group)]).
  set (cols := map (fun p : nat * nat =>
                      (LoadCsv.edge_column (fst p) (snd p), PyFloat (weight_at df p)))
                   (triu_indices n)).
  assert (Hkeys : NoDup (map (fun p : nat * nat => LoadCsv.edge_column (fst p) (snd p))
                             (triu_indices n))).
  { apply Finite.Injective_map_NoDup; [|apply NoDup_triu_indices].
    intros [a b] [a' b'] E. cbn [fst snd] in E.
    apply edge_column_injective in E. destruct E as [-> ->]. reflexivity. }
  assert (Hnd : NoDup (map fst (meta ++ cols))).
  { rewrite map_app. apply NoDup_app.
    - cbn [meta map fst].
      repeat (constructor; [cbn [In]; intuition discriminate|]). constructor.
    - unfold cols. rewrite map_map. cbn [fst]. exact Hkeys.
    - intros k Hk Hk'. unfold cols in Hk'. rewrite map_map in Hk'. cbn [fst] in Hk'.
      apply in_map_iff in Hk'. destruct Hk' as [[a b] [<- _]].
      exact (edge_column_not_meta a b Hk). }
  exists (map (fun p => {| lr_subject := subj; lr_method := method;
                           lr_edge_row := fst p; lr_edge_col := snd p;
                           lr_weight := weight_at df p; lr_group := group |})
              (triu_indices n)), (meta ++ cols).
  split.
  { unfold LoadCsv.append_subject, LoadCsv.use_upper_triangle_only,
      LoadCsv.include_diagonal. rewrite Hf. cbn [bind fst snd].
    rewrite zip_aligned.
    rewrite (fold_append_rows
               (fun vrc : Q * nat * nat =>
                  {| lr_subject := subj; lr_method := method;
                     lr_edge_row := snd (fst vrc); lr_edge_col := snd vrc;
                     lr_weight := fst (fst vrc); lr_group := group |})).
    rewrite (fold_dict_set_fresh
               (fun vrc : Q * nat * nat => LoadCsv.edge_column (snd (fst vrc)) (snd vrc))
               (fun vrc : Q * nat * nat => PyFloat (fst (fst vrc)))).
    - rewrite !map_map. reflexivity.
    - rewrite map_map. exact Hkeys.
    - intros x _. apply edge_column_not_meta. }
  split; [reflexivity|]. split; [exact Hnd|]. split.
  { rewrite length_app. unfold cols. rewrite length_map, Nat2Z.inj_add,
      length_triu_indices. reflexivity. }
  split; [reflexivity|]. split; [reflexivity|]. split; [reflexivity|].
  intros i j Hij Hj. apply (dict_get_in _ _ _ Hnd).
  apply in_or_app. right. unfold cols. apply in_map_iff.
  exists (i, j). split; [reflexivity|]. apply in_triu_indices. lia.
Qed.

Lemma append_subject_adds_one_row_and_one_column_per_edge_witness :
  exists (rows : list long_row) (entry : dict),
    LoadCsv.append_subject [] [] "INsIDER_C01"%string "ACT"%string W_pair
                           (Some "control"%string)
    = Some (rows, [entry]) /\
    dict_get entry "e_0_1"%string = Some (PyFloat 1).
Proof.
  destruct (append_subject_adds_one_row_and_one_column_per_edge
              2 W_pair [] [] "INsIDER_C01"%string "ACT"%string
              (Some "control"%string))
    as [rows [entry [H [_ [_ [_ [_ [_ [_ Hget]]]]]]]]].
  - split; [reflexivity | repeat constructor].
  - exists rows, entry. split; [exact H|].
    apply (Hget 0%nat 1%nat); lia.
Defined.

(** * inspect_connectome.py *)

Lemma py_split_pieces (P : ascii -> Prop) (sep : ascii) (s : text) :
  Forall P s -> Forall (Forall P) (py_split sep s).
Proof.
  induction 1 as [|c s Hc Hs IH]; cbn [py_split]; [repeat constructor|].
  destruct (Ascii.eqb c sep); [constructor; [constructor|exact IH]|].
  destruct (py_split sep s) as [|t ts]; [repeat constructor; exact Hc|].
  inversion IH; subst. constructor; [constructor; assumption|assumption].
Qed.

Lemma re_split_spaces_pieces (P : ascii -> Prop) (s : text) :
  Forall P s -> forall in_run, Forall (Forall P) (re_split_spaces in_run s).
Proof.
  induction 1 as [|c s Hc Hs IH]; intro in_run; cbn [re_split_spaces];
    [repeat constructor|].
  destruct (is_space c).
  - destruct in_run; [apply IH|constructor; [constructor|apply IH]].
  - specialize (IH false).
    destruct (re_split_spaces false s) as [|t ts]; [repeat constructor; exact Hc|].
    inversion IH; subst. constructor; [constructor; assumption|assumption].
Qed.

Lemma py_replace_without (a b : ascii) (s : text) :
  a <> b -> Forall (fun c => c <> a) (py_replace a b s).
Proof.
  intro Hab. unfold py_replace. apply Forall_map. apply Forall_forall.
  intros c _. destruct (Ascii.eqb c a) eqn:E.
  - intro Hba. apply Hab. symmetry. exact Hba.
  - apply Ascii.eqb_neq. exact E.
Qed.

Lemma py_replace_keeps (P : ascii -> Prop) (a b : ascii) (s : text) :
  P b -> Forall P s -> Forall P (py_replace a b s).
Proof.
  intros Hb Hs. unfold py_replace. apply Forall_map.
  apply (Forall_impl _ (P := P)); [|exact Hs].
  intros c Hc. destruct (Ascii.eqb c a); assumption.
Qed.

Lemma py_remove_without (a : ascii) (s : text) :
  Forall (fun c => c <> a) (py_remove a s).
Proof.
  unfold py_remove. apply Forall_forall. intros c Hc.
  apply filter_In in Hc. destruct Hc as [_ Hc].
  apply negb_true_iff, Ascii.eqb_neq in Hc. exact Hc.
Qed.

Lemma py_remove_keeps (P : ascii -> Prop) (a : ascii) (s : text) :
  Forall P s -> Forall P (py_remove a s).
Proof.
  intro Hs. unfold py_remove. rewrite Forall_forall in *. intros c Hc.
  apply filter_In in Hc. apply Hs, Hc.
Qed.

Lemma nonempty_true (t : text) : nonempty t = true <-> t <> [].
Proof.
  destruct t; cbn [nonempty]; split; intro H; try discriminate;
    try reflexivity; contradiction.
Qed.

(** X19. Every token that tokenize returns is non-empty and contains no
    tab, semicolon, square bracket, double quote or single quote; a line of
    whitespace only has no token. *)
Theorem tokenize_gives_clean_tokens :
  forall line : text,
    (forall t, In t (InspectConnectome.tokenize line) ->
       t <> [] /\
       Forall (fun c => c <> "009"%char /\ c <> ";"%char /\ c <> "["%char /\
                        c <> "]"%char /\ c <> "034"%char /\ c <> "'"%char) t) /\
    (py_strip is_space line = [] -> InspectConnectome.tokenize line = []).
Proof.
  intro line. split; [|intro E; unfold InspectConnectome.tokenize; rewrite E;
                        reflexivity].
  intros t Ht. unfold InspectConnectome.tokenize in Ht. cbv zeta in Ht.
  set (s0 := py_strip _ (py_strip is_space line)) in Ht.
  destruct (negb (nonempty s0)); [destruct Ht|].
  set (s := py_remove "'"%char _) in Ht.
  assert (Hs : Forall (fun c => c <> "009"%char /\ c <> ";"%char /\ c <> "["%char /\
                               c <> "]"%char /\ c <> "034"%char /\ c <> "'"%char) s).
  { unfold s.
    set (s1 := py_replace ";"%char ","%char (py_replace "009"%char ","%char s0)).
    assert (H1 : Forall (fun c => c <> "009"%char) s1).
    { apply py_replace_keeps; [discriminate|].
      apply py_replace_without. discriminate. }
    assert (H2 : Forall (fun c => c <> ";"%char) s1)
      by (apply py_replace_without; discriminate).
    set (s2 := py_remove "["%char s1).
    assert (H3 : Forall (fun c => c <> "["%char) s2) by apply py_remove_without.
    set (s3 := py_remove "]"%char s2).
    assert (H4 : Forall (fun c => c <> "]"%char) s3) by apply py_remove_without.
    set (s4 := py_remove "034"%char s3).
    assert (H5 : Forall (fun c => c <> "034"%char) s4) by apply py_remove_without.
    assert (H6 : Forall (fun c => c <> "'"%char) (py_remove "'"%char s4))
      by apply py_remove_without.
    apply (py_remove_keeps _ "["%char) in H1.
    apply (py_remove_keeps _ "]"%char) in H1.
    apply (py_remove_keeps _ "034"%char) in H1.
    apply (py_remove_keeps _ "'"%char) in H1.
    apply (py_remove_keeps _ "["%char) in H2.
    apply (py_remove_keeps _ "]"%char) in H2.
    apply (py_remove_keeps _ "034"%char) in H2.
    apply (py_remove_keeps _ "'"%char) in H2.
    apply (py_remove_keeps _ "]"%char) in H3.
    apply (py_remove_keeps _ "034"%char) in H3.
    apply (py_remove_keeps _ "'"%char) in H3.
    apply (py_remove_keeps _ "034"%char) in H4.
    apply (py_remove_keeps _ "'"%char) in H4.
    apply (py_remove_keeps _ "'"%char) in H5.
    fold s2 s3 s4 in H1, H2, H3, H4, H5.
    rewrite Forall_forall in *. intros c Hc.
    repeat split; [apply H1|apply H2|apply H3|apply H4|apply H5|apply H6];
      exact Hc. }
  assert (Hin : In t (filter nonempty (py_split ","%char s)) \/
                In t (filter nonempty (re_split_spaces false s))).
  { destruct (length (filter nonempty (py_split ","%char s)) =? 1)%nat;
      [right|left]; exact Ht. }
  destruct Hin as [Hin | Hin]; apply filter_In in Hin; destruct Hin as [Hin Hne];
    (split; [apply nonempty_true; exact Hne|]).
  - pose proof (py_split_pieces _ ","%char s Hs) as Hp.
    rewrite Forall_forall in Hp. apply Hp. exact Hin.
  - pose proof (re_split_spaces_pieces _ s Hs false) as Hp.
    rewrite Forall_forall in Hp. apply Hp. exact Hin.
Qed.

Lemma tokenize_gives_clean_tokens_witness :
  (["1"%char] : text) <> [] /\
  InspectConnectome.tokenize [" "%char; "009"%char] = [].
Proof.
  split.
  - destruct (tokenize_gives_clean_tokens
                ["["%char; "1"%char; ";"%char; "2"%char; "]"%char]) as [H _].
    apply (H ["1"%char]). vm_compute. left. reflexivity.
  - destruct (tokenize_gives_clean_tokens [" "%char; "009"%char]) as [_ H].
    apply H. reflexivity.
Defined.

(** ** analyze_file *)

Lemma nodup_constant (x : nat) (l : list nat) :
  l <> [] -> (forall y, In y l -> y = x) -> nodup Nat.eq_dec l = [x].
Proof.
  induction l as [|a l IH]; intros Hne Hall; [contradiction|].
  assert (Ea : a = x) by (apply Hall; left; reflexivity). subst a.
  cbn [nodup]. destruct (in_dec Nat.eq_dec x l) as [Hin | Hnin].
  - apply IH; [intro E; subst l; destruct Hin|].
    intros y Hy. apply Hall. right. exact Hy.
  - destruct l as [|b l]; [reflexivity|].
    exfalso. apply Hnin. left. apply Hall. right. left. reflexivity.
Qed.

Lemma fold_min_least (xs : list nat) (x y : nat) :
  In y (x :: xs) -> (fold_left Nat.min xs x <= y)%nat.
Proof.
  revert x. induction xs as [|a xs IH]; intros x Hy; cbn [fold_left].
  - destruct Hy as [<- | []]. lia.
  - assert (Hle : forall z, (fold_left Nat.min xs z <= z)%nat).
    { clear. induction xs as [|b xs IHx]; intro z; cbn [fold_left]; [lia|].
      specialize (IHx (Nat.min z b)). lia. }
    destruct Hy as [<- | [<- | Hy]].
    + specialize (Hle (Nat.min x a)). lia.
    + specialize (Hle (Nat.min x a)). lia.
    + apply IH. right. exact Hy.
Qed.

Lemma fold_max_greatest (xs : list nat) (x y : nat) :
  In y (x :: xs) -> (y <= fold_left Nat.max xs x)%nat.
Proof.
  revert x. induction xs as [|a xs IH]; intros x Hy; cbn [fold_left].
  - destruct Hy as [<- | []]. lia.
  - assert (Hge : forall z, (z <= fold_left Nat.max xs z)%nat).
    { clear. induction xs as [|b xs IHx]; intro z; cbn [fold_left]; [lia|].
      specialize (IHx (Nat.max z b)). lia. }
    destruct Hy as [<- | [<- | Hy]].
    + specialize (Hge (Nat.max x a)). lia.
    + specialize (Hge (Nat.max x a)). lia.
    + apply IH. right. exact Hy.
Qed.

(** What [analyze_file] reports for a file with a line that is not blank. *)
Lemma analyze_file_info (lines : list text) (info : file_info) :
  InspectConnectome.analyze_file lines = Info info ->
  let content := filter (fun ln => nonempty (py_strip is_space ln)) lines in
  let lengths := map (fun ln => length (InspectConnectome.tokenize ln)) content in
  lengths <> [] /\
  n_lines info = length lines /\
  unique_lengths info = NatSort.sort (nodup Nat.eq_dec lengths) /\
  (forall k, In k lengths -> (min_len info <= k <= max_len info)%nat) /\
  is_square info
  = ((length (unique_lengths info) =? 1)%nat
     && (nth 0 (unique_lengths info) 0 =? length lines)%nat).
Proof.
  unfold InspectConnectome.analyze_file. cbv zeta. intro H.
  destruct (map _ (filter _ lines)) as [|x xs] eqn:E; [discriminate|].
  injection H as <-. cbn [n_lines unique_lengths min_len max_len is_square].
  split; [discriminate|]. split; [reflexivity|]. split; [reflexivity|].
  split; [|reflexivity].
  intros k Hk. split; [apply fold_min_least | apply fold_max_greatest]; exact Hk.
Qed.

(** X20. analyze_file reports an empty file exactly when every line is
    blank.  Otherwise n_lines counts all the lines, blank ones included;
    unique_lengths lists in increasing order, each once, the token counts
    of the lines that are not blank; min_len and max_len bound them; and
    is_square holds exactly when every line that is not blank has n_lines
    tokens. *)
Theorem analyze_file_reports_the_shape :
  forall lines : list text,
    let content := filter (fun ln => nonempty (py_strip is_space ln)) lines in
    (InspectConnectome.analyze_file lines = EmptyFile <-> content = []) /\
    (forall info : file_info,
       InspectConnectome.analyze_file lines = Info info ->
       n_lines info = length lines /\
       StronglySorted lt (unique_lengths info) /\
       (forall k, In k (unique_lengths info) <->
                  exists ln, In ln content /\
                             length (InspectConnectome.tokenize ln) = k) /\
       (forall ln, In ln content ->
          (min_len info <= length (InspectConnectome.tokenize ln)
           <= max_len info)%nat) /\
       (is_square info = true <->
        forall ln, In ln content ->
                   length (InspectConnectome.tokenize ln) = length lines)).
Proof.
  intros lines content. split.
  - unfold InspectConnectome.analyze_file. cbv zeta. fold content.
    destruct content as [|ln content']; cbn [map]; split; intro H;
      try reflexivity; discriminate H.
  - intros info Hinfo.
    destruct (analyze_file_info lines info Hinfo)
      as [Hne [Hn [Hu [Hmm Hsq]]]]. cbv zeta in *. fold content in Hne, Hu, Hmm.
    set (lengths := map (fun ln => length (InspectConnectome.tokenize ln)) content)
      in *.
    assert (Hperm : Permutation (nodup Nat.eq_dec lengths) (unique_lengths info))
      by (rewrite Hu; apply NatSort.Permuted_sort).
    assert (Hin : forall k, In k (unique_lengths info) <-> In k lengths).
    { intro k. split; intro H.
      - apply (nodup_In Nat.eq_dec).
        apply (Permutation_in _ (Permutation_sym Hperm)). exact H.
      - apply (Permutation_in _ Hperm). apply (nodup_In Nat.eq_dec). exact H. }
    split; [exact Hn|]. split.
    { apply sorted_nodup_increasing.
      - rewrite Hu. apply NatSort.StronglySorted_sort. exact nat_leb_transitive.
      - apply (Permutation_NoDup Hperm). apply NoDup_nodup. }
    split.
    { intro k. rewrite Hin. unfold lengths. rewrite in_map_iff.
      split; intros [ln [H1 H2]]; exists ln; split; assumption. }
    split.
    { intros ln Hln. apply Hmm. unfold lengths.
      apply (in_map (fun ln => length (InspectConnectome.tokenize ln))).
      exact Hln. }
    rewrite Hsq, andb_true_iff, !Nat.eqb_eq. split.
    + intros [H1 H2] ln Hln.
      destruct (unique_lengths info) as [|u [|u' us]] eqn:Eu;
        try discriminate H1. cbn [nth] in H2. subst u.
      assert (Hk : In (length (InspectConnectome.tokenize ln)) [length lines]).
      { apply Hin. unfold lengths.
        apply (in_map (fun ln => length (InspectConnectome.tokenize ln))).
        exact Hln. }
      destruct Hk as [E | []]. symmetry. exact E.
    + intro Hall.
      assert (Econst : nodup Nat.eq_dec lengths = [length lines]).
      { apply nodup_constant; [exact Hne|].
        intros y Hy. unfold lengths in Hy. apply in_map_iff in Hy.
        destruct Hy as [ln [<- Hln]]. apply Hall. exact Hln. }
      rewrite Econst in Hperm. apply Permutation_length_1_inv in Hperm.
      rewrite Hperm. split; reflexivity.
Qed.

Lemma analyze_file_reports_the_shape_witness :
  exists info : file_info,
    InspectConnectome.analyze_file
      [["1"%char; ","%char; "2"%char]; ["3"%char; " "%char; "4"%char]]
    = Info info /\
    n_lines info = 2%nat /\ StronglySorted lt (unique_lengths info).
Proof.
  eexists. split; [vm_compute; reflexivity|].
  destruct (analyze_file_reports_the_shape
              [["1"%char; ","%char; "2"%char]; ["3"%char; " "%char; "4"%char]])
    as [_ H].
  destruct (H _ eq_refl) as [H1 [H2 _]]. split; [exact H1 | exact H2].
Defined.

(** * The main loop of modularity.py *)

Section ModularityLoop.
Variable listdir : list String.string.
Variable read_csv : String.string -> option ndarray.
Variable best_partition : wgraph -> Q -> option (list (nat * nat)).
Variable louvain_modularity : list (nat * nat) -> wgraph -> option float.
Variable bct_modularity_und : ndarray -> Q -> option (list nat * float).

Let body :=
  ModularityScript.loop_body read_csv best_partition louvain_modularity
                             bct_modularity_und.

Lemma modularity_louvain_label (n : nat) (W : ndarray) (gamma : Q)
      (r : float * nat * String.string) :
  square n W ->
  ModularityScript.modularity_louvain best_partition louvain_modularity W gamma
  = Some r ->
  snd r = "LOUVAIN"%string.
Proof.
  intros Hsq H.
  destruct (modularity_louvain_cases best_partition louvain_modularity n W gamma Hsq)
    as [H0 H1].
  destruct (Nat.eq_dec (count_triu_positive W) 0) as [E | E].
  - rewrite (H0 E) in H. injection H as <-. reflexivity.
  - rewrite (H1 E) in H.
    destruct (best_partition _ gamma) as [part|]; [|discriminate].
    cbn [bind] in H.
    destruct (louvain_modularity part _) as [q|]; [|discriminate].
    cbn [bind] in H. injection H as <-. reflexivity.
Qed.

Lemma modularity_louvain_returns (n : nat) (W : ndarray) (gamma : Q) :
  square n W ->
  (forall G g, best_partition G g <> None) ->
  (forall part G, louvain_modularity part G <> None) ->
  exists r,
    ModularityScript.modularity_louvain best_partition louvain_modularity W gamma
    = Some r.
Proof.
  intros Hsq Hbp Hlm.
  destruct (modularity_louvain_cases best_partition louvain_modularity n W gamma Hsq)
    as [H0 H1].
  destruct (Nat.eq_dec (count_triu_positive W) 0) as [E | E].
  - rewrite (H0 E). eexists. reflexivity.
  - rewrite (H1 E).
    destruct (best_partition _ gamma) as [part|] eqn:Ep;
      [|exfalso; exact (Hbp _ _ Ep)].
    cbn [bind].
    destruct (louvain_modularity part _) as [q|] eqn:Eq;
      [|exfalso; exact (Hlm _ _ Eq)].
    cbn [bind]. eexists. reflexivity.
Qed.

(** One round of the loop on a matching file that loads. *)
Lemma modularity_body_appends (rows : list modularity_row)
      (f : String.string) (csv : ndarray) (n : nat) :
  matches f = true -> read_csv f = Some csv -> square n csv -> (0 < n)%nat ->
  (forall G g, best_partition G g <> None) ->
  (forall part G, louvain_modularity part G <> None) ->
  exists r, body rows f = Some (rows ++ [r]) /\ modularity_recorded read_csv f r.
Proof.
  intros Hm Hcsv Hsq Hn Hbp Hlm.
  unfold matches in Hm.
  destruct (FILE_RE_match f) as [[subj m]|] eqn:Ematch; [|discriminate].
  destruct (prepare_hands_over n csv Hsq Hn)
    as [W [used [avail [Hprep [Hshape [Hc [_ [Hused [Huse2 _]]]]]]]]].
  assert (HsqW : square (shape0 W) W) by apply Hc.
  destruct (modularity_louvain_returns (shape0 W) W ModularityScript.GAMMA
              HsqW Hbp Hlm) as [r Hr].
  pose proof (modularity_louvain_label (shape0 W) W ModularityScript.GAMMA r
                HsqW Hr) as Hlabel.
  eexists. split.
  - unfold body, ModularityScript.loop_body. rewrite Ematch. cbn [bind fst snd].
    rewrite Hcsv. cbn [bind]. rewrite Hprep. cbn [bind fst snd].
    change ModularityScript.FORCE_LOUVAIN_ONLY with true. cbv iota.
    rewrite Hr. cbn [bind]. reflexivity.
  - exists subj, m, csv.
    cbn [mr_subject mr_method mr_group mr_file mr_algorithm mr_n_nodes
         mr_density mr_used_density mr_available_density].
    destruct (density_in_unit_interval (shape0 W) W HsqW) as [Hd0 Hd1].
    rewrite (square_shape0 n csv Hsq).
    repeat split; try reflexivity; assumption.
Qed.

Lemma modularity_loop_from (fs : list String.string) (acc : list modularity_row) :
  (forall f, In f fs ->
     matches f = true /\
     exists csv n, read_csv f = Some csv /\ square n csv /\ (0 < n)%nat) ->
  (forall G g, best_partition G g <> None) ->
  (forall part G, louvain_modularity part G <> None) ->
  exists added,
    fold_left (fun a fname => rows <- a ;; body rows fname) fs (Some acc)
    = Some (acc ++ added) /\
    Forall2 (modularity_recorded read_csv) fs added.
Proof.
  intros Hfs Hbp Hlm. revert acc Hfs.
  induction fs as [|f fs IH]; intros acc Hfs; cbn [fold_left].
  - exists []. rewrite app_nil_r. split; [reflexivity|constructor].
  - destruct (Hfs f (or_introl eq_refl)) as [Hm [csv [n [Hcsv [Hsq Hn]]]]].
    destruct (modularity_body_appends acc f csv n Hm Hcsv Hsq Hn Hbp Hlm)
      as [r [Hbody Hrec]].
    cbn [bind]. rewrite Hbody.
    destruct (IH (acc ++ [r])) as [added [Hfold Hall]].
    { intros f' Hf'. apply Hfs. right. exact Hf'. }
    exists (r :: added). split.
    + rewrite Hfold, <- app_assoc. reflexivity.
    + constructor; assumption.
Qed.

(** Once a round has raised, the loop has raised. *)
Lemma modularity_loop_raised (fs : list String.string) :
  fold_left (fun a fname => rows <- a ;; body rows fname) fs None = None.
Proof.
  induction fs as [|f fs IH]; [reflexivity|]. cbn [fold_left bind]. exact IH.
Qed.

Lemma modularity_loop_unreadable (fs : list String.string)
      (acc : option (list modularity_row)) (f : String.string) :
  In f fs -> matches f = true -> read_csv f = None ->
  fold_left (fun a fname => rows <- a ;; body rows fname) fs acc = None.
Proof.
  intros Hin Hm Hcsv. revert acc. induction fs as [|g fs IH]; intro acc;
    [destruct Hin|].
  cbn [fold_left]. destruct Hin as [-> | Hin]; [|apply IH; exact Hin].
  destruct acc as [rows|]; cbn [bind]; [|apply modularity_loop_raised].
  assert (E : body rows f = None).
  { unfold body, ModularityScript.loop_body. unfold matches in Hm.
    destruct (FILE_RE_match f) as [[subj m]|]; [|discriminate].
    cbn [bind]. rewrite Hcsv. reflexivity. }
  rewrite E. apply modularity_loop_raised.
Qed.
End ModularityLoop.

Lemma files_match (listdir : list String.string) (f : String.string) :
  In f (ModularityScript.files listdir) -> In f listdir /\ matches f = true.
Proof.
  unfold ModularityScript.files. intro H.
  apply (Permutation_in _ (Permutation_sym (sort_by_perm _ _))) in H.
  apply filter_In in H. exact H.
Qed.

Lemma in_files (listdir : list String.string) (f : String.string) :
  In f listdir -> matches f = true -> In f (ModularityScript.files listdir).
Proof.
  intros Hin Hm. unfold ModularityScript.files.
  apply (Permutation_in _ (sort_by_perm _ _)).
  apply filter_In. split; assumption.
Qed.

(** X21. The main loop of modularity.py, when every matching file holds a
    square matrix with at least one row and the Louvain routines do not
    raise, returns one row per matching file, in the order of the sorted
    file names: the row carries the subject, the method in upper case, the
    group and the file name, is labelled LOUVAIN (BCT is never consulted),
    reports no more nodes than the file has, a density in [0, 1], and a used
    density that is at most 0.08 and at most the available density. *)
Theorem modularity_loop_records_one_row_per_file :
  forall (listdir : list String.string)
         (read_csv : String.string -> option ndarray)
         (best_partition : wgraph -> Q -> option (list (nat * nat)))
         (louvain_modularity : list (nat * nat) -> wgraph -> option float)
         (bct_modularity_und : ndarray -> Q -> option (list nat * float)),
    (forall f, In f listdir -> matches f = true ->
       exists csv n, read_csv f = Some csv /\ square n csv /\ (0 < n)%nat) ->
    (forall G g, best_partition G g <> None) ->
    (forall part G, louvain_modularity part G <> None) ->
    exists rows : list modularity_row,
      ModularityScript.loop listdir read_csv best_partition louvain_modularity
                            bct_modularity_und
      = Some rows /\
      Forall2 (modularity_recorded read_csv) (ModularityScript.files listdir) rows.
Proof.
  intros listdir read_csv best_partition louvain_modularity bct_modularity_und
         Hfiles Hbp Hlm.
  destruct (modularity_loop_from read_csv best_partition louvain_modularity
              bct_modularity_und (ModularityScript.files listdir) [])
    as [added [Hfold Hall]]; try assumption.
  - intros f Hf. apply files_match in Hf. destruct Hf as [Hin Hm].
    split; [exact Hm|]. apply Hfiles; assumption.
  - exists added. split; [exact Hfold | exact Hall].
Qed.

Lemma modularity_loop_records_one_row_per_file_witness :
  exists rows : list modularity_row,
    ModularityScript.loop
      ["INsIDER_C01_ACT.csv"%string; "notes.txt"%string]
      (fun _ => Some W_pair) (fun _ _ => Some []) (fun _ _ => Some (Fin 0))
      (fun _ _ => None)
    = Some rows /\
    length rows = 1%nat.
Proof.
  destruct (modularity_loop_records_one_row_per_file
              ["INsIDER_C01_ACT.csv"%string; "notes.txt"%string]
              (fun _ => Some W_pair) (fun _ _ => Some [])
              (fun _ _ => Some (Fin 0)) (fun _ _ => None))
    as [rows [H Hall]].
  - intros f _ _. exists W_pair, 2%nat.
    split; [reflexivity|]. split; [split; [reflexivity|repeat constructor]|lia].
  - intros G g. discriminate.
  - intros part G. discriminate.
  - exists rows. split; [exact H|].
    apply Forall2_length in Hall. rewrite <- Hall. reflexivity.
Defined.

(** X22. A matching file that cannot be read aborts the main loop of
    modularity.py: nothing catches the exception, so no table is produced,
    whatever the other files hold. *)
Theorem modularity_loop_is_aborted_by_an_unreadable_file :
  forall (listdir : list String.string)
         (read_csv : String.string -> option ndarray)
         (best_partition : wgraph -> Q -> option (list (nat * nat)))
         (louvain_modularity : list (nat * nat) -> wgraph -> option float)
         (bct_modularity_und : ndarray -> Q -> option (list nat * float))
         (f : String.string),
    In f listdir -> matches f = true -> read_csv f = None ->
    ModularityScript.loop listdir read_csv best_partition louvain_modularity
                          bct_modularity_und
    = None.
Proof.
  intros listdir read_csv best_partition louvain_modularity bct_modularity_und
         f Hin Hm Hcsv.
  unfold ModularityScript.loop.
  apply (modularity_loop_unreadable read_csv best_partition louvain_modularity
           bct_modularity_und _ _ f); [|exact Hm|exact Hcsv].
  apply in_files; assumption.
Qed.

Lemma modularity_loop_is_aborted_by_an_unreadable_file_witness :
  ModularityScript.loop
    ["INsIDER_P02_TREKKER.csv"%string; "INsIDER_C01_ACT.csv"%string]
    (fun f => if String.eqb f "INsIDER_C01_ACT.csv"%string
              then Some W_pair else None)
    (fun _ _ => Some []) (fun _ _ => Some (Fin 0)) (fun _ _ => None)
  = None.
Proof.
  apply (modularity_loop_is_aborted_by_an_unreadable_file _ _ _ _ _
           "INsIDER_P02_TREKKER.csv"%string).
  - left. reflexivity.
  - reflexivity.
  - reflexivity.
Defined.

(** * The main loop of clustering_coefficient.py *)

Section ClusteringLoop.
Variable listdir : list String.string.
Variable read_csv : String.string -> option ndarray.
Variable bct_threshold_proportional : ndarray -> Q -> option ndarray.
Variable clustering_coef_wu : ndarray -> option (list float).
Variable nanmean : list float -> float.
Variable nanstd : list float -> float.

Let body :=
  ClusteringScript.loop_body read_csv bct_threshold_proportional
                             clustering_coef_wu nanmean nanstd.
Let rec_ := clustering_recorded read_csv clustering_coef_wu nanmean nanstd.


End ClusteringLoop.



(** * The float32 loaders on entries within range *)

Lemma np_float32_cases (q : Q) :
  (FLT_OVERFLOW <= q /\ np_float32 q = PInf) \/
  (q <= - FLT_OVERFLOW /\ np_float32 q = NInf) \/
  (q < FLT_OVERFLOW /\ - FLT_OVERFLOW < q /\ np_float32 q = Fin q).
Proof.
  unfold np_float32.
  destruct (Qle_bool FLT_OVERFLOW q) eqn:E1.
  - left. split; [apply Qle_bool_iff; exact E1 | reflexivity].
  - right. destruct (Qle_bool q (- FLT_OVERFLOW)) eqn:E2.
    + left. split; [apply Qle_bool_iff; exact E2 | reflexivity].
    + right. split; [|split; [|reflexivity]].
      * apply Qnot_le_lt. intro H. apply Qle_bool_iff in H. congruence.
      * apply Qnot_le_lt. intro H. apply Qle_bool_iff in H. congruence.
Qed.

Lemma np_float32_in_range (q : Q) :
  - FLT_OVERFLOW < q -> q < FLT_OVERFLOW -> np_float32 q = Fin q.
Proof.
  intros Hlo Hhi.
  destruct (np_float32_cases q) as [[H _] | [[H _] | [_ [_ H]]]].
  - exfalso. exact (Qlt_not_le _ _ Hhi H).
  - exfalso. exact (Qlt_not_le _ _ Hlo H).
  - exact H.
Qed.

Lemma FLT_OVERFLOW_order : - FLT_OVERFLOW < FLT_OVERFLOW.
Proof. reflexivity. Qed.

Lemma half_clamped32_fin (s : Q) :
  half_clamped32 (Fin s)
  = if Qltb ((1 # 2) * s) 0 then Fin 0 else Fin ((1 # 2) * s).
Proof. reflexivity. Qed.

Lemma half_clamped32_nonneg (s : Q) : f_nonneg (half_clamped32 (np_float32 s)).
Proof.
  destruct (np_float32_cases s) as [[_ E] | [[_ E] | [_ [_ E]]]]; rewrite E.
  - exact I.
  - simpl. apply Qle_refl.
  - rewrite half_clamped32_fin.
    destruct (Qltb ((1 # 2) * s) 0) eqn:El; simpl.
    + apply Qle_refl.
    + apply Qltb_ge in El. exact El.
Qed.

Lemma half_clamped32_compat (s s' : Q) :
  s == s' -> f_eq (half_clamped32 (np_float32 s)) (half_clamped32 (np_float32 s')).
Proof.
  intro E.
  destruct (np_float32_cases s) as [[H1 E1] | [[H1 E1] | [H1 [H1' E1]]]];
    destruct (np_float32_cases s') as [[H2 E2] | [[H2 E2] | [H2 [H2' E2]]]];
    rewrite E1, E2.
  - exact I.
  - exfalso. rewrite E in H1.
    exact (Qlt_not_le _ _ FLT_OVERFLOW_order (Qle_trans _ _ _ H1 H2)).
  - exfalso. rewrite E in H1. exact (Qlt_not_le _ _ H2 H1).
  - exfalso. rewrite E in H1.
    exact (Qlt_not_le _ _ FLT_OVERFLOW_order (Qle_trans _ _ _ H2 H1)).
  - simpl. reflexivity.
  - exfalso. rewrite E in H1. exact (Qlt_not_le _ _ H2' H1).
  - exfalso. rewrite E in H1. exact (Qlt_not_le _ _ H1 H2).
  - exfalso. rewrite E in H1'. exact (Qlt_not_le _ _ H1' H2).
  - rewrite !half_clamped32_fin.
    assert (Eh : (1 # 2) * s == (1 # 2) * s') by (rewrite E; reflexivity).
    destruct (Qltb ((1 # 2) * s) 0) eqn:El;
      destruct (Qltb ((1 # 2) * s') 0) eqn:Er; simpl;
      try reflexivity; try exact Eh.
    + apply Qltb_lt in El. apply Qltb_ge in Er. rewrite Eh in El.
      exfalso. exact (Qlt_not_le _ _ El Er).
    + apply Qltb_lt in Er. apply Qltb_ge in El. rewrite Eh in El.
      exfalso. exact (Qlt_not_le _ _ Er El).
Qed.

Lemma in_float32_range_cell (n : nat) (csv : ndarray) (i j : nat) :
  square n csv -> in_float32_range csv -> (i < n)%nat -> (j < n)%nat ->
  np_float32 csv[@i, j] = Fin csv[@i, j].
Proof.
  intros Hsq Hr Hi Hj.
  assert (Hrow : In (nth i csv []) csv).
  { apply nth_In. destruct Hsq as [Hl _]. rewrite Hl. exact Hi. }
  unfold in_float32_range in Hr. rewrite Forall_forall in Hr.
  specialize (Hr _ Hrow). rewrite Forall_forall in Hr.
  assert (Hcell : In csv[@i, j] (nth i csv [])).
  { unfold mget. apply nth_In. rewrite (square_row n csv i Hsq Hi). exact Hj. }
  destruct (Hr _ Hcell) as [Hlo Hhi].
  apply np_float32_in_range; assumption.
Qed.

Lemma cleaned_cell32_in_range (n : nat) (csv : ndarray) (i j : nat) :
  square n csv -> in_float32_range csv -> (i < n)%nat -> (j < n)%nat ->
  cleaned_cell32 csv i j
  = if Nat.eqb i j then Fin 0
    else half_clamped32 (np_float32 (csv[@i, j] + csv[@j, i])).
Proof.
  intros Hsq Hr Hi Hj. unfold cleaned_cell32.
  destruct (Nat.eqb i j); [reflexivity|].
  rewrite (in_float32_range_cell n csv i j), (in_float32_range_cell n csv j i)
    by assumption.
  reflexivity.
Qed.

(** X24. On a square file whose entries are all of a magnitude that float32
    holds, the float32 loaders of global_efficiency.py and
    characteristic_path_lengh.py return, and the array they return is
    square, symmetric, zero on the diagonal and free of negative entries and
    of NaN (an entry may be plus infinity, where the sum of two entries
    overflows). *)
Theorem float32_loaders_return_clean_matrix_within_range :
  forall (n : nat) (csv : ndarray),
    square n csv -> in_float32_range csv ->
    exists W,
      GlobalEfficiency.load_and_clean_matrix csv = Some W /\
      CharPath.load_and_clean_W csv = Some W /\
      cleaned32 n W.
Proof.
  intros n csv Hsq Hr.
  destruct (load32_square n csv Hsq) as [W [HW [HsqW Hcell]]].
  exists W. split; [exact HW|]. split; [rewrite load32_eq; exact HW|].
  split; [exact HsqW|]. split; [|split].
  - intros i j Hi Hj. rewrite !Hcell by assumption.
    rewrite !(cleaned_cell32_in_range n) by assumption.
    rewrite (Nat.eqb_sym j i).
    destruct (Nat.eqb i j); [simpl; reflexivity|].
    apply half_clamped32_compat. ring.
  - intros i Hi. rewrite Hcell by assumption.
    unfold cleaned_cell32. rewrite Nat.eqb_refl. simpl. reflexivity.
  - intros i j Hi Hj. rewrite Hcell by assumption.
    rewrite (cleaned_cell32_in_range n) by assumption.
    destruct (Nat.eqb i j); [simpl; apply Qle_refl|].
    apply half_clamped32_nonneg.
Qed.

Lemma float32_loaders_return_clean_matrix_within_range_witness :
  exists W,
    GlobalEfficiency.load_and_clean_matrix [[1; 2; -3]; [4; 5; 6]; [-7; 8; 9]]
    = Some W /\
    CharPath.load_and_clean_W [[1; 2; -3]; [4; 5; 6]; [-7; 8; 9]] = Some W /\
    cleaned32 3 W.
Proof.
  apply (float32_loaders_return_clean_matrix_within_range
           3 [[1; 2; -3]; [4; 5; 6]; [-7; 8; 9]]).
  - split; [reflexivity | repeat constructor].
  - repeat constructor.
Defined.

(** * The shapes that the float32 loaders accept *)

Lemma shape_length {A : Type} (W : list (list A)) (r c : nat) :
  shape W = Some (r, c) ->
  length W = r /\ length (nth 0 W []) = c /\ Forall (fun x => length x = c) W.
Proof.
  unfold shape. destruct W as [|x W].
  - intro H. injection H as <- <-. repeat split. constructor.
  - destruct (forallb (fun r' => Nat.eqb (length r') (length x)) (x :: W)) eqn:E;
      [|discriminate].
    intro H. injection H as <- <-. repeat split.
    apply Forall_forall. intros y Hy.
    rewrite forallb_forall in E. apply Nat.eqb_eq. apply E. exact Hy.
Qed.

Lemma shape_of_rows {A : Type} (W : list (list A)) (r c : nat) :
  (1 <= r)%nat -> length W = r -> Forall (fun x => length x = c) W ->
  shape W = Some (r, c).
Proof.
  intros Hr Hl Hall. destruct W as [|x W]; simpl in *; [lia|].
  assert (Hx : length x = c) by (inversion Hall; assumption).
  assert (E : forallb (fun r' => Nat.eqb (length r') (length x)) (x :: W) = true).
  { apply forallb_forall. intros y Hy. apply Nat.eqb_eq.
    rewrite Forall_forall in Hall. rewrite (Hall y Hy). symmetry. exact Hx. }
  simpl in E. rewrite E. rewrite Hx, Hl. reflexivity.
Qed.

Lemma minit2_rows {A : Type} (r c : nat) (f : nat -> nat -> A) :
  length (minit2 r c f) = r /\ Forall (fun x => length x = c) (minit2 r c f).
Proof.
  unfold minit2. split.
  - rewrite length_map. apply length_seq.
  - apply Forall_forall. intros x Hx. apply in_map_iff in Hx.
    destruct Hx as [i [<- _]]. rewrite length_map. apply length_seq.
Qed.

Lemma load32_shape (csv : ndarray) (r c : nat) :
  shape csv = Some (r, c) -> (1 <= r)%nat -> (1 <= c)%nat ->
  GlobalEfficiency.load_and_clean_matrix csv
  = (n <- broadcast_dim r c ;;
     m <- broadcast_dim c r ;;
     Some (clamp_negatives32
             (fill_diagonal NaN
                (map (map f32_half)
                   (minit2 n m
                      (fun i j =>
                         f32_add
                           (broadcast_get (r, c) (map (map np_float32) csv) i j)
                           (broadcast_get (c, r)
                              (np_transpose NaN (map (map np_float32) csv)) i j))))
                (Fin 0)))).
Proof.
  intros Hs Hr Hc. destruct (shape_length csv r c Hs) as [Hl [Hc0 Hall]].
  assert (HX : shape (map (map np_float32) csv) = Some (r, c)).
  { apply shape_of_rows; [exact Hr | rewrite length_map; exact Hl |].
    apply Forall_forall. intros x Hx. apply in_map_iff in Hx.
    destruct Hx as [y [<- Hy]]. rewrite length_map.
    rewrite Forall_forall in Hall. apply Hall. exact Hy. }
  assert (HY : shape (np_transpose NaN (map (map np_float32) csv)) = Some (c, r)).
  { unfold np_transpose.
    assert (E0 : length (nth 0 (map (map np_float32) csv) []) = c).
    { destruct csv as [|x csv]; simpl in *; [lia|].
      rewrite length_map. exact Hc0. }
    rewrite E0, length_map, Hl.
    apply shape_of_rows; [exact Hc | apply minit2_rows | apply minit2_rows]. }
  unfold GlobalEfficiency.load_and_clean_matrix, np_add32.
  rewrite HX, HY. simpl.
  destruct (broadcast_dim r c) as [n|]; simpl; [|reflexivity].
  destruct (broadcast_dim c r) as [m|]; simpl; reflexivity.
Qed.

(** X25. What the float32 loaders make of the shape of the file: a table of
    [r] rows and [c] columns (both at least 1) is accepted when [r = c],
    and also when [r = 1] or [c = 1], where numpy broadcasts [W + W.T] to a
    square array of the longer side; every other shape makes [W + W.T]
    raise. *)
Theorem float32_loaders_raise_unless_the_shape_broadcasts :
  forall (csv : ndarray) (r c : nat),
    shape csv = Some (r, c) -> (1 <= r)%nat -> (1 <= c)%nat ->
    (r = c \/ r = 1%nat \/ c = 1%nat ->
     exists W,
       GlobalEfficiency.load_and_clean_matrix csv = Some W /\
       CharPath.load_and_clean_W csv = Some W /\
       square (Nat.max r c) W) /\
    (r <> c -> r <> 1%nat -> c <> 1%nat ->
     GlobalEfficiency.load_and_clean_matrix csv = None /\
     CharPath.load_and_clean_W csv = None).
Proof.
  intros csv r c Hs Hr Hc.
  assert (Hload := load32_shape csv r c Hs Hr Hc).
  split.
  - intro Hcase.
    assert (Hb : broadcast_dim r c = Some (Nat.max r c) /\
                 broadcast_dim c r = Some (Nat.max r c)).
    { unfold broadcast_dim. destruct Hcase as [E | [E | E]].
      - subst c. rewrite Nat.eqb_refl, Nat.max_id. split; reflexivity.
      - subst r. rewrite (Nat.max_r 1 c) by exact Hc.
        rewrite (Nat.eqb_sym c 1%nat).
        destruct (Nat.eqb 1 c) eqn:E1.
        + apply Nat.eqb_eq in E1. subst c. split; reflexivity.
        + rewrite Nat.eqb_refl. split; reflexivity.
      - subst c. rewrite (Nat.max_l r 1) by exact Hr.
        rewrite (Nat.eqb_sym 1%nat r).
        destruct (Nat.eqb r 1) eqn:E1.
        + apply Nat.eqb_eq in E1. subst r. split; reflexivity.
        + rewrite Nat.eqb_refl. split; reflexivity. }
    destruct Hb as [Hb1 Hb2]. rewrite Hb1, Hb2 in Hload. simpl in Hload.
    eexists. split; [exact Hload|]. split; [rewrite load32_eq; exact Hload|].
    unfold clamp_negatives32, fill_diagonal. apply square_map.
    rewrite shape0_map. unfold shape0.
    rewrite (proj1 (minit2_rows _ _ _)). apply square_minit.
  - intros Hne Hr1 Hc1.
    assert (Hb : broadcast_dim r c = None).
    { unfold broadcast_dim.
      destruct (Nat.eqb r c) eqn:E; [apply Nat.eqb_eq in E; contradiction|].
      destruct (Nat.eqb r 1) eqn:E1; [apply Nat.eqb_eq in E1; contradiction|].
      destruct (Nat.eqb c 1) eqn:E2; [apply Nat.eqb_eq in E2; contradiction|].
      reflexivity. }
    rewrite Hb in Hload. simpl in Hload.
    split; [exact Hload | rewrite load32_eq; exact Hload].
Qed.

Lemma float32_loaders_raise_unless_the_shape_broadcasts_witness :
  (exists W,
     GlobalEfficiency.load_and_clean_matrix [[1; 2; 3]] = Some W /\
     CharPath.load_and_clean_W [[1; 2; 3]] = Some W /\
     square 3 W) /\
  GlobalEfficiency.load_and_clean_matrix [[0; 1; 2]; [1; 0; 3]] = None /\
  CharPath.load_and_clean_W [[0; 1; 2]; [1; 0; 3]] = None.
Proof.
  split.
  - apply (float32_loaders_raise_unless_the_shape_broadcasts [[1; 2; 3]] 1 3);
      [reflexivity | lia | lia | right; left; reflexivity].
  - apply (float32_loaders_raise_unless_the_shape_broadcasts
             [[0; 1; 2]; [1; 0; 3]] 2 3); [reflexivity | lia | lia | lia | lia | lia].
Defined.
